(** * CacheProxy: a caching reverse proxy for JSON origins

    Shallow embedding of [main.go] (package main): the package-level cache
    map, the [CacheItem] record and [HandleRequest], together with the parts
    of [net/http] and [encoding/json] that [HandleRequest] calls.

    Layout:
    - [Strconv]: the interface of the token-level converters that
      [encoding/json] delegates to ([strconv] float formatting, string
      quoting), and [Small], an executable instance of it;
    - [Json]: the scanner, the decoder into [interface{}] values, the
      encoder, and the round-trip theorem between them;
    - [Http]: headers with aliased value slices, the response writer,
      [http.Error], [http.Get];
    - [Proxy]: the cache, [HandleRequest], and what it guarantees on a
      hit, on a miss and on each failure;
    - [Conc]: an interleaving semantics of concurrent handler invocations
      under the package's [sync.RWMutex];
    - [Scenario]: the handler run on concrete requests. *)

From Stdlib Require Import Ascii String NArith ZArith Lia List Sorted.
From Stdlib Require Import DecimalN DecimalPos DecimalFacts DecimalString.
From stdpp Require Import gmap strings list fin_maps.

Set Warnings "-register-all,-clear-no-such-hyp".

Local Open Scope char_scope.
Local Open Scope list_scope.

(** Go's [[]byte] and the bytes of a Go [string]. *)
Abbreviation bytes := (list ascii).

(** ** Token converters used by encoding/json *)

(** The JSON number grammar, as the state functions [stateNeg], [state1],
    [state0], [stateDot], [stateDot0], [stateE], [stateESign], [stateE0] of
    encoding/json's scanner. *)
Inductive nstate := NBegin | NNeg | N0 | N1 | NDot | NDot0 | NE | NESign | NE0.

Inductive nres := Cont (s : nstate) | Stop | Bad.

Definition isDigit (c : ascii) : bool := ("0" <=? c) && (c <=? "9").
Definition is19 (c : ascii) : bool := ("1" <=? c) && (c <=? "9").
Definition isExp (c : ascii) : bool := (c =? "e") || (c =? "E").
Definition isSign (c : ascii) : bool := (c =? "+") || (c =? "-").

Definition num_step (s : nstate) (c : ascii) : nres :=
  match s with
  | NBegin =>
      if c =? "-" then Cont NNeg
      else if c =? "0" then Cont N0
      else if is19 c then Cont N1 else Bad
  | NNeg =>
      if c =? "0" then Cont N0
      else if is19 c then Cont N1 else Bad
  | N1 =>
      if isDigit c then Cont N1
      else if c =? "." then Cont NDot
      else if isExp c then Cont NE else Stop
  | N0 =>
      if c =? "." then Cont NDot
      else if isExp c then Cont NE else Stop
  | NDot => if isDigit c then Cont NDot0 else Bad
  | NDot0 =>
      if isDigit c then Cont NDot0
      else if isExp c then Cont NE else Stop
  | NE =>
      if isSign c then Cont NESign
      else if isDigit c then Cont NE0 else Bad
  | NESign => if isDigit c then Cont NE0 else Bad
  | NE0 => if isDigit c then Cont NE0 else Stop
  end.

Definition accepting (s : nstate) : bool :=
  match s with
  | N0 | N1 | NDot0 | NE0 => true
  | _ => false
  end.

Definition consl (c : ascii) (r : option (bytes * bytes)) : option (bytes * bytes) :=
  match r with
  | Some (lit, rest) => Some (c :: lit, rest)
  | None => None
  end.

(** Scans the longest number literal at the head of the input; the result
    is the literal and the unread input. Input that ends inside a literal
    is an error. *)
Fixpoint scan_num (s : nstate) (input : bytes) : option (bytes * bytes) :=
  match input with
  | [] => if accepting s then Some ([], []) else None
  | c :: t =>
      match num_step s c with
      | Cont s' => consl c (scan_num s' t)
      | Stop => Some ([], input)
      | Bad => None
      end
  end.

(** States [stateInString], [stateInStringEsc], [stateInStringEscU..U123]
    of the scanner. *)
Inductive sstate := InString | InStringEsc | InStringEscU (pending : nat).

Definition dquote : ascii := "034".
Definition backslash : ascii := "092".

Definition isHex (c : ascii) : bool :=
  isDigit c || (("a" <=? c) && (c <=? "f")) || (("A" <=? c) && (c <=? "F")).

Definition isEscape (c : ascii) : bool :=
  existsb (Ascii.eqb c) ["b"; "f"; "n"; "r"; "t"; backslash; "/"; dquote].

(** Scans a string literal whose opening quote has been read; the result
    is the text between the quotes, escapes untouched, and the input after
    the closing quote. *)
Fixpoint scan_str (s : sstate) (input : bytes) : option (bytes * bytes) :=
  match input with
  | [] => None
  | c :: t =>
      match s with
      | InString =>
          if c =? dquote then Some ([], t)
          else if c =? backslash then consl c (scan_str InStringEsc t)
          else if c <? " " then None
          else consl c (scan_str InString t)
      | InStringEsc =>
          if isEscape c then consl c (scan_str InString t)
          else if c =? "u" then consl c (scan_str (InStringEscU 4) t)
          else None
      | InStringEscU n =>
          if isHex c then
            consl c (scan_str (match n with
                               | S (S m) => InStringEscU (S m)
                               | _ => InString
                               end) t)
          else None
      end
  end.

Definition number_literal (l : bytes) : bool :=
  bool_decide (scan_num NBegin l = Some (l, [])).

Definition string_body (l : bytes) : bool :=
  bool_decide (scan_str InString (l ++ [dquote]) = Some (l, [])).

(** What encoding/json takes from [strconv] and [unicode/utf8]: the
    conversion between float64 and number literals, and between Go strings
    and the text of string literals. [float64] holds the finite values,
    the only ones a decoder produces. The laws are the documented round
    trips of those packages. *)
Class Strconv := {
  float64 : Type;
  float64_eq_dec :: EqDecision float64;
  (** [strconv.ParseFloat(lit, 64)] on a scanned literal; [None] when the
      literal is out of range *)
  ParseFloat : bytes -> option float64;
  (** the encoder's float formatting ([floatEncoder]) *)
  FormatFloat : float64 -> bytes;
  (** [utf8.ValidString] *)
  ValidString : bytes -> bool;
  (** decode.go [unquote], on the text between the quotes *)
  unquote : bytes -> option bytes;
  (** encode.go [appendString] with HTML escaping, without the quotes *)
  appendString : bytes -> bytes;
  FormatFloat_literal : forall f, number_literal (FormatFloat f) = true;
  ParseFloat_FormatFloat : forall f, ParseFloat (FormatFloat f) = Some f;
  appendString_body :
    forall s, ValidString s = true -> string_body (appendString s) = true;
  unquote_appendString :
    forall s, ValidString s = true -> unquote (appendString s) = Some s;
  unquote_valid : forall l s, unquote l = Some s -> ValidString s = true
}.

(** *** A small executable converter

    Natural-number literals and printable ASCII strings: enough to run the
    decoder and the handler on concrete bodies. Literals with a sign, a
    fraction or an exponent, and string literals with other escapes than an
    escaped quote, backslash or slash, are refused by this converter. *)

Module Small.

Definition printable (c : ascii) : bool := (" " <=? c) && (c <=? "~").

Definition FormatNat (n : N) : bytes :=
  list_ascii_of_string (NilEmpty.string_of_uint (N.to_uint n)).

Definition ParseNat (lit : bytes) : option N :=
  match NilEmpty.uint_of_string (string_of_list_ascii lit) with
  | Some d => Some (N.of_uint d)
  | None => None
  end.

Definition Valid (s : bytes) : bool := forallb printable s.

Definition escaped (c : ascii) : bool := (c =? dquote) || (c =? backslash).

Definition append (s : bytes) : bytes :=
  flat_map (fun c => if escaped c then [backslash; c] else [c]) s.

Fixpoint unq (l : bytes) : option bytes :=
  match l with
  | [] => Some []
  | c :: t =>
      if c =? backslash then
        match t with
        | e :: t' =>
            if escaped e || (e =? "/") then
              match unq t' with
              | Some r => Some (e :: r)
              | None => None
              end
            else None
        | [] => None
        end
      else if printable c && negb (c =? dquote) then
        match unq t with
        | Some r => Some (c :: r)
        | None => None
        end
      else None
  end.

Lemma ParseNat_FormatNat n : ParseNat (FormatNat n) = Some n.
Proof.
  unfold ParseNat, FormatNat.
  rewrite string_of_list_ascii_of_string, NilEmpty.usu.
  by rewrite DecimalN.Unsigned.of_to.
Qed.

Definition digits (d : Decimal.uint) : bytes :=
  list_ascii_of_string (NilEmpty.string_of_uint d).

Lemma scan_digits d :
  scan_num N1 (digits d) = Some (digits d, []).
Proof.
  unfold digits. induction d; simpl; try reflexivity;
    unfold consl; by rewrite IHd.
Qed.

Lemma to_uint_shape n :
  N.to_uint n = Decimal.D0 Decimal.Nil \/
  exists c t, digits (N.to_uint n) = c :: digits t /\ is19 c = true.
Proof.
  destruct n as [|p]; [by left | right]. simpl.
  pose proof (DecimalPos.Unsigned.to_of (Pos.to_uint p)) as Hn.
  rewrite DecimalPos.Unsigned.of_to in Hn. simpl in Hn.
  pose proof (Unsigned.to_uint_nonnil p) as Hnil.
  pose proof (Unsigned.to_uint_nonzero p) as Hnz.
  destruct (Pos.to_uint p) as [|t|t|t|t|t|t|t|t|t|t] eqn:E;
    try congruence; try (eexists _, t; split; reflexivity).
  exfalso. rewrite DecimalFacts.unorm_D0 in Hn.
  assert (Ht : t <> Decimal.Nil) by (intros ->; congruence).
  pose proof (DecimalFacts.nb_digits_unorm t Ht) as Hle.
  rewrite <- Hn in Hle. simpl in Hle. lia.
Qed.

Lemma FormatNat_literal n : number_literal (FormatNat n) = true.
Proof.
  unfold number_literal. apply bool_decide_eq_true.
  unfold FormatNat. fold (digits (N.to_uint n)).
  destruct (to_uint_shape n) as [-> | (c & t & -> & Hc)]; [reflexivity |].
  simpl. unfold num_step.
  assert ((c =? "-") = false /\ (c =? "0") = false) as [-> ->].
  { unfold is19 in Hc. apply andb_prop in Hc as [H1 H2].
    split; apply Ascii.eqb_neq; intros ->; discriminate. }
  rewrite Hc. unfold consl. by rewrite scan_digits.
Qed.

Lemma append_body s : Valid s = true -> string_body (append s) = true.
Proof.
  unfold string_body. intros Hs. apply bool_decide_eq_true.
  induction s as [|c s IH]; [reflexivity |].
  simpl in Hs. apply andb_prop in Hs as [Hc Hs]. specialize (IH Hs).
  simpl. unfold escaped.
  destruct (c =? dquote) eqn:Eq.
  - apply Ascii.eqb_eq in Eq as ->. simpl. unfold consl. by rewrite IH.
  - destruct (c =? backslash) eqn:Eb.
    + apply Ascii.eqb_eq in Eb as ->. simpl. unfold consl. by rewrite IH.
    + simpl. rewrite Eq, Eb.
      assert ((c <? " ") = false) as ->.
      { unfold printable in Hc. apply andb_prop in Hc as [H1 _].
        unfold Ascii.ltb, Ascii.leb in *.
        rewrite Ascii.compare_antisym in H1.
        destruct (Ascii.compare c " "); simpl in *; congruence. }
      unfold consl. by rewrite IH.
Qed.

Lemma unq_append s : Valid s = true -> unq (append s) = Some s.
Proof.
  induction s as [|c s IH]; [reflexivity |]. simpl.
  intros Hs. apply andb_prop in Hs as [Hc Hs]. specialize (IH Hs).
  unfold escaped. destruct (c =? dquote) eqn:Eq.
  - apply Ascii.eqb_eq in Eq as ->. simpl. by rewrite IH.
  - destruct (c =? backslash) eqn:Eb.
    + apply Ascii.eqb_eq in Eb as ->. simpl. by rewrite IH.
    + simpl. rewrite Eb, Hc, Eq. simpl. by rewrite IH.
Qed.

Lemma unq_valid l : forall s, unq l = Some s -> Valid s = true.
Proof.
  induction l as [l IH] using (induction_ltof1 _ (@length ascii)).
  unfold ltof in IH. intros s. destruct l as [|c t]; simpl.
  - by intros [= <-].
  - destruct (c =? backslash).
    + destruct t as [|e t']; [done |].
      destruct (escaped e || (e =? "/")) eqn:Ee; [| done].
      destruct (unq t') as [r|] eqn:Er; [| done]. intros [= <-].
      simpl. rewrite (IH t' ltac:(simpl; lia) r Er), andb_true_r.
      unfold escaped in Ee.
      repeat (apply orb_prop in Ee as [Ee | Ee]);
        apply Ascii.eqb_eq in Ee as ->; reflexivity.
    + destruct (printable c && negb (c =? dquote)) eqn:Ec; [| done].
      destruct (unq t) as [r|] eqn:Er; [| done]. intros [= <-].
      simpl. rewrite (IH t ltac:(simpl; lia) r Er), andb_true_r.
      by apply andb_prop in Ec as [-> _].
Qed.

#[export] Instance strconv : Strconv := {|
  float64 := N;
  ParseFloat := ParseNat;
  FormatFloat := FormatNat;
  ValidString := Valid;
  unquote := unq;
  appendString := append;
  FormatFloat_literal := FormatNat_literal;
  ParseFloat_FormatFloat := ParseNat_FormatNat;
  appendString_body := append_body;
  unquote_appendString := unq_append;
  unquote_valid := unq_valid
|}.

End Small.

(** ** encoding/json *)

Module Json.
Section Codec.
Context {SC : Strconv}.

(** The values [Decode] stores into an [interface{}]: nil, bool, float64,
    string, [[]interface{}] and [map[string]interface{}]. A Go map is kept
    as the list of its entries in increasing key order (keys unique), so
    that two maps with the same entries are equal terms. *)
Inductive value :=
| VNull
| VBool (b : bool)
| VNum (f : float64)
| VStr (s : bytes)
| VArr (l : list value)
| VObj (m : list (bytes * value)).

(** Byte-wise order of Go strings ([strings.Compare]). *)
Fixpoint bytes_compare (a b : bytes) : comparison :=
  match a, b with
  | [], [] => Eq
  | [], _ :: _ => Lt
  | _ :: _, [] => Gt
  | x :: a', y :: b' =>
      match Ascii.compare x y with
      | Eq => bytes_compare a' b'
      | Lt => Lt
      | Gt => Gt
      end
  end.

(** [m[k] = v] on a Go map. *)
Fixpoint obj_insert (k : bytes) (v : value) (m : list (bytes * value))
  : list (bytes * value) :=
  match m with
  | [] => [(k, v)]
  | (k', v') :: m' =>
      match bytes_compare k k' with
      | Lt => (k, v) :: m
      | Eq => (k, v) :: m'
      | Gt => (k', v') :: obj_insert k v m'
      end
  end.

Definition isSpace (c : ascii) : bool :=
  (c =? " ") || (c =? "009") || (c =? "013") || (c =? "010").

Fixpoint skip_ws (s : bytes) : bytes :=
  match s with
  | c :: t => if isSpace c then skip_ws t else s
  | [] => []
  end.

Fixpoint strip_prefix (p s : bytes) : option bytes :=
  match p, s with
  | [], _ => Some s
  | a :: p', b :: s' => if a =? b then strip_prefix p' s' else None
  | _ :: _, [] => None
  end.

Definition lit_null : bytes := ["n"; "u"; "l"; "l"].
Definition lit_true : bytes := ["t"; "r"; "u"; "e"].
Definition lit_false : bytes := ["f"; "a"; "l"; "s"; "e"].

(** scanner.go: [maxNestingDepth]. *)
Definition maxNestingDepth : N := 10000.

(** A string literal at the head of the input, converted. *)
Definition parse_string (s : bytes) : option (bytes * bytes) :=
  match s with
  | c :: t =>
      if c =? dquote then
        match scan_str InString t with
        | Some (lit, r) =>
            match unquote lit with
            | Some str => Some (str, r)
            | None => None
            end
        | None => None
        end
      else None
  | [] => None
  end.

(** The decoder, one JSON value at the head of the input; the result is
    the value and the unread input, or [None] for a syntax error, for
    nesting beyond [maxNestingDepth] and for a number out of range.
    [depth] is the number of open objects and arrays; [fuel] bounds the
    recursion, and a fuel above the length of the input is never used up
    ([first_value_fuel]). *)
Fixpoint parse_value (fuel : nat) (depth : N) (s : bytes) {struct fuel}
  : option (value * bytes) :=
  match fuel with
  | O => None
  | S n =>
      match s with
      | [] => None
      | c :: t =>
          if c =? "{" then
            if (depth <? maxNestingDepth)%N then
              match skip_ws t with
              | c' :: r =>
                  if c' =? "}" then Some (VObj [], r)
                  else parse_members n (depth + 1)%N [] (c' :: r)
              | [] => None
              end
            else None
          else if c =? "[" then
            if (depth <? maxNestingDepth)%N then
              match skip_ws t with
              | c' :: r =>
                  if c' =? "]" then Some (VArr [], r)
                  else parse_elements n (depth + 1)%N [] (c' :: r)
              | [] => None
              end
            else None
          else if c =? dquote then
            match parse_string s with
            | Some (str, r) => Some (VStr str, r)
            | None => None
            end
          else if c =? "n" then
            match strip_prefix lit_null s with
            | Some r => Some (VNull, r)
            | None => None
            end
          else if c =? "t" then
            match strip_prefix lit_true s with
            | Some r => Some (VBool true, r)
            | None => None
            end
          else if c =? "f" then
            match strip_prefix lit_false s with
            | Some r => Some (VBool false, r)
            | None => None
            end
          else
            match scan_num NBegin s with
            | Some (lit, r) =>
                match ParseFloat lit with
                | Some f => Some (VNum f, r)
                | None => None
                end
            | None => None
            end
      end
  end
with parse_members (fuel : nat) (depth : N) (acc : list (bytes * value))
       (s : bytes) {struct fuel} : option (value * bytes) :=
  match fuel with
  | O => None
  | S n =>
      match parse_string s with
      | Some (k, r) =>
          match skip_ws r with
          | c :: r1 =>
              if c =? ":" then
                match parse_value n depth (skip_ws r1) with
                | Some (v, r2) =>
                    match skip_ws r2 with
                    | c' :: r3 =>
                        if c' =? "," then
                          parse_members n depth (obj_insert k v acc) (skip_ws r3)
                        else if c' =? "}" then
                          Some (VObj (obj_insert k v acc), r3)
                        else None
                    | [] => None
                    end
                | None => None
                end
              else None
          | [] => None
          end
      | None => None
      end
  end
with parse_elements (fuel : nat) (depth : N) (acc : list value)
       (s : bytes) {struct fuel} : option (value * bytes) :=
  match fuel with
  | O => None
  | S n =>
      match parse_value n depth s with
      | Some (v, r) =>
          match skip_ws r with
          | c :: r1 =>
              if c =? "," then parse_elements n depth (v :: acc) (skip_ws r1)
              else if c =? "]" then Some (VArr (rev (v :: acc)), r1)
              else None
          | [] => None
          end
      | None => None
      end
  end.

(** The first JSON value of a stream, as [Decoder.Decode] into an
    [interface{}] reads it: leading space is skipped, what follows the
    value is left unread. *)
Definition first_value (body : bytes) : option value :=
  let s := skip_ws body in
  match parse_value (S (length s)) 0 s with
  | Some (v, _) => Some v
  | None => None
  end.

Inductive decode_result :=
| DecodeOk (v : value)
| SyntaxError
| UnmarshalTypeError.

(** [json.NewDecoder(body).Decode(&responseData)] with [responseData] a nil
    [map[string]interface{}]. An object fills a fresh map; [null] leaves
    the map nil without error; any other value is an
    [*json.UnmarshalTypeError]. The nil map is [VNull]. *)
Definition Decode (body : bytes) : decode_result :=
  match first_value body with
  | Some (VObj m) => DecodeOk (VObj m)
  | Some VNull => DecodeOk VNull
  | Some _ => UnmarshalTypeError
  | None => SyntaxError
  end.

Fixpoint join_comma (parts : list bytes) : bytes :=
  match parts with
  | [] => []
  | [p] => p
  | p :: ps => p ++ "," :: join_comma ps
  end.

Definition quote (s : bytes) : bytes := dquote :: appendString s ++ [dquote].

(** The encoder: compact output, map entries in increasing key order. *)
Fixpoint encode (v : value) : bytes :=
  match v with
  | VNull => lit_null
  | VBool true => lit_true
  | VBool false => lit_false
  | VNum f => FormatFloat f
  | VStr s => quote s
  | VArr l => "[" :: join_comma (map encode l) ++ ["]"]
  | VObj m =>
      "{" :: join_comma (map (fun kv => quote (fst kv) ++ ":" :: encode (snd kv)) m)
          ++ ["}"]
  end.

(** [json.Marshal(responseData)]. The values [Decode] produces hold no
    NaN, infinity, channel or function, the only causes of a Marshal
    error, so the result is always [Some]. *)
Definition Marshal (v : value) : option bytes := Some (encode v).

(** *** Values a decoder can produce

    [wf d v]: [v] nests no deeper than the scanner allows below [d] open
    containers, its strings are valid UTF-8, and the entries of each map
    are in strictly increasing key order. *)
Definition key_lt (a b : bytes) : Prop := bytes_compare a b = Lt.

Fixpoint wf (d : N) (v : value) {struct v} : Prop :=
  match v with
  | VNull | VBool _ | VNum _ => True
  | VStr s => ValidString s = true
  | VArr l =>
      (d < maxNestingDepth)%N /\
      (fix all (l : list value) : Prop :=
         match l with
         | [] => True
         | x :: l' => wf (d + 1) x /\ all l'
         end) l
  | VObj m =>
      (d < maxNestingDepth)%N /\
      StronglySorted key_lt (map fst m) /\
      (fix all (m : list (bytes * value)) : Prop :=
         match m with
         | [] => True
         | kx :: m' => (ValidString (fst kx) = true /\ wf (d + 1) (snd kx)) /\ all m'
         end) m
  end.

Definition wf_entry (d : N) (kx : bytes * value) : Prop :=
  ValidString (fst kx) = true /\ wf d (snd kx).

Lemma wf_VArr d l :
  wf d (VArr l) <-> (d < maxNestingDepth)%N /\ Forall (wf (d + 1)) l.
Proof.
  simpl. apply and_iff_compat_l. induction l as [|x l IH].
  - split; auto.
  - rewrite Forall_cons. by rewrite IH.
Qed.

Lemma wf_VObj d m :
  wf d (VObj m) <->
  (d < maxNestingDepth)%N /\ StronglySorted key_lt (map fst m) /\
  Forall (wf_entry (d + 1)) m.
Proof.
  simpl. do 2 apply and_iff_compat_l. induction m as [|x m IH].
  - split; auto.
  - rewrite Forall_cons. by rewrite IH.
Qed.

(** *** The byte-wise order *)

Lemma ascii_compare_refl a : Ascii.compare a a = Eq.
Proof. unfold Ascii.compare. apply N.compare_refl. Qed.

Lemma ascii_compare_lt_trans a b c :
  Ascii.compare a b = Lt -> Ascii.compare b c = Lt -> Ascii.compare a c = Lt.
Proof.
  unfold Ascii.compare. rewrite !N.compare_lt_iff. lia.
Qed.

Lemma bytes_compare_eq a : forall b, bytes_compare a b = Eq <-> a = b.
Proof.
  induction a as [|x a IH]; intros [|y b]; simpl; try (split; congruence).
  destruct (Ascii.compare x y) eqn:E.
  - apply Ascii.compare_eq_iff in E as ->. rewrite IH. split; congruence.
  - split; [done |]. intros [= -> _]. by rewrite ascii_compare_refl in E.
  - split; [done |]. intros [= -> _]. by rewrite ascii_compare_refl in E.
Qed.

Lemma bytes_compare_antisym a :
  forall b, bytes_compare a b = CompOpp (bytes_compare b a).
Proof.
  induction a as [|x a IH]; intros [|y b]; simpl; try reflexivity.
  rewrite (Ascii.compare_antisym x y).
  destruct (Ascii.compare y x); simpl; auto.
Qed.

Lemma key_lt_trans a : forall b c, key_lt a b -> key_lt b c -> key_lt a c.
Proof.
  unfold key_lt.
  induction a as [|x a IH]; intros [|y b] [|z c]; simpl; try congruence.
  destruct (Ascii.compare x y) eqn:Exy; try congruence.
  - apply Ascii.compare_eq_iff in Exy as ->.
    destruct (Ascii.compare y z); try congruence. apply IH.
  - destruct (Ascii.compare y z) eqn:Eyz; try congruence.
    + apply Ascii.compare_eq_iff in Eyz as ->. by rewrite Exy.
    + by rewrite (ascii_compare_lt_trans _ _ _ Exy Eyz).
Qed.

Lemma key_lt_gt a b : key_lt a b -> bytes_compare b a = Gt.
Proof.
  unfold key_lt. intros H. rewrite bytes_compare_antisym, H. reflexivity.
Qed.

(** *** Map insertion *)

Lemma obj_insert_Forall (P : bytes * value -> Prop) k v m :
  P (k, v) -> Forall P m -> Forall P (obj_insert k v m).
Proof.
  intros Hk. induction 1 as [|[k' v'] m Hx Hm IH]; simpl.
  - by constructor.
  - destruct (bytes_compare k k'); repeat constructor; auto.
Qed.

Lemma obj_insert_sorted k v m :
  StronglySorted key_lt (map fst m) ->
  StronglySorted key_lt (map fst (obj_insert k v m)).
Proof.
  induction m as [|[k' v'] m IH]; simpl; intros Hs.
  - repeat constructor.
  - apply StronglySorted_inv in Hs as [Hs Hall].
    destruct (bytes_compare k k') eqn:E; simpl.
    + apply bytes_compare_eq in E as ->. by constructor.
    + constructor; [by constructor |]. constructor; [done |].
      eapply Forall_impl; [exact Hall |]. intros c Hc.
      by apply (key_lt_trans _ _ _ E).
    + constructor; [by apply IH |].
      apply Forall_fmap. apply obj_insert_Forall.
      * simpl. unfold key_lt. rewrite bytes_compare_antisym, E. reflexivity.
      * by apply Forall_fmap.
Qed.

(** Inserting a key above every key of the map appends the entry. *)
Lemma obj_insert_last k v m :
  Forall (fun kx => key_lt (fst kx) k) m ->
  obj_insert k v m = m ++ [(k, v)].
Proof.
  induction 1 as [|[k' v'] m Hx Hm IH]; simpl; [done |].
  simpl in Hx. rewrite (key_lt_gt _ _ Hx). by rewrite IH.
Qed.

(** *** Scanning an encoded token followed by more input *)

(** A byte that ends a number literal in every accepting state. *)
Definition num_delim (c : ascii) : bool :=
  negb (isDigit c || (c =? ".") || isExp c).

Definition delimited (rest : bytes) : Prop :=
  match rest with
  | [] => True
  | c :: _ => num_delim c = true
  end.

Lemma num_step_delim s c :
  accepting s = true -> num_delim c = true -> num_step s c = Stop.
Proof.
  unfold num_delim. rewrite negb_true_iff, !orb_false_iff.
  intros Hs [[Hd Hp] He]. destruct s; try discriminate Hs; simpl;
    by rewrite ?Hd, ?Hp, ?He.
Qed.

Lemma scan_num_app l :
  forall s l' rest,
    scan_num s l = Some (l', []) -> delimited rest ->
    scan_num s (l ++ rest) = Some (l', rest).
Proof.
  induction l as [|c l IH]; intros s l' rest; simpl.
  - destruct (accepting s) eqn:Ha; [| done]. intros [= <-] Hr.
    destruct rest as [|c rest]; simpl; [by rewrite Ha |].
    by rewrite (num_step_delim _ _ Ha Hr).
  - destruct (num_step s c) as [s'| |]; try done.
    unfold consl. destruct (scan_num s' l) as [[lit r]|] eqn:E; [| done].
    intros [= <- ->] Hr. by rewrite (IH _ _ _ E Hr).
Qed.

Lemma scan_str_app l :
  forall s l' rest,
    scan_str s (l ++ [dquote]) = Some (l', []) ->
    scan_str s (l ++ dquote :: rest) = Some (l', rest).
Proof.
  induction l as [|c l IH]; intros s l' rest; simpl.
  - destruct s; simpl; [by intros [= <-] | done | done].
  - assert (Hc : forall s', consl c (scan_str s' (l ++ [dquote])) = Some (l', []) ->
                      consl c (scan_str s' (l ++ dquote :: rest)) = Some (l', rest)).
    { intros s'. unfold consl.
      destruct (scan_str s' (l ++ [dquote])) as [[lit r]|] eqn:E; [| done].
      intros [= <- ->]. by rewrite (IH _ _ rest E). }
    destruct s.
    + destruct (c =? dquote).
      { intros [= _ Hnil]. by destruct l. }
      destruct (c =? backslash); [apply Hc |].
      destruct (c <? " "); [done | apply Hc].
    + destruct (isEscape c); [apply Hc |].
      destruct (c =? "u"); [apply Hc | done].
    + destruct (isHex c); [apply Hc | done].
Qed.

Lemma parse_string_quote k rest :
  ValidString k = true -> parse_string (quote k ++ rest) = Some (k, rest).
Proof.
  intros Hk. unfold parse_string, quote. simpl.
  rewrite <- app_assoc. simpl.
  pose proof (appendString_body k Hk) as Hb. unfold string_body in Hb.
  apply bool_decide_eq_true in Hb.
  rewrite (scan_str_app _ _ _ rest Hb).
  by rewrite (unquote_appendString k Hk).
Qed.

Lemma ascii_leb_le a b :
  (a <=? b) = true <-> (N_of_ascii a <= N_of_ascii b)%N.
Proof.
  change (a <=? b) with (N_of_ascii a <=? N_of_ascii b)%N. apply N.leb_le.
Qed.

Lemma is19_isDigit c : is19 c = true -> isDigit c = true.
Proof.
  unfold is19, isDigit. rewrite !andb_true_iff, !ascii_leb_le.
  change (N_of_ascii "1") with 49%N. change (N_of_ascii "0") with 48%N. lia.
Qed.

(** The first byte of a number literal is a sign or a digit. *)
Definition num_start (c : ascii) : bool := (c =? "-") || isDigit c.

Lemma FormatFloat_head f :
  exists c t, FormatFloat f = c :: t /\ num_start c = true.
Proof.
  pose proof (FormatFloat_literal f) as Hl. unfold number_literal in Hl.
  apply bool_decide_eq_true in Hl.
  destruct (FormatFloat f) as [|c t]; [done |].
  exists c, t. split; [done |]. simpl in Hl. unfold num_start.
  destruct (c =? "-"); [done |]. destruct (c =? "0") eqn:E0.
  { apply Ascii.eqb_eq in E0 as ->. reflexivity. }
  destruct (is19 c) eqn:E19; [| done]. by rewrite (is19_isDigit _ E19).
Qed.

(** What [parse_value] tests on the first byte of a value. *)
Definition dispatch_free (c : ascii) : Prop :=
  (c =? "{") = false /\ (c =? "[") = false /\ (c =? dquote) = false /\
  (c =? "n") = false /\ (c =? "t") = false /\ (c =? "f") = false.

Lemma num_start_neq c x :
  num_start c = true -> num_start x = false -> (c =? x) = false.
Proof.
  intros Hc Hx. apply Ascii.eqb_neq. intros ->. congruence.
Qed.

Lemma num_start_dispatch c : num_start c = true -> dispatch_free c.
Proof.
  intros H. unfold dispatch_free. by rewrite !(num_start_neq c _ H).
Qed.

Lemma num_start_not_space c : num_start c = true -> isSpace c = false.
Proof.
  intros H. unfold isSpace. by rewrite !(num_start_neq c _ H).
Qed.

(** Every encoding starts with a byte that is neither space nor a closing
    bracket. *)
Definition value_start (c : ascii) : Prop :=
  isSpace c = false /\ (c =? "]") = false /\ (c =? "}") = false.

Lemma encode_head v : exists c t, encode v = c :: t /\ value_start c.
Proof.
  destruct v as [|[]|f|s|l|m]; simpl; try (by eexists _, _).
  destruct (FormatFloat_head f) as (c & t & -> & Hc).
  exists c, t. split; [done |]. unfold value_start.
  by rewrite (num_start_not_space _ Hc), !(num_start_neq c _ Hc).
Qed.

Lemma skip_ws_start c t : isSpace c = false -> skip_ws (c :: t) = c :: t.
Proof. intros H. simpl. by rewrite H. Qed.

(** *** One step of each decoder function *)

Lemma parse_value_object n d t :
  parse_value (S n) d ("{" :: t) =
  if (d <? maxNestingDepth)%N then
    match skip_ws t with
    | c' :: r =>
        if c' =? "}" then Some (VObj [], r)
        else parse_members n (d + 1)%N [] (c' :: r)
    | [] => None
    end
  else None.
Proof. reflexivity. Qed.

Lemma parse_value_array n d t :
  parse_value (S n) d ("[" :: t) =
  if (d <? maxNestingDepth)%N then
    match skip_ws t with
    | c' :: r =>
        if c' =? "]" then Some (VArr [], r)
        else parse_elements n (d + 1)%N [] (c' :: r)
    | [] => None
    end
  else None.
Proof. reflexivity. Qed.

Lemma parse_value_string n d t :
  parse_value (S n) d (dquote :: t) =
  match parse_string (dquote :: t) with
  | Some (str, r) => Some (VStr str, r)
  | None => None
  end.
Proof. reflexivity. Qed.

Lemma parse_value_number n d c t :
  dispatch_free c ->
  parse_value (S n) d (c :: t) =
  match scan_num NBegin (c :: t) with
  | Some (lit, r) =>
      match ParseFloat lit with
      | Some f => Some (VNum f, r)
      | None => None
      end
  | None => None
  end.
Proof.
  intros (H1 & H2 & H3 & H4 & H5 & H6).
  cbn [parse_value]. by rewrite H1, H2, H3, H4, H5, H6.
Qed.

Lemma parse_elements_S n d acc s :
  parse_elements (S n) d acc s =
  match parse_value n d s with
  | Some (v, r) =>
      match skip_ws r with
      | c :: r1 =>
          if c =? "," then parse_elements n d (v :: acc) (skip_ws r1)
          else if c =? "]" then Some (VArr (rev (v :: acc)), r1)
          else None
      | [] => None
      end
  | None => None
  end.
Proof. reflexivity. Qed.

Lemma parse_members_S n d acc s :
  parse_members (S n) d acc s =
  match parse_string s with
  | Some (k, r) =>
      match skip_ws r with
      | c :: r1 =>
          if c =? ":" then
            match parse_value n d (skip_ws r1) with
            | Some (v, r2) =>
                match skip_ws r2 with
                | c' :: r3 =>
                    if c' =? "," then
                      parse_members n d (obj_insert k v acc) (skip_ws r3)
                    else if c' =? "}" then
                      Some (VObj (obj_insert k v acc), r3)
                    else None
                | [] => None
                end
            | None => None
            end
          else None
      | [] => None
      end
  | None => None
  end.
Proof. reflexivity. Qed.

(** *** Decoding an encoding *)

Definition entry_enc (kv : bytes * value) : bytes :=
  quote (fst kv) ++ ":" :: encode (snd kv).

Lemma encode_VObj m :
  encode (VObj m) = "{" :: join_comma (map entry_enc m) ++ ["}"].
Proof. reflexivity. Qed.

Lemma encode_VArr l :
  encode (VArr l) = "[" :: join_comma (map encode l) ++ ["]"].
Proof. reflexivity. Qed.

Lemma join_comma_cons2 p q ps :
  join_comma (p :: q :: ps) = p ++ "," :: join_comma (q :: ps).
Proof. reflexivity. Qed.

Lemma skip_ws_encode v rest : skip_ws (encode v ++ rest) = encode v ++ rest.
Proof.
  destruct (encode_head v) as (c & t & -> & Hc & _). by apply skip_ws_start.
Qed.

Lemma skip_ws_join_encode v l rest :
  skip_ws (join_comma (map encode (v :: l)) ++ rest) =
  join_comma (map encode (v :: l)) ++ rest.
Proof.
  destruct l as [|v' l]; [apply skip_ws_encode |].
  cbn [map]. rewrite join_comma_cons2, <- app_assoc. apply skip_ws_encode.
Qed.

Lemma join_entries_head kv m rest :
  exists t, join_comma (map entry_enc (kv :: m)) ++ rest = dquote :: t.
Proof.
  destruct m as [|kv' m]; cbn [map]; [| rewrite join_comma_cons2];
    unfold entry_enc at 1, quote; simpl; eauto.
Qed.

Lemma sorted_app_below {A} (R : A -> A -> Prop) (l1 : list A) x l2 :
  StronglySorted R (l1 ++ x :: l2) -> Forall (fun y => R y x) l1.
Proof.
  induction l1 as [|a l1 IH]; simpl; intros Hs; [constructor |].
  apply StronglySorted_inv in Hs as [Hs Ha]. constructor; [| by apply IH].
  rewrite Forall_app, Forall_cons in Ha. tauto.
Qed.

Definition roundtrip_value (fuel : nat) : Prop :=
  forall v d rest,
    wf d v -> (length (encode v) < fuel)%nat -> delimited rest ->
    parse_value fuel d (encode v ++ rest) = Some (v, rest).

Definition roundtrip_elements (fuel : nat) : Prop :=
  forall l acc d rest,
    l <> [] -> Forall (wf d) l ->
    (S (length (join_comma (map encode l))) < fuel)%nat ->
    parse_elements fuel d acc (join_comma (map encode l) ++ "]" :: rest)
    = Some (VArr (rev acc ++ l), rest).

Definition roundtrip_members (fuel : nat) : Prop :=
  forall m acc d rest,
    m <> [] -> Forall (wf_entry d) m ->
    StronglySorted key_lt (map fst (acc ++ m)) ->
    (S (length (join_comma (map entry_enc m))) < fuel)%nat ->
    parse_members fuel d acc (join_comma (map entry_enc m) ++ "}" :: rest)
    = Some (VObj (acc ++ m), rest).

Lemma roundtrip_elements_S n :
  roundtrip_value n -> roundtrip_elements n -> roundtrip_elements (S n).
Proof.
  intros IHv IHe l acc d rest Hne Hwf Hlen.
  destruct l as [|v l]; [done |]. clear Hne.
  apply Forall_cons in Hwf as [Hv Hl].
  rewrite parse_elements_S. destruct l as [|v' l].
  - cbn [map join_comma] in *.
    rewrite (IHv v d ("]" :: rest) Hv); [| lia | reflexivity].
    reflexivity.
  - cbn [map] in *. rewrite join_comma_cons2 in *. rewrite <- app_assoc.
    rewrite length_app in Hlen. cbn [length] in Hlen.
    rewrite (IHv v d _ Hv); [| lia | reflexivity].
    cbn [app skip_ws isSpace Ascii.eqb Bool.eqb orb].
    rewrite (skip_ws_join_encode v' l).
    rewrite (IHe (v' :: l) (v :: acc) d rest);
      [| done | done | cbn [map]; lia].
    cbn [rev]. by rewrite <- app_assoc.
Qed.

Lemma roundtrip_members_S n :
  roundtrip_value n -> roundtrip_members n -> roundtrip_members (S n).
Proof.
  intros IHv IHm m acc d rest Hne Hwf Hs Hlen.
  destruct m as [|[k v] m]; [done |]. clear Hne.
  apply Forall_cons in Hwf as [[Hk Hv] Hm]. cbn [fst snd] in Hk, Hv.
  pose proof (sorted_app_below _ _ _ _
                (eq_ind _ (StronglySorted key_lt) Hs _ (map_app fst acc _)))
    as Hbelow.
  assert (Hins : obj_insert k v acc = acc ++ [(k, v)]).
  { apply obj_insert_last. by apply Forall_fmap in Hbelow. }
  rewrite parse_members_S.
  assert (Hpre : forall tail,
    match parse_string (entry_enc (k, v) ++ tail) with
    | Some (k0, r) =>
        match skip_ws r with
        | c :: r1 =>
            if c =? ":" then
              match parse_value n d (skip_ws r1) with
              | Some (v0, r2) =>
                  match skip_ws r2 with
                  | c' :: r3 =>
                      if c' =? "," then
                        parse_members n d (obj_insert k0 v0 acc) (skip_ws r3)
                      else if c' =? "}" then
                        Some (VObj (obj_insert k0 v0 acc), r3)
                      else None
                  | [] => None
                  end
              | None => None
              end
            else None
        | [] => None
        end
    | None => None
    end =
    match parse_value n d (encode v ++ tail) with
    | Some (v0, r2) =>
        match skip_ws r2 with
        | c' :: r3 =>
            if c' =? "," then
              parse_members n d (obj_insert k v0 acc) (skip_ws r3)
            else if c' =? "}" then
              Some (VObj (obj_insert k v0 acc), r3)
            else None
        | [] => None
        end
    | None => None
    end).
  { intros tail. unfold entry_enc. cbn [fst snd].
    rewrite <- app_assoc. rewrite (parse_string_quote k _ Hk).
    cbn [app skip_ws isSpace Ascii.eqb Bool.eqb orb].
    by rewrite skip_ws_encode. }
  destruct m as [|kv' m].
  - cbn [map join_comma] in *. rewrite Hpre.
    assert (length (encode v) < n)%nat.
    { unfold entry_enc in Hlen. rewrite length_app in Hlen.
      cbn [length snd] in Hlen. lia. }
    rewrite (IHv v d ("}" :: rest) Hv); [| lia | reflexivity].
    cbn. by rewrite Hins.
  - cbn [map] in *. rewrite join_comma_cons2 in *. rewrite <- app_assoc.
    rewrite Hpre.
    rewrite length_app in Hlen. cbn [length] in Hlen.
    assert (length (encode v) < n)%nat.
    { unfold entry_enc in Hlen at 1. rewrite length_app in Hlen.
      cbn [length snd] in Hlen. lia. }
    rewrite <- app_comm_cons.
    rewrite (IHv v d _ Hv); [| lia | reflexivity].
    cbn [skip_ws isSpace Ascii.eqb Bool.eqb orb].
    change (entry_enc kv' :: map entry_enc m)
      with (map entry_enc (kv' :: m)) in *.
    destruct (join_entries_head kv' m ("}" :: rest)) as [t Ht].
    rewrite Ht. cbn [skip_ws isSpace Ascii.eqb Bool.eqb orb dquote].
    rewrite <- Ht, Hins.
    rewrite (IHm (kv' :: m) (acc ++ [(k, v)]) d rest);
      [by rewrite <- app_assoc | done | done | by rewrite <- app_assoc | lia].
Qed.

Lemma roundtrip_value_S n :
  roundtrip_elements n -> roundtrip_members n -> roundtrip_value (S n).
Proof.
  intros IHe IHm v d rest Hwf Hlen Hrest.
  destruct v as [|[]|f|s|l|m]; try reflexivity.
  - (* number *)
    cbn [encode]. destruct (FormatFloat_head f) as (c & t & Hf & Hc).
    rewrite Hf. cbn [app].
    rewrite (parse_value_number _ _ _ _ (num_start_dispatch _ Hc)).
    pose proof (FormatFloat_literal f) as Hl. unfold number_literal in Hl.
    apply bool_decide_eq_true in Hl. rewrite Hf in Hl.
    rewrite app_comm_cons, (scan_num_app _ _ _ rest Hl Hrest).
    by rewrite <- Hf, ParseFloat_FormatFloat.
  - (* string *)
    cbn [encode wf] in *. unfold quote at 1. cbn [app].
    rewrite parse_value_string.
    change (dquote :: (appendString s ++ [dquote]) ++ rest)
      with (quote s ++ rest).
    by rewrite (parse_string_quote s rest Hwf).
  - (* array *)
    apply wf_VArr in Hwf as [Hd Hl]. rewrite encode_VArr in *. cbn [app].
    rewrite parse_value_array. apply N.ltb_lt in Hd. rewrite Hd.
    rewrite <- app_assoc. cbn [app].
    destruct l as [|v l]; [reflexivity |].
    rewrite skip_ws_join_encode.
    destruct (encode_head v) as (c & t & Hv & _ & Hc & _).
    assert (Hj : exists t', join_comma (map encode (v :: l)) ++ "]" :: rest = c :: t').
    { destruct l; cbn [map]; [| rewrite join_comma_cons2]; rewrite Hv;
        simpl; eauto. }
    destruct Hj as [t' Hj]. rewrite Hj, Hc, <- Hj.
    rewrite (IHe (v :: l) [] (d + 1)%N rest); [done | done | done |].
    cbn [length] in Hlen. rewrite length_app in Hlen. cbn [length] in Hlen. lia.
  - (* object *)
    apply wf_VObj in Hwf as (Hd & Hs & Hm). rewrite encode_VObj in *. cbn [app].
    rewrite parse_value_object. apply N.ltb_lt in Hd. rewrite Hd.
    rewrite <- app_assoc. cbn [app].
    destruct m as [|kv m]; [reflexivity |].
    destruct (join_entries_head kv m ("}" :: rest)) as [t Ht].
    rewrite Ht. cbn [skip_ws isSpace Ascii.eqb Bool.eqb orb dquote].
    rewrite <- Ht.
    rewrite (IHm (kv :: m) [] (d + 1)%N rest); [done | done | done | done |].
    cbn [length] in Hlen. rewrite length_app in Hlen. cbn [length] in Hlen. lia.
Qed.

Lemma roundtrip_fuel fuel :
  roundtrip_value fuel /\ roundtrip_elements fuel /\ roundtrip_members fuel.
Proof.
  induction fuel as [|n (IHv & IHe & IHm)].
  - repeat split; red; intros; lia.
  - split; [by apply roundtrip_value_S |].
    split; [by apply roundtrip_elements_S | by apply roundtrip_members_S].
Qed.

(** Decoding the encoding of a well-formed value, whatever delimiter
    follows it, gives the value back and leaves what follows unread. *)
Lemma parse_encode v d rest fuel :
  wf d v -> (length (encode v) < fuel)%nat -> delimited rest ->
  parse_value fuel d (encode v ++ rest) = Some (v, rest).
Proof. intros. by apply roundtrip_fuel. Qed.

Lemma first_value_encode v rest :
  wf 0 v -> delimited rest -> first_value (encode v ++ rest) = Some v.
Proof.
  intros Hwf Hrest. unfold first_value. rewrite skip_ws_encode.
  rewrite parse_encode; [done | done | | done].
  rewrite length_app. lia.
Qed.

(** *** Every decoded value is well formed *)

Lemma parse_string_valid s k r :
  parse_string s = Some (k, r) -> ValidString k = true.
Proof.
  unfold parse_string. destruct s as [|c t]; [done |].
  destruct (c =? dquote); [| done].
  destruct (scan_str InString t) as [[lit r']|]; [| done].
  destruct (unquote lit) as [str|] eqn:E; [| done].
  intros [= <- _]. by apply unquote_valid in E.
Qed.

Definition decoded_value (fuel : nat) : Prop :=
  forall d s v r, parse_value fuel d s = Some (v, r) -> wf d v.

Definition decoded_elements (fuel : nat) : Prop :=
  forall d acc s v r,
    Forall (wf d) acc -> parse_elements fuel d acc s = Some (v, r) ->
    exists l, v = VArr l /\ Forall (wf d) l.

Definition decoded_members (fuel : nat) : Prop :=
  forall d acc s v r,
    Forall (wf_entry d) acc -> StronglySorted key_lt (map fst acc) ->
    parse_members fuel d acc s = Some (v, r) ->
    exists m, v = VObj m /\ StronglySorted key_lt (map fst m) /\
              Forall (wf_entry d) m.

Lemma decoded_elements_S n :
  decoded_value n -> decoded_elements n -> decoded_elements (S n).
Proof.
  intros IHv IHe d acc s v r Hacc. rewrite parse_elements_S.
  destruct (parse_value n d s) as [[v0 r0]|] eqn:Ev; [| done].
  apply IHv in Ev. destruct (skip_ws r0) as [|c r1]; [done |].
  destruct (c =? ",").
  { apply IHe. by constructor. }
  destruct (c =? "]"); [| done]. intros [= <- _].
  eexists; split; [reflexivity |].
  change (Forall (wf d) (rev (v0 :: acc))).
  apply List.Forall_rev. by constructor.
Qed.

Lemma decoded_members_S n :
  decoded_value n -> decoded_members n -> decoded_members (S n).
Proof.
  intros IHv IHm d acc s v r Hacc Hs. rewrite parse_members_S.
  destruct (parse_string s) as [[k r0]|] eqn:Ek; [| done].
  apply parse_string_valid in Ek.
  destruct (skip_ws r0) as [|c r1]; [done |].
  destruct (c =? ":"); [| done].
  destruct (parse_value n d (skip_ws r1)) as [[v0 r2]|] eqn:Ev; [| done].
  apply IHv in Ev. destruct (skip_ws r2) as [|c' r3]; [done |].
  assert (Forall (wf_entry d) (obj_insert k v0 acc))
    by (by apply obj_insert_Forall).
  assert (StronglySorted key_lt (map fst (obj_insert k v0 acc)))
    by (by apply obj_insert_sorted).
  destruct (c' =? ","); [by apply IHm |].
  destruct (c' =? "}"); [| done]. intros [= <- _]. eauto.
Qed.

Lemma decoded_value_S n :
  decoded_elements n -> decoded_members n -> decoded_value (S n).
Proof.
  intros IHe IHm d s v r. destruct s as [|c t]; [done |].
  cbn [parse_value].
  destruct (c =? "{") eqn:E1.
  { destruct (d <? maxNestingDepth)%N eqn:Ed; [| done].
    apply N.ltb_lt in Ed. destruct (skip_ws t) as [|c' r']; [done |].
    destruct (c' =? "}").
    - intros [= <- _]. apply wf_VObj. repeat split; [done | constructor | constructor].
    - intros H. apply IHm in H as (m & -> & Hs & Hm); [| constructor | constructor].
      by apply wf_VObj. }
  destruct (c =? "[") eqn:E2.
  { destruct (d <? maxNestingDepth)%N eqn:Ed; [| done].
    apply N.ltb_lt in Ed. destruct (skip_ws t) as [|c' r']; [done |].
    destruct (c' =? "]").
    - intros [= <- _]. apply wf_VArr. split; [done | constructor].
    - intros H. apply IHe in H as (l & -> & Hl); [| constructor].
      by apply wf_VArr. }
  destruct (c =? dquote) eqn:E3.
  { destruct (parse_string (c :: t)) as [[str r']|] eqn:Es; [| done].
    intros [= <- _]. by apply parse_string_valid in Es. }
  destruct (c =? "n").
  { destruct (strip_prefix lit_null (c :: t)); [| done]. by intros [= <- _]. }
  destruct (c =? "t").
  { destruct (strip_prefix lit_true (c :: t)); [| done]. by intros [= <- _]. }
  destruct (c =? "f").
  { destruct (strip_prefix lit_false (c :: t)); [| done]. by intros [= <- _]. }
  destruct (scan_num NBegin (c :: t)) as [[lit r']|]; [| done].
  destruct (ParseFloat lit); [| done]. by intros [= <- _].
Qed.

Lemma decoded_fuel fuel :
  decoded_value fuel /\ decoded_elements fuel /\ decoded_members fuel.
Proof.
  induction fuel as [|n (IHv & IHe & IHm)].
  - repeat split; red; intros; discriminate.
  - split; [by apply decoded_value_S |].
    split; [by apply decoded_elements_S | by apply decoded_members_S].
Qed.

Lemma first_value_wf body v : first_value body = Some v -> wf 0 v.
Proof.
  unfold first_value.
  destruct (parse_value _ 0 (skip_ws body)) as [[v0 r]|] eqn:E; [| done].
  intros [= <-]. by apply decoded_fuel in E.
Qed.

(** *** The fuel of the decoder

    Every call of the decoder consumes input, so a fuel above the length
    of the input is never used up: from there on the result does not
    depend on the fuel. *)

Lemma skip_ws_length s : (length (skip_ws s) <= length s)%nat.
Proof.
  induction s as [|c s IH]; simpl; [lia |].
  destruct (isSpace c); simpl; lia.
Qed.

Lemma scan_str_length input :
  forall st lit r, scan_str st input = Some (lit, r) ->
                   (length r < length input)%nat.
Proof.
  induction input as [|c t IH]; intros st lit r; simpl; [done |].
  assert (Hc : forall st', consl c (scan_str st' t) = Some (lit, r) ->
                           (length r < S (length t))%nat).
  { intros st'. unfold consl.
    destruct (scan_str st' t) as [[l r']|] eqn:E; [| done].
    intros [= _ <-]. apply IH in E. lia. }
  destruct st.
  - destruct (c =? dquote); [intros [= _ <-]; lia |].
    destruct (c =? backslash); [apply Hc |].
    destruct (c <? " "); [done | apply Hc].
  - destruct (isEscape c); [apply Hc |].
    destruct (c =? "u"); [apply Hc | done].
  - destruct (isHex c); [apply Hc | done].
Qed.

Lemma scan_num_length input :
  forall st lit r, scan_num st input = Some (lit, r) ->
                   (length r <= length input)%nat.
Proof.
  induction input as [|c t IH]; intros st lit r; simpl.
  - destruct (accepting st); [| done]. intros [= _ <-]. simpl. lia.
  - destruct (num_step st c) as [st'| |]; [| intros [= _ <-]; simpl; lia | done].
    unfold consl. destruct (scan_num st' t) as [[l r']|] eqn:E; [| done].
    intros [= _ <-]. apply IH in E. lia.
Qed.

Lemma scan_num_begin_length input lit r :
  scan_num NBegin input = Some (lit, r) -> (length r < length input)%nat.
Proof.
  destruct input as [|c t]; [done |]. cbn [scan_num length].
  destruct (num_step NBegin c) as [st'| |] eqn:Es; [| | done].
  - unfold consl. destruct (scan_num st' t) as [[l r']|] eqn:E; [| done].
    intros [= _ <-]. apply scan_num_length in E. lia.
  - unfold num_step in Es. by repeat case_match.
Qed.

Lemma strip_prefix_length p :
  forall s r, strip_prefix p s = Some r -> (length r + length p = length s)%nat.
Proof.
  induction p as [|a p IH]; intros [|b s] r; simpl; try done.
  - by intros [= <-].
  - by intros [= <-].
  - destruct (a =? b); [| done]. intros H. apply IH in H. lia.
Qed.

Lemma parse_string_length s k r :
  parse_string s = Some (k, r) -> (length r < length s)%nat.
Proof.
  unfold parse_string. destruct s as [|c t]; [done |].
  destruct (c =? dquote); [| done].
  destruct (scan_str InString t) as [[lit r']|] eqn:E; [| done].
  destruct (unquote lit); [| done]. intros [= _ <-].
  apply scan_str_length in E. simpl. lia.
Qed.

Definition consumes_value (fuel : nat) : Prop :=
  forall d s v r, parse_value fuel d s = Some (v, r) ->
                  (length r < length s)%nat.

Definition consumes_elements (fuel : nat) : Prop :=
  forall d acc s v r, parse_elements fuel d acc s = Some (v, r) ->
                      (length r < length s)%nat.

Definition consumes_members (fuel : nat) : Prop :=
  forall d acc s v r, parse_members fuel d acc s = Some (v, r) ->
                      (length r < length s)%nat.

Lemma consumes_fuel fuel :
  consumes_value fuel /\ consumes_elements fuel /\ consumes_members fuel.
Proof.
  induction fuel as [|n (IHv & IHe & IHm)].
  { repeat split; red; intros; discriminate. }
  split; [| split].
  - intros d s v r. destruct s as [|c t]; [done |]. cbn [parse_value].
    pose proof (skip_ws_length t) as Hws.
    destruct (c =? "{").
    { destruct (d <? maxNestingDepth)%N; [| done].
      destruct (skip_ws t) as [|c' r'] eqn:Et; [done |]. simpl in Hws.
      destruct (c' =? "}"); [intros [= _ <-]; simpl; lia |].
      intros H. apply IHm in H. simpl in *. lia. }
    destruct (c =? "[").
    { destruct (d <? maxNestingDepth)%N; [| done].
      destruct (skip_ws t) as [|c' r'] eqn:Et; [done |]. simpl in Hws.
      destruct (c' =? "]"); [intros [= _ <-]; simpl; lia |].
      intros H. apply IHe in H. simpl in *. lia. }
    destruct (c =? dquote).
    { destruct (parse_string (c :: t)) as [[str r']|] eqn:Es; [| done].
      intros [= _ <-]. by apply parse_string_length in Es. }
    destruct (c =? "n").
    { destruct (strip_prefix lit_null (c :: t)) eqn:E; [| done].
      intros [= _ <-]. apply strip_prefix_length in E. simpl in *. lia. }
    destruct (c =? "t").
    { destruct (strip_prefix lit_true (c :: t)) eqn:E; [| done].
      intros [= _ <-]. apply strip_prefix_length in E. simpl in *. lia. }
    destruct (c =? "f").
    { destruct (strip_prefix lit_false (c :: t)) eqn:E; [| done].
      intros [= _ <-]. apply strip_prefix_length in E. simpl in *. lia. }
    destruct (scan_num NBegin (c :: t)) as [[lit r']|] eqn:E; [| done].
    destruct (ParseFloat lit); [| done]. intros [= _ <-].
    by apply scan_num_begin_length in E.
  - intros d acc s v r. rewrite parse_elements_S.
    destruct (parse_value n d s) as [[v0 r0]|] eqn:Ev; [| done].
    apply IHv in Ev. pose proof (skip_ws_length r0) as Hws.
    destruct (skip_ws r0) as [|c r1]; [done |]. simpl in Hws.
    pose proof (skip_ws_length r1).
    destruct (c =? ",").
    { intros H'. apply IHe in H'. lia. }
    destruct (c =? "]"); [| done]. intros [= _ <-]. lia.
  - intros d acc s v r. rewrite parse_members_S.
    destruct (parse_string s) as [[k r0]|] eqn:Ek; [| done].
    apply parse_string_length in Ek. pose proof (skip_ws_length r0) as Hws.
    destruct (skip_ws r0) as [|c r1]; [done |]. simpl in Hws.
    destruct (c =? ":"); [| done]. pose proof (skip_ws_length r1).
    destruct (parse_value n d (skip_ws r1)) as [[v0 r2]|] eqn:Ev; [| done].
    apply IHv in Ev. pose proof (skip_ws_length r2) as Hws2.
    destruct (skip_ws r2) as [|c' r3]; [done |]. simpl in Hws2.
    pose proof (skip_ws_length r3).
    destruct (c' =? ",").
    { intros H'. apply IHm in H'. lia. }
    destruct (c' =? "}"); [| done]. intros [= _ <-]. lia.
Qed.

(** A successful call succeeds, with the same result, on any fuel that
    covers the bytes it consumed. *)
Definition enough_value (m : nat) : Prop :=
  forall d s v r, parse_value m d s = Some (v, r) ->
  forall n, (length s - length r <= n)%nat -> parse_value n d s = Some (v, r).

Definition enough_elements (m : nat) : Prop :=
  forall d acc s v r, parse_elements m d acc s = Some (v, r) ->
  forall n, (length s - length r <= n)%nat ->
            parse_elements n d acc s = Some (v, r).

Definition enough_members (m : nat) : Prop :=
  forall d acc s v r, parse_members m d acc s = Some (v, r) ->
  forall n, (length s - length r <= n)%nat ->
            parse_members n d acc s = Some (v, r).

Lemma enough_fuel m : enough_value m /\ enough_elements m /\ enough_members m.
Proof.
  induction m as [|m (IHv & IHe & IHm)].
  { repeat split; red; intros; discriminate. }
  split; [| split].
  - intros d s v r H n Hn.
    pose proof (proj1 (consumes_fuel (S m)) d s v r H) as Hlt.
    destruct n as [|n]; [lia |]. destruct s as [|c t]; [done |].
    revert H. cbn [parse_value]. pose proof (skip_ws_length t) as Hws.
    destruct (c =? "{").
    { destruct (d <? maxNestingDepth)%N; [| done].
      destruct (skip_ws t) as [|c' r'] eqn:Et; [done |].
      destruct (c' =? "}"); [done |]. intros H.
      apply (IHm _ _ _ _ _ H). simpl in *. lia. }
    destruct (c =? "["); [| done].
    destruct (d <? maxNestingDepth)%N; [| done].
    destruct (skip_ws t) as [|c' r'] eqn:Et; [done |].
    destruct (c' =? "]"); [done |]. intros H.
    apply (IHe _ _ _ _ _ H). simpl in *. lia.
  - intros d acc s v r H n Hn.
    pose proof (proj1 (proj2 (consumes_fuel (S m))) d acc s v r H) as Hlt.
    destruct n as [|n]; [lia |]. revert H. rewrite !parse_elements_S.
    destruct (parse_value m d s) as [[v0 r0]|] eqn:Ev; [| done].
    pose proof (proj1 (consumes_fuel m) _ _ _ _ Ev) as Hv.
    pose proof (skip_ws_length r0) as Hws.
    destruct (skip_ws r0) as [|c r1] eqn:E0; [done |]. simpl in Hws.
    pose proof (skip_ws_length r1) as Hws1.
    destruct (c =? ",") eqn:Ec.
    + intros H.
      pose proof (proj1 (proj2 (consumes_fuel m)) _ _ _ _ _ H) as He.
      rewrite (IHv _ _ _ _ Ev n) by lia. rewrite E0, Ec.
      apply (IHe _ _ _ _ _ H). lia.
    + destruct (c =? "]") eqn:Eb; [| done]. intros [= <- <-].
      rewrite (IHv _ _ _ _ Ev n) by lia. by rewrite E0, Ec, Eb.
  - intros d acc s v r H n Hn.
    pose proof (proj2 (proj2 (consumes_fuel (S m))) d acc s v r H) as Hlt.
    destruct n as [|n]; [lia |]. revert H. rewrite !parse_members_S.
    destruct (parse_string s) as [[k r0]|] eqn:Ek; [| done].
    apply parse_string_length in Ek. pose proof (skip_ws_length r0) as Hws.
    destruct (skip_ws r0) as [|c r1]; [done |]. simpl in Hws.
    destruct (c =? ":"); [| done]. pose proof (skip_ws_length r1) as Hws1.
    destruct (parse_value m d (skip_ws r1)) as [[v0 r2]|] eqn:Ev; [| done].
    pose proof (proj1 (consumes_fuel m) _ _ _ _ Ev) as Hv.
    pose proof (skip_ws_length r2) as Hws2.
    destruct (skip_ws r2) as [|c' r3] eqn:E2; [done |]. simpl in Hws2.
    pose proof (skip_ws_length r3) as Hws3.
    destruct (c' =? ",") eqn:Ec.
    + intros H.
      pose proof (proj2 (proj2 (consumes_fuel m)) _ _ _ _ _ H) as He.
      rewrite (IHv _ _ _ _ Ev n) by lia. rewrite E2, Ec.
      apply (IHm _ _ _ _ _ H). lia.
    + destruct (c' =? "}") eqn:Eb; [| done]. intros [= <- <-].
      rewrite (IHv _ _ _ _ Ev n) by lia. by rewrite E2, Ec, Eb.
Qed.

(** No fuel above the one [first_value] gives changes its result. *)
Lemma first_value_fuel body extra :
  parse_value (S (length (skip_ws body)) + extra) 0 (skip_ws body)
  = parse_value (S (length (skip_ws body))) 0 (skip_ws body).
Proof.
  set (s := skip_ws body).
  destruct (parse_value (S (length s) + extra) 0 s) as [[v r]|] eqn:E1.
  - symmetry. apply (proj1 (enough_fuel _) _ _ _ _ E1). lia.
  - destruct (parse_value (S (length s)) 0 s) as [[v r]|] eqn:E2; [| done].
    rewrite (proj1 (enough_fuel _) _ _ _ _ E2 (S (length s) + extra)) in E1;
      [done | lia].
Qed.

(** *** Decode and Marshal *)

(** What [Decode] stores in the map variable is the nil map or a map. *)
Lemma Decode_ok_inv body v :
  Decode body = DecodeOk v ->
  first_value body = Some v /\ (v = VNull \/ exists m, v = VObj m).
Proof.
  unfold Decode. destruct (first_value body) as [[]|]; try done;
    intros [= <-]; eauto.
Qed.

Lemma Decode_wf body v : Decode body = DecodeOk v -> wf 0 v.
Proof. intros H. apply Decode_ok_inv in H as [H _]. by apply first_value_wf in H. Qed.

(** [Decode] after [Marshal], with or without bytes after the value. *)
Lemma Decode_encode v rest :
  wf 0 v -> (v = VNull \/ exists m, v = VObj m) -> delimited rest ->
  Decode (encode v ++ rest) = DecodeOk v.
Proof.
  intros Hwf Hv Hrest. unfold Decode.
  rewrite (first_value_encode v rest Hwf Hrest).
  by destruct Hv as [-> | [m ->]].
Qed.

End Codec.
End Json.

(** ** net/http, as far as the handler uses it *)

Module Http.
Local Close Scope char_scope.

(** A [[]string] is known by the location of its backing array: two
    slices assigned from one another share it, and a store through one is
    seen through the other. *)
Definition loc := positive.

(** [http.Header], that is [map[string][]string]. *)
Abbreviation Header := (gmap string loc).

(** The backing arrays. *)
Abbreviation Heap := (gmap loc (list string)).

(** [[]string{...}]: a new backing array. *)
Definition alloc (vs : list string) (hp : Heap) : loc * Heap :=
  let l := fresh (dom hp) in (l, <[l := vs]> hp).

(** The strings a header map holds, read through the heap. *)
Definition contents (hp : Heap) (h : Header) : gmap string (list string) :=
  omap (fun l => hp !! l) h.

(** [h.Set(key, value)] for a key in canonical form. *)
Definition Header_Set (key value : string) (h : Header) (hp : Heap)
  : Header * Heap :=
  let '(l, hp') := alloc [value] hp in (<[key := l]> h, hp').

(** The state of an [http.ResponseWriter]: the header map the handler
    edits; the status and the handler's fields as they stood when the
    header was sent (none before the first [WriteHeader] or [Write]);
    the body bytes written; and whether [Write] returns an error, for
    whatever reason the writer has (the connection is gone, or the bytes
    exceed a [Content-Length] the header declared). The fields a server
    adds to the header by itself ([Date], a [Content-Type] guessed from
    the body, a length or an encoding for the transfer) are not part of
    it. *)
Record ResponseWriter := {
  header : Header;
  wroteHeader : option (nat * gmap string (list string));
  written : bytes;
  writeErr : bool
}.

Definition StatusOK : nat := 200.
Definition StatusInternalServerError : nat := 500.
Definition StatusBadGateway : nat := 502.

Definition set_header (h : Header) (w : ResponseWriter) : ResponseWriter :=
  {| header := h; wroteHeader := wroteHeader w; written := written w;
     writeErr := writeErr w |}.

(** [w.WriteHeader(code)]: sends the status line with a snapshot of the
    header map (the handler's fields; see above for what a server adds);
    a second call changes nothing. *)
Definition WriteHeader (code : nat) (w : ResponseWriter) (hp : Heap)
  : ResponseWriter :=
  match wroteHeader w with
  | Some _ => w
  | None =>
      {| header := header w;
         wroteHeader := Some (code, contents hp (header w));
         written := written w; writeErr := writeErr w |}
  end.

(** [w.Write(b)]: sends the header with status 200 when none was sent,
    then the bytes, all of them or, when the writer refuses, none; the
    boolean is [err == nil]. Whether the writer refuses is a parameter of
    the writer, not computed from the header map. *)
Definition Write (b : bytes) (w : ResponseWriter) (hp : Heap)
  : ResponseWriter * bool :=
  let w1 := WriteHeader StatusOK w hp in
  if writeErr w1 then (w1, false)
  else
    ({| header := header w1; wroteHeader := wroteHeader w1;
        written := written w1 ++ b; writeErr := writeErr w1 |}, true).

Definition newline : ascii := "010"%char.

(** [http.Error(w, msg, code)]: two header fields, the status, the
    message and a newline. (Recent releases also delete a few fields,
    Content-Length among them, before setting the two; nothing below
    reads them.) *)
Definition Error (msg : string) (code : nat) (w : ResponseWriter) (hp : Heap)
  : ResponseWriter * Heap :=
  let '(h1, hp1) :=
    Header_Set "Content-Type" "text/plain; charset=utf-8" (header w) hp in
  let '(h2, hp2) := Header_Set "X-Content-Type-Options" "nosniff" h1 hp1 in
  let w1 := WriteHeader code (set_header h2 w) hp2 in
  (fst (Write (list_ascii_of_string msg ++ [newline]) w1 hp2), hp2).

(** The part of [*http.Request] the handler reads: [r.URL.Path]; the
    query string is a separate field of the URL. *)
Record Request := {
  Path : string;
  RawQuery : string
}.

(** [*http.Response] as [http.Get] returns it, the body read to its
    end. *)
Record Response := {
  StatusCode : nat;
  resHeader : Header;
  Body : bytes
}.

(** What a fetch meets: an error from [http.Get] (no connection, no
    valid URL, ...), or a response with status line, header fields and
    body, whatever the status. *)
Inductive reply :=
| Unreachable
| Answer (status : nat) (fields : gmap string (list string)) (body : bytes).

(** The header map of a response, one new slice per field. *)
Fixpoint alloc_fields (kvs : list (string * list string)) (hp : Heap)
  : Header * Heap :=
  match kvs with
  | [] => (∅, hp)
  | (k, vs) :: rest =>
      let '(h, hp1) := alloc_fields rest hp in
      let '(l, hp2) := alloc vs hp1 in
      (<[k := l]> h, hp2)
  end.

(** [http.Get(url)] against an origin that answers [rp]. *)
Definition Get (rp : reply) (hp : Heap) : option Response * Heap :=
  match rp with
  | Unreachable => (None, hp)
  | Answer status fields body =>
      let '(h, hp') := alloc_fields (map_to_list fields) hp in
      (Some {| StatusCode := status; resHeader := h; Body := body |}, hp')
  end.

End Http.

(** ** main.go *)

Module Proxy.
Import Http.
Local Close Scope char_scope.
Section Handler.
Context {SC : Strconv}.

(** [type CacheItem struct]. *)
Record CacheItem := {
  Response : bytes;
  Headers : Header;
  CachedAt : Z
}.

(** The package-level [cache] map, and the heap its header slices live
    in. [cacheMutex] is left out here: an invocation that runs alone
    takes it at once and leaves the cache as [HandleRequest] below does
    ([Conc.alone_matches_HandleRequest]). *)
Record State := {
  cache : gmap string CacheItem;
  heap : Heap
}.

(** The zero [CacheItem], which a Go map read yields for an absent key. *)
Definition zero : CacheItem :=
  {| Response := []; Headers := ∅; CachedAt := 0 |}.

(** [cacheItem, found := cache[key]]. *)
Definition lookup (c : gmap string CacheItem) (key : string)
  : CacheItem * bool :=
  match c !! key with
  | Some item => (item, true)
  | None => (zero, false)
  end.

(** [cache[key] = item]. *)
Definition insert (key : string) (item : CacheItem)
  (c : gmap string CacheItem) : gmap string CacheItem :=
  <[key := item]> c.

(** What one request meets outside the process: the origin's answer to
    [http.Get(url)] and the value of [time.Now()]. *)
Record Env := {
  origin_reply : string -> reply;
  now : Z
}.

(** The result of one handler invocation: the response writer, the
    package state, and the URLs fetched from the origin, in order. *)
Record Outcome := {
  writer : ResponseWriter;
  state : State;
  fetched : list string
}.

(** [for k, v := range src { dst[k] = v }]. *)
Definition copy_fields (src dst : Header) : Header :=
  map_fold (fun k v h => <[k := v]> h) dst src.

(** [json.NewEncoder(w).Encode(v)]: the encoding, a newline, one
    [Write]. *)
Definition Encode (v : Json.value) (w : ResponseWriter) (hp : Heap)
  : ResponseWriter * bool :=
  match Json.Marshal v with
  | Some b => Write (b ++ [newline]) w hp
  | None => (w, false)
  end.

Definition fail (msg : string) (code : nat) (w : ResponseWriter)
  (c : gmap string CacheItem) (hp : Heap) (urls : list string) : Outcome :=
  let '(w', hp') := Error msg code w hp in
  {| writer := w'; state := {| cache := c; heap := hp' |}; fetched := urls |}.

(** [func HandleRequest(w http.ResponseWriter, r *http.Request, origin string)]. *)
Definition HandleRequest (e : Env) (w : ResponseWriter) (r : Request)
  (origin : string) (s : State) : Outcome :=
  let originURL := origin +:+ Path r in
  let '(cacheItem, found) := lookup (cache s) originURL in
  if found then
    let h := copy_fields (Headers cacheItem) (header w) in
    let '(h', hp) := Header_Set "X-Cache" "HIT" h (heap s) in
    let w' := fst (Write (Response cacheItem) (set_header h' w) hp) in
    {| writer := w'; state := {| cache := cache s; heap := hp |};
       fetched := [] |}
  else
    match Get (origin_reply e originURL) (heap s) with
    | (None, hp) =>
        fail "Error fetching from origin" StatusBadGateway
          w (cache s) hp [originURL]
    | (Some res, hp) =>
        match Json.Decode (Body res) with
        | Json.DecodeOk responseData =>
            let '(h, hp1) := Header_Set "X-Cache" "MISS" (header w) hp in
            match Encode responseData (set_header h w) hp1 with
            | (w1, false) =>
                fail "Error encoding response" StatusInternalServerError
                  w1 (cache s) hp1 [originURL]
            | (w1, true) =>
                match Json.Marshal responseData with
                | None =>
                    fail "Error encoding response for cache"
                      StatusInternalServerError w1 (cache s) hp1 [originURL]
                | Some body =>
                    let copiedHeaders := copy_fields (resHeader res) ∅ in
                    {| writer := w1;
                       state :=
                         {| cache :=
                              insert originURL
                                {| Response := body;
                                   Headers := copiedHeaders;
                                   CachedAt := now e |}
                                (cache s);
                            heap := hp1 |};
                       fetched := [originURL] |}
                end
            end
        | _ =>
            fail "Error decoding response from origin"
              StatusInternalServerError w (cache s) hp [originURL]
        end
    end.

(** A writer on which nothing has been done yet. *)
Definition fresh_writer : ResponseWriter :=
  {| header := ∅; wroteHeader := None; written := []; writeErr := false |}.

(** The package state at process start: [cache = make(map[string]CacheItem)]. *)
Definition init : State := {| cache := ∅; heap := ∅ |}.

(** The status line the client got, if any. *)
Definition status (w : ResponseWriter) : option nat :=
  fst <$> wroteHeader w.

(** The handler's header fields as they stood when the header was sent,
    if it was. *)
Definition sent_fields (w : ResponseWriter)
  : option (gmap string (list string)) :=
  snd <$> wroteHeader w.

(** *** The two loops over header maps *)

Lemma copy_fields_union (src dst : Header) : copy_fields src dst = src ∪ dst.
Proof.
  unfold copy_fields.
  apply (map_fold_weak_ind (fun r m => r = m ∪ dst)).
  - by rewrite (left_id_L ∅ (∪)).
  - intros k l m r _ ->. by rewrite insert_union_l.
Qed.

Lemma copy_fields_empty (src : Header) : copy_fields src ∅ = src.
Proof. by rewrite copy_fields_union, (right_id_L ∅ (∪)). Qed.

(** *** Allocation leaves the heap's slices alone *)

Lemma alloc_fresh vs (hp : Heap) : hp !! (alloc vs hp).1 = None.
Proof.
  unfold alloc. simpl. apply not_elem_of_dom. apply is_fresh.
Qed.

Lemma alloc_lookup vs (hp : Heap) :
  (alloc vs hp).2 !! (alloc vs hp).1 = Some vs.
Proof. unfold alloc. simpl. apply lookup_insert_eq. Qed.

Lemma alloc_preserves vs (hp : Heap) l ws :
  hp !! l = Some ws -> (alloc vs hp).2 !! l = Some ws.
Proof.
  intros Hl. unfold alloc. simpl. rewrite lookup_insert_ne; [done |].
  intros <-. pose proof (alloc_fresh vs hp) as Hf. unfold alloc in Hf.
  simpl in Hf. congruence.
Qed.

Definition heap_le (hp hp' : Heap) : Prop :=
  forall l vs, hp !! l = Some vs -> hp' !! l = Some vs.

Lemma heap_le_refl hp : heap_le hp hp.
Proof. by intros l vs. Qed.

Lemma heap_le_trans hp1 hp2 hp3 :
  heap_le hp1 hp2 -> heap_le hp2 hp3 -> heap_le hp1 hp3.
Proof. intros H1 H2 l vs Hl. by apply H2, H1. Qed.

Lemma Header_Set_spec key value (h : Header) (hp : Heap) :
  exists l,
    hp !! l = None /\
    Header_Set key value h hp = (<[key := l]> h, <[l := [value]]> hp).
Proof.
  exists (fresh (dom hp)). split; [| reflexivity].
  apply not_elem_of_dom, is_fresh.
Qed.

Lemma insert_heap_le (hp : Heap) l vs :
  hp !! l = None -> heap_le hp (<[l := vs]> hp).
Proof.
  intros Hl l' ws Hl'. rewrite lookup_insert_ne; [done | congruence].
Qed.

Lemma alloc_fields_heap_le kvs : forall hp, heap_le hp (alloc_fields kvs hp).2.
Proof.
  induction kvs as [|[k vs] kvs IH]; intros hp; simpl.
  - apply heap_le_refl.
  - specialize (IH hp). destruct (alloc_fields kvs hp) as [h hp1]. simpl in *.
    eapply heap_le_trans; [exact IH |]. intros l ws. apply alloc_preserves.
Qed.

Lemma Get_heap_le rp hp : heap_le hp (Get rp hp).2.
Proof.
  destruct rp as [|st fields body]; simpl; [apply heap_le_refl |].
  pose proof (alloc_fields_heap_le (map_to_list fields) hp) as H.
  by destruct (alloc_fields (map_to_list fields) hp).
Qed.

(** *** The writer *)

Lemma Write_written b w hp :
  written (Write b w hp).1 = written w ++ (if writeErr w then [] else b).
Proof.
  unfold Write, WriteHeader.
  destruct (wroteHeader w); simpl; destruct (writeErr w); simpl;
    by rewrite ?app_nil_r.
Qed.

Lemma Write_status b w hp :
  wroteHeader w = None -> status (Write b w hp).1 = Some StatusOK.
Proof.
  intros Hw. unfold status, Write, WriteHeader. rewrite Hw. simpl.
  by destruct (writeErr w).
Qed.

Lemma Write_sent b w hp :
  wroteHeader w = None ->
  sent_fields (Write b w hp).1 = Some (contents hp (header w)).
Proof.
  intros Hw. unfold sent_fields, Write, WriteHeader. rewrite Hw. simpl.
  by destruct (writeErr w).
Qed.

Lemma Write_header b w hp : header (Write b w hp).1 = header w.
Proof.
  unfold Write, WriteHeader.
  destruct (wroteHeader w); simpl; by destruct (writeErr w).
Qed.

Lemma Write_ok b w hp : (Write b w hp).2 = negb (writeErr w).
Proof.
  unfold Write, WriteHeader.
  destruct (wroteHeader w); simpl; by destruct (writeErr w).
Qed.

Lemma Error_status msg code w hp :
  wroteHeader w = None -> status (Error msg code w hp).1 = Some code.
Proof.
  intros Hw. unfold Error.
  destruct (Header_Set_spec "Content-Type" "text/plain; charset=utf-8"
              (header w) hp) as (l1 & _ & ->).
  destruct (Header_Set_spec "X-Content-Type-Options" "nosniff"
              (<["Content-Type" := l1]> (header w))
              (<[l1 := ["text/plain; charset=utf-8"]]> hp)) as (l2 & _ & ->).
  simpl. unfold status, Write, WriteHeader. simpl. rewrite Hw. simpl.
  by destruct (writeErr w).
Qed.

Lemma Error_heap_le msg code w hp : heap_le hp (Error msg code w hp).2.
Proof.
  unfold Error.
  destruct (Header_Set_spec "Content-Type" "text/plain; charset=utf-8"
              (header w) hp) as (l1 & H1 & ->).
  destruct (Header_Set_spec "X-Content-Type-Options" "nosniff"
              (<["Content-Type" := l1]> (header w))
              (<[l1 := ["text/plain; charset=utf-8"]]> hp)) as (l2 & H2 & ->).
  simpl. eapply heap_le_trans; by apply insert_heap_le.
Qed.

Lemma fail_cache msg code w c hp urls :
  cache (state (fail msg code w c hp urls)) = c.
Proof. unfold fail. by destruct (Error msg code w hp). Qed.

Lemma fail_fetched msg code w c hp urls :
  fetched (fail msg code w c hp urls) = urls.
Proof. unfold fail. by destruct (Error msg code w hp). Qed.

Lemma fail_status msg code w c hp urls :
  wroteHeader w = None ->
  status (writer (fail msg code w c hp urls)) = Some code.
Proof.
  intros Hw. pose proof (Error_status msg code w hp Hw) as H.
  unfold fail. by destruct (Error msg code w hp).
Qed.

Lemma fail_heap_le msg code w c hp urls :
  heap_le hp (heap (state (fail msg code w c hp urls))).
Proof.
  pose proof (Error_heap_le msg code w hp) as H.
  unfold fail. by destruct (Error msg code w hp).
Qed.

(** *** The paths through the handler *)

(** Lines 51-59: the key is in the cache. *)
Lemma HandleRequest_hit e w r origin s item :
  cache s !! (origin +:+ Path r) = Some item ->
  exists l,
    heap s !! l = None /\
    HandleRequest e w r origin s =
    {| writer :=
         (Write (Response item)
            (set_header (<["X-Cache" := l]> (Headers item ∪ header w)) w)
            (<[l := ["HIT"]]> (heap s))).1;
       state := {| cache := cache s; heap := <[l := ["HIT"]]> (heap s) |};
       fetched := [] |}.
Proof.
  intros Hc. unfold HandleRequest, lookup. rewrite Hc.
  destruct (Header_Set_spec "X-Cache" "HIT"
              (copy_fields (Headers item) (header w)) (heap s))
    as (l & Hl & ->).
  exists l. split; [done |]. by rewrite copy_fields_union.
Qed.

(** Lines 62-66: the fetch fails. *)
Lemma HandleRequest_unreachable e w r origin s :
  cache s !! (origin +:+ Path r) = None ->
  origin_reply e (origin +:+ Path r) = Unreachable ->
  HandleRequest e w r origin s =
  fail "Error fetching from origin" StatusBadGateway w (cache s) (heap s)
    [origin +:+ Path r].
Proof.
  intros Hc Hr. unfold HandleRequest, lookup. by rewrite Hc, Hr.
Qed.

(** Lines 69-74: the body does not decode. *)
Lemma HandleRequest_undecodable e w r origin s st fields body :
  cache s !! (origin +:+ Path r) = None ->
  origin_reply e (origin +:+ Path r) = Answer st fields body ->
  (forall v, Json.Decode body <> Json.DecodeOk v) ->
  exists hp,
    heap_le (heap s) hp /\
    HandleRequest e w r origin s =
    fail "Error decoding response from origin" StatusInternalServerError
      w (cache s) hp [origin +:+ Path r].
Proof.
  intros Hc Hr Hd. unfold HandleRequest, lookup. rewrite Hc, Hr.
  pose proof (Get_heap_le (Answer st fields body) (heap s)) as Hle.
  unfold Get in *. destruct (alloc_fields (map_to_list fields) (heap s))
    as [h hp]. simpl in *. exists hp. split; [done |].
  destruct (Json.Decode body) as [v| |]; [by destruct (Hd v) | done | done].
Qed.

(** Lines 76-101: the body decodes and the client takes the write. *)
Lemma HandleRequest_miss e w r origin s st fields body V :
  cache s !! (origin +:+ Path r) = None ->
  origin_reply e (origin +:+ Path r) = Answer st fields body ->
  Json.Decode body = Json.DecodeOk V ->
  writeErr w = false ->
  exists res hp l,
    Get (Answer st fields body) (heap s) = (Some res, hp) /\
    hp !! l = None /\
    HandleRequest e w r origin s =
    {| writer :=
         (Write (Json.encode V ++ [newline])
            (set_header (<["X-Cache" := l]> (header w)) w)
            (<[l := ["MISS"]]> hp)).1;
       state :=
         {| cache :=
              <[origin +:+ Path r :=
                  {| Response := Json.encode V; Headers := resHeader res;
                     CachedAt := now e |}]> (cache s);
            heap := <[l := ["MISS"]]> hp |};
       fetched := [origin +:+ Path r] |}.
Proof.
  intros Hc Hr Hd Hw. unfold HandleRequest, lookup. rewrite Hc, Hr.
  destruct (Get (Answer st fields body) (heap s)) as [ores hp] eqn:EG.
  assert (exists res, ores = Some res /\ Body res = body) as (res & -> & Hb).
  { unfold Get in EG. destruct (alloc_fields _ _). injection EG as <- _. eauto. }
  exists res, hp. rewrite Hb, Hd.
  destruct (Header_Set_spec "X-Cache" "MISS" (header w) hp) as (l & Hl & ->).
  exists l. do 2 (split; [done |]).
  unfold Encode, Json.Marshal.
  pose proof (Write_ok (Json.encode V ++ [newline])
                (set_header (<["X-Cache" := l]> (header w)) w)
                (<[l := ["MISS"]]> hp)) as Hok.
  simpl in Hok. rewrite Hw in Hok.
  destruct (Write _ _ _) as [w1 ok]. simpl in Hok. subst ok.
  unfold insert. by rewrite copy_fields_empty.
Qed.

(** Lines 77-80: the body decodes and the client refuses the write. *)
Lemma HandleRequest_write_fails e w r origin s st fields body V :
  cache s !! (origin +:+ Path r) = None ->
  origin_reply e (origin +:+ Path r) = Answer st fields body ->
  Json.Decode body = Json.DecodeOk V ->
  writeErr w = true ->
  cache (state (HandleRequest e w r origin s)) = cache s /\
  fetched (HandleRequest e w r origin s) = [origin +:+ Path r].
Proof.
  intros Hc Hr Hd Hw. unfold HandleRequest, lookup. rewrite Hc, Hr.
  destruct (Get (Answer st fields body) (heap s)) as [ores hp] eqn:EG.
  assert (exists res, ores = Some res /\ Body res = body) as (res & -> & Hb).
  { unfold Get in EG. destruct (alloc_fields _ _). injection EG as <- _. eauto. }
  rewrite Hb, Hd.
  destruct (Header_Set_spec "X-Cache" "MISS" (header w) hp) as (l & Hl & ->).
  unfold Encode, Json.Marshal.
  pose proof (Write_ok (Json.encode V ++ [newline])
                (set_header (<["X-Cache" := l]> (header w)) w)
                (<[l := ["MISS"]]> hp)) as Hok.
  simpl in Hok. rewrite Hw in Hok.
  destruct (Write _ _ _) as [w1 ok]. simpl in Hok. subst ok.
  by rewrite fail_cache, fail_fetched.
Qed.

(** *** What one invocation does to the cache *)

(** The handler leaves the cache as it is or adds an entry under the key
    of the request, and only when that key was absent. *)
Lemma HandleRequest_cache e w r origin s :
  cache (state (HandleRequest e w r origin s)) = cache s \/
  cache s !! (origin +:+ Path r) = None /\
  exists item,
    cache (state (HandleRequest e w r origin s))
    = <[origin +:+ Path r := item]> (cache s).
Proof.
  unfold HandleRequest, lookup.
  destruct (cache s !! (origin +:+ Path r)) as [item|] eqn:Hc.
  { left. by destruct (Header_Set _ _ _ _). }
  destruct (Get _ _) as [[res|] hp]; [| left; apply fail_cache].
  destruct (Json.Decode (Body res)); try (left; apply fail_cache).
  destruct (Header_Set _ _ _ _) as [h hp1].
  destruct (Encode _ _ _) as [w1 []]; [| left; apply fail_cache].
  destruct (Json.Marshal v); [| left; apply fail_cache].
  right. split; [done |]. eauto.
Qed.

(** An entry, once stored, is never replaced or removed by a later
    invocation. *)
Lemma entry_stable e w r origin s k item :
  cache s !! k = Some item ->
  cache (state (HandleRequest e w r origin s)) !! k = Some item.
Proof.
  intros Hk.
  destruct (HandleRequest_cache e w r origin s) as [-> | (Hn & it & ->)];
    [done |].
  rewrite lookup_insert_ne; [done | congruence].
Qed.

(** One call of the handler by the server. *)
Record call := {
  call_env : Env;
  call_writer : ResponseWriter;
  call_request : Request
}.

(** The package state after a sequence of invocations, one after the
    other. *)
Fixpoint run (origin : string) (calls : list call) (s : State) : State :=
  match calls with
  | [] => s
  | c :: cs =>
      run origin cs
        (state (HandleRequest (call_env c) (call_writer c) (call_request c)
                  origin s))
  end.

Lemma run_entry_stable origin calls :
  forall s k item, cache s !! k = Some item ->
                   cache (run origin calls s) !! k = Some item.
Proof.
  induction calls as [|c cs IH]; intros s k item Hk; simpl; [done |].
  by apply IH, entry_stable.
Qed.

(** The header field [X-Cache] of a writer, read through the heap. *)
Definition marker (o : Outcome) : option (list string) :=
  header (writer o) !! "X-Cache" ≫= fun l => heap (state o) !! l.

(** ** Cache hit *)

(** What a hit does, in full. *)
Lemma hit_outcome e w r origin s item :
  cache s !! (origin +:+ Path r) = Some item ->
  let o := HandleRequest e w r origin s in
  fetched o = [] /\
  cache (state o) = cache s /\
  (forall k, k <> "X-Cache" -> is_Some (Headers item !! k) ->
             header (writer o) !! k = Headers item !! k) /\
  marker o = Some ["HIT"] /\
  heap_le (heap s) (heap (state o)) /\
  written (writer o) = written w ++ (if writeErr w then [] else Response item) /\
  (wroteHeader w = None ->
   status (writer o) = Some StatusOK /\
   sent_fields (writer o)
   = Some (contents (heap (state o)) (header (writer o)))).
Proof.
  intros Hc o. subst o.
  destruct (HandleRequest_hit e w r origin s item Hc) as (l & Hl & ->).
  unfold marker. cbn [writer state fetched cache heap].
  split; [done |]. split; [done |].
  rewrite Write_header. cbn [set_header header].
  split.
  { intros k Hk [l' Hl']. rewrite lookup_insert_ne; [| done].
    rewrite Hl'. by apply lookup_union_Some_l. }
  split.
  { rewrite lookup_insert_eq. simpl. by rewrite lookup_insert_eq. }
  split; [by apply insert_heap_le |].
  split; [by rewrite Write_written |].
  intros Hw. split; [by apply Write_status | by apply Write_sent].
Qed.

(** C1. When the cache key (origin followed by the request path) is in
    the cache, the handler copies the stored header fields onto the
    response (the very slices the entry holds), sets [X-Cache] to [HIT],
    writes the stored body and nothing else, fetches nothing from the
    origin and leaves the cache, and every slice of the heap, as they
    were. On a writer that has sent no header yet, the client gets
    status 200 and the header fields as they stand after these
    assignments. *)
Theorem hit_serves_entry e w r origin s item :
  cache s !! (origin +:+ Path r) = Some item ->
  let o := HandleRequest e w r origin s in
  fetched o = [] /\
  cache (state o) = cache s /\
  (forall k, k <> "X-Cache" -> is_Some (Headers item !! k) ->
             header (writer o) !! k = Headers item !! k) /\
  marker o = Some ["HIT"] /\
  heap_le (heap s) (heap (state o)) /\
  written (writer o) = written w ++ (if writeErr w then [] else Response item) /\
  (wroteHeader w = None ->
   status (writer o) = Some StatusOK /\
   sent_fields (writer o)
   = Some (contents (heap (state o)) (header (writer o)))).
Proof. apply hit_outcome. Qed.

(** ** Origin unreachable *)

(** C4. When the key is absent and the fetch from the origin fails with a
    transport error, the client gets status 502 and the cache is what it
    was; the handler returns after the one failed fetch. *)
Theorem unreachable_bad_gateway e w r origin s :
  cache s !! (origin +:+ Path r) = None ->
  origin_reply e (origin +:+ Path r) = Unreachable ->
  wroteHeader w = None ->
  let o := HandleRequest e w r origin s in
  status (writer o) = Some StatusBadGateway /\
  cache (state o) = cache s /\
  fetched o = [origin +:+ Path r].
Proof.
  intros Hc Hr Hw o. subst o.
  rewrite (HandleRequest_unreachable e w r origin s Hc Hr).
  by rewrite fail_status, fail_cache, fail_fetched.
Qed.

(** ** The cache map *)

(** C7. Inserting a second entry under a key that holds a first one
    replaces it: the lookup of that key finds exactly the second entry,
    the map is the one a single insert of the second entry gives, and the
    lookup of every other key is what it was before the insert. *)
Theorem insert_replaces (c : gmap string CacheItem) key first second :
  lookup (insert key second (insert key first c)) key = (second, true) /\
  insert key second (insert key first c) = insert key second c /\
  (forall k, k <> key ->
             lookup (insert key second (insert key first c)) k
             = lookup (insert key first c) k).
Proof.
  unfold lookup, insert. split; [by rewrite lookup_insert_eq |].
  split; [apply insert_insert_eq |].
  intros k Hk. by rewrite (lookup_insert_ne _ key k).
Qed.

(** ** Cache miss *)

(** A request whose key is absent fetches from the origin exactly once,
    at the origin followed by the path. *)
Lemma miss_fetches_once e w r origin s :
  cache s !! (origin +:+ Path r) = None ->
  fetched (HandleRequest e w r origin s) = [origin +:+ Path r].
Proof.
  intros Hc. unfold HandleRequest, lookup. rewrite Hc.
  destruct (Get _ _) as [[res|] hp]; [| apply fail_fetched].
  destruct (Json.Decode (Body res)); try apply fail_fetched.
  destruct (Header_Set _ _ _ _) as [h hp1].
  destruct (Encode _ _ _) as [w1 []]; [| apply fail_fetched].
  destruct (Json.Marshal v); [done | apply fail_fetched].
Qed.

(** The handler reads the path of the request and nothing else of it. *)
Lemma query_string_unused e w r origin s q :
  HandleRequest e w {| Path := Path r; RawQuery := q |} origin s
  = HandleRequest e w r origin s.
Proof. reflexivity. Qed.

(** C2 as the claim words it: every request whose key is absent ends with
    one fetch, the marker [MISS] and an entry under the key. *)
Definition every_miss_caches (e : Env) (w : ResponseWriter) (r : Request)
  (origin : string) (s : State) : Prop :=
  cache s !! (origin +:+ Path r) = None ->
  let o := HandleRequest e w r origin s in
  fetched o = [origin +:+ Path r] /\
  marker o = Some ["MISS"] /\
  is_Some (cache (state o) !! (origin +:+ Path r)).

(** C2, amended. A request whose key is absent fetches from the origin
    exactly once, at the origin followed by the path, whatever the query
    string. When the origin answers, the body decodes and the client
    takes the write, the handler sets [X-Cache] to [MISS] (sent with the
    header when none was sent before), writes the encoding of the decoded
    value and a newline, and stores under the key an entry made of the
    encoding, the header fields of the origin's response and the current
    time. *)
Theorem miss_fetches_and_caches e w r origin s :
  cache s !! (origin +:+ Path r) = None ->
  let o := HandleRequest e w r origin s in
  fetched o = [origin +:+ Path r] /\
  (forall q, HandleRequest e w {| Path := Path r; RawQuery := q |} origin s = o) /\
  (forall st fields body V,
     origin_reply e (origin +:+ Path r) = Answer st fields body ->
     Json.Decode body = Json.DecodeOk V ->
     writeErr w = false ->
     marker o = Some ["MISS"] /\
     written (writer o) = written w ++ Json.encode V ++ [newline] /\
     (wroteHeader w = None ->
      sent_fields (writer o)
      = Some (contents (heap (state o)) (header (writer o)))) /\
     exists res hp,
       Get (Answer st fields body) (heap s) = (Some res, hp) /\
       cache (state o)
       = insert (origin +:+ Path r)
           {| Response := Json.encode V; Headers := resHeader res;
              CachedAt := now e |} (cache s)).
Proof.
  intros Hc o. split; [by apply miss_fetches_once |].
  split; [intros q; apply query_string_unused |].
  intros st fields body V Hr Hd Hw. subst o.
  destruct (HandleRequest_miss e w r origin s st fields body V Hc Hr Hd Hw)
    as (res & hp & l & HG & Hl & ->).
  unfold marker. cbn [writer state fetched cache heap].
  rewrite Write_header. cbn [set_header header]. rewrite lookup_insert_eq.
  simpl. rewrite lookup_insert_eq. split; [done |].
  rewrite Write_written. cbn [set_header writeErr written]. rewrite Hw.
  split; [done |]. split; [intros Hh; by apply Write_sent |].
  by exists res, hp.
Qed.

(** ** Undecodable body *)

(** The body's leading JSON value is missing or malformed, or is not an
    object. *)
Definition not_an_object (body : bytes) : Prop :=
  match Json.first_value body with
  | Some (Json.VObj _) => False
  | _ => True
  end.

(** C3 as the claim words it: every such body gets status 500 and leaves
    the cache unchanged. *)
Definition rejects_every_non_object (e : Env) (w : ResponseWriter)
  (r : Request) (origin : string) (s : State) : Prop :=
  forall st fields body,
    cache s !! (origin +:+ Path r) = None ->
    origin_reply e (origin +:+ Path r) = Answer st fields body ->
    not_an_object body ->
    let o := HandleRequest e w r origin s in
    status (writer o) = Some StatusInternalServerError /\
    cache (state o) = cache s.

(** The body's leading JSON value is missing or malformed, or is neither
    an object nor [null]. *)
Definition rejected (body : bytes) : Prop :=
  match Json.first_value body with
  | Some (Json.VObj _) | Some Json.VNull => False
  | _ => True
  end.

Lemma rejected_Decode body v : rejected body -> Json.Decode body <> Json.DecodeOk v.
Proof.
  unfold rejected, Json.Decode.
  by destruct (Json.first_value body) as [[]|].
Qed.

(** Once the header is sent, [http.Error] cannot change the status. *)
Lemma Error_status_sent msg code w hp st :
  status w = Some st -> status (Error msg code w hp).1 = Some st.
Proof.
  unfold status, Error. intros Hs.
  destruct (wroteHeader w) as [[st' f]|] eqn:Hw; [| done].
  simpl in Hs. injection Hs as ->.
  destruct (Header_Set_spec "Content-Type" "text/plain; charset=utf-8"
              (header w) hp) as (l1 & _ & ->).
  destruct (Header_Set_spec "X-Content-Type-Options" "nosniff"
              (<["Content-Type" := l1]> (header w))
              (<[l1 := ["text/plain; charset=utf-8"]]> hp)) as (l2 & _ & ->).
  unfold Write, WriteHeader, set_header. cbn. rewrite !Hw. cbn.
  destruct (writeErr w); cbn; by rewrite ?Hw.
Qed.

(** When the body decodes, the first write is the encoder's, with status
    200, whether or not the client takes it. *)
Lemma decoded_status e w r origin s st fields body V :
  cache s !! (origin +:+ Path r) = None ->
  origin_reply e (origin +:+ Path r) = Answer st fields body ->
  Json.Decode body = Json.DecodeOk V ->
  wroteHeader w = None ->
  status (writer (HandleRequest e w r origin s)) = Some StatusOK.
Proof.
  intros Hc Hr Hd Hh. unfold HandleRequest, lookup. rewrite Hc, Hr.
  destruct (Get (Answer st fields body) (heap s)) as [ores hp] eqn:EG.
  assert (exists res, ores = Some res /\ Body res = body) as (res & -> & Hb).
  { unfold Get in EG. destruct (alloc_fields _ _). injection EG as <- _. eauto. }
  rewrite Hb, Hd.
  destruct (Header_Set_spec "X-Cache" "MISS" (header w) hp) as (l & Hl & ->).
  unfold Encode, Json.Marshal.
  pose proof (Write_status (Json.encode V ++ [newline])
                (set_header (<["X-Cache" := l]> (header w)) w)
                (<[l := ["MISS"]]> hp) Hh) as Hst.
  destruct (Write _ _ _) as [w1 [|]]; simpl in Hst; [done |].
  unfold fail.
  pose proof (Error_status_sent "Error encoding response"
                StatusInternalServerError w1 (<[l := ["MISS"]]> hp) _ Hst).
  by destruct (Error _ _ _ _).
Qed.

(** C3, amended. When the leading JSON value of the origin's body is
    missing or malformed, or is neither an object nor [null], the client
    gets status 500, the cache is what it was, and the next request for
    the same path fetches from the origin again. When the leading value
    is [null], whatever follows it, the decoder leaves the map nil and
    reports no error: the client gets status 200 and, when it takes the
    write, the body [null] and a newline; the entry [null] is stored, and
    the next request for the path is a hit. *)
Theorem undecodable_internal_error e w r origin s st fields body :
  cache s !! (origin +:+ Path r) = None ->
  origin_reply e (origin +:+ Path r) = Answer st fields body ->
  wroteHeader w = None ->
  let o := HandleRequest e w r origin s in
  (rejected body ->
   status (writer o) = Some StatusInternalServerError /\
   cache (state o) = cache s /\
   lookup (cache (state o)) (origin +:+ Path r) = (zero, false) /\
   (forall e' w',
      fetched (HandleRequest e' w' r origin (state o))
      = [origin +:+ Path r])) /\
  (Json.first_value body = Some Json.VNull ->
   status (writer o) = Some StatusOK /\
   (writeErr w = false ->
    written (writer o) = written w ++ Json.lit_null ++ [newline] /\
    (exists item,
       lookup (cache (state o)) (origin +:+ Path r) = (item, true) /\
       Response item = Json.lit_null) /\
    (forall e' w',
       fetched (HandleRequest e' w' r origin (state o)) = []))).
Proof.
  intros Hc Hr Hw o. split.
  - intros Hb. subst o.
    destruct (HandleRequest_undecodable e w r origin s st fields body Hc Hr)
      as (hp & _ & ->).
    { intros v. by apply rejected_Decode. }
    rewrite fail_status, fail_cache; [| done].
    split; [done |]. split; [done |].
    split; [unfold lookup; by rewrite Hc |].
    intros e' w'. apply miss_fetches_once. by rewrite fail_cache.
  - intros Hnull.
    assert (Hd : Json.Decode body = Json.DecodeOk Json.VNull)
      by (unfold Json.Decode; by rewrite Hnull).
    split; [by apply (decoded_status e w r origin s st fields body Json.VNull) |].
    intros Hok. subst o.
    destruct (HandleRequest_miss e w r origin s st fields body Json.VNull
                Hc Hr Hd Hok) as (res & hp & l & HG & Hl & ->).
    cbn [writer state cache]. rewrite Write_written.
    cbn [set_header written writeErr]. rewrite Hok.
    split; [done |]. split.
    + eexists. unfold lookup, insert. rewrite lookup_insert_eq.
      split; [reflexivity | reflexivity].
    + intros e' w'.
      by destruct (hit_outcome e' w' r origin
                     {| cache := insert (origin +:+ Path r)
                                   {| Response := Json.encode Json.VNull;
                                      Headers := resHeader res;
                                      CachedAt := now e |} (cache s);
                        heap := <[l := ["MISS"]]> hp |}
                     _ (lookup_insert_eq _ _ _)) as (Hf & _).
Qed.

(** ** Decode, encode, store, serve *)

(** A hit for a key that was stored, after any number of invocations in
    between. *)
Lemma later_hit origin calls s r item e' w' :
  cache s !! (origin +:+ Path r) = Some item ->
  let o' := HandleRequest e' w' r origin (run origin calls s) in
  fetched o' = [] /\
  written (writer o') = written w' ++ (if writeErr w' then [] else Response item) /\
  (wroteHeader w' = None -> status (writer o') = Some StatusOK).
Proof.
  intros Hc o'.
  pose proof (run_entry_stable origin calls s _ item Hc) as Hrun.
  destruct (hit_outcome e' w' r origin _ item Hrun)
    as (Hf & _ & _ & _ & _ & Hb & Hs).
  split; [done |]. split; [done |]. intros Hw. by apply Hs.
Qed.

Lemma decoded_roundtrip body V rest :
  Json.Decode body = Json.DecodeOk V -> Json.delimited rest ->
  Json.Decode (Json.encode V ++ rest) = Json.DecodeOk V.
Proof.
  intros Hd Hrest. apply Json.Decode_encode; [| | done].
  - by apply Json.Decode_wf in Hd.
  - by apply Json.Decode_ok_inv in Hd as [_ ?].
Qed.

Lemma decoded_roundtrip_bare body V :
  Json.Decode body = Json.DecodeOk V ->
  Json.Decode (Json.encode V) = Json.DecodeOk V.
Proof.
  intros Hd. rewrite <- (app_nil_r (Json.encode V)).
  by apply (decoded_roundtrip body).
Qed.

(** C6, amended. When the origin's body decodes to a value [V] (an
    object, or the nil map of a [null] body) and the client takes the
    write, the body written on the miss decodes to [V] again, and so does
    the body of the entry the request stores. With requests handled one
    after the other the entry is never replaced: on every later request
    for the path, whatever requests come in between, the handler fetches
    nothing and hands that stored body to the response writer as it is
    (a writer that refuses the write gets nothing). *)
Theorem served_bodies_decode_to_value e w r origin s st fields body V :
  cache s !! (origin +:+ Path r) = None ->
  origin_reply e (origin +:+ Path r) = Answer st fields body ->
  Json.Decode body = Json.DecodeOk V ->
  writeErr w = false ->
  written w = [] ->
  let o := HandleRequest e w r origin s in
  Json.Decode (written (writer o)) = Json.DecodeOk V /\
  exists item,
    cache (state o) !! (origin +:+ Path r) = Some item /\
    Json.Decode (Response item) = Json.DecodeOk V /\
    forall calls e' w',
      let o' := HandleRequest e' w' r origin (run origin calls (state o)) in
      fetched o' = [] /\
      written (writer o')
      = written w' ++ (if writeErr w' then [] else Response item).
Proof.
  intros Hc Hr Hd Hw Hnil o. subst o.
  destruct (HandleRequest_miss e w r origin s st fields body V Hc Hr Hd Hw)
    as (res & hp & l & HG & Hl & ->).
  cbn [writer state cache]. rewrite Write_written.
  cbn [set_header written writeErr]. rewrite Hw, Hnil. cbn [app].
  split; [by apply (decoded_roundtrip body) |].
  eexists. split; [apply lookup_insert_eq |]. cbn [Response].
  split; [by apply (decoded_roundtrip_bare body) |].
  intros calls e' w'. cbv zeta.
  destruct (later_hit origin calls
              {| cache := <[origin +:+ Path r :=
                              {| Response := Json.encode V;
                                 Headers := resHeader res;
                                 CachedAt := now e |}]> (cache s);
                 heap := <[l := ["MISS"]]> hp |}
              r _ e' w' (lookup_insert_eq _ _ _)) as (Hf & Hb & _).
  by split.
Qed.

(** C10, amended. When the origin's body decodes to [V] and the client
    takes the write, the body written on the miss is the encoding of
    [V] followed by a newline, and the body stored is the encoding
    alone; the two differ as byte sequences and both decode to [V]. With
    requests handled one after the other, the bytes the handler hands to
    the response writer on every later request for the path are the
    stored encoding (a writer that refuses the write gets nothing). *)
Theorem miss_body_has_newline e w r origin s st fields body V :
  cache s !! (origin +:+ Path r) = None ->
  origin_reply e (origin +:+ Path r) = Answer st fields body ->
  Json.Decode body = Json.DecodeOk V ->
  writeErr w = false ->
  written w = [] ->
  let o := HandleRequest e w r origin s in
  written (writer o) = Json.encode V ++ [newline] /\
  (exists item, cache (state o) !! (origin +:+ Path r) = Some item /\
                Response item = Json.encode V) /\
  (forall calls e' w',
     written (writer (HandleRequest e' w' r origin
                        (run origin calls (state o))))
     = written w' ++ (if writeErr w' then [] else Json.encode V)) /\
  Json.encode V ++ [newline] <> Json.encode V /\
  Json.Decode (Json.encode V ++ [newline]) = Json.DecodeOk V /\
  Json.Decode (Json.encode V) = Json.DecodeOk V.
Proof.
  intros Hc Hr Hd Hw Hnil o. subst o.
  destruct (HandleRequest_miss e w r origin s st fields body V Hc Hr Hd Hw)
    as (res & hp & l & HG & Hl & ->).
  cbn [writer state cache]. rewrite Write_written.
  cbn [set_header written writeErr]. rewrite Hw, Hnil. cbn [app].
  split; [done |]. split.
  { eexists. split; [apply lookup_insert_eq | done]. }
  split.
  { intros calls e' w'.
    by destruct (later_hit origin calls
                   {| cache := <[origin +:+ Path r :=
                                   {| Response := Json.encode V;
                                      Headers := resHeader res;
                                      CachedAt := now e |}]> (cache s);
                      heap := <[l := ["MISS"]]> hp |}
                   r _ e' w' (lookup_insert_eq _ _ _)) as (_ & Hb & _). }
  split.
  { intros Heq. apply (f_equal length) in Heq.
    rewrite length_app in Heq. simpl in Heq. lia. }
  split; [by apply (decoded_roundtrip body) |].
  by apply (decoded_roundtrip_bare body).
Qed.

(** ** The origin's status code *)

(** C9. The status code of the origin's response is not read: when the
    body decodes, the client gets status 200 whatever that code was, the
    outcome of the invocation is the same for any other code, the
    response is stored when the client takes the write, and every later
    hit for the path gets status 200 as well. The writers are those the
    server hands to a handler: no header sent yet. *)
Theorem origin_status_ignored e w r origin s st fields body V :
  cache s !! (origin +:+ Path r) = None ->
  origin_reply e (origin +:+ Path r) = Answer st fields body ->
  Json.Decode body = Json.DecodeOk V ->
  wroteHeader w = None ->
  let o := HandleRequest e w r origin s in
  status (writer o) = Some StatusOK /\
  (forall e2 st2,
     origin_reply e2 (origin +:+ Path r) = Answer st2 fields body ->
     now e2 = now e ->
     HandleRequest e2 w r origin s = o) /\
  (writeErr w = false ->
   (exists item, cache (state o) !! (origin +:+ Path r) = Some item /\
                 Response item = Json.encode V) /\
   (forall calls e' w',
      wroteHeader w' = None ->
      let o' := HandleRequest e' w' r origin (run origin calls (state o)) in
      fetched o' = [] /\ status (writer o') = Some StatusOK)).
Proof.
  intros Hc Hr Hd Hh o.
  split; [by apply (decoded_status e w r origin s st fields body V) |].
  split.
  { intros e2 st2 Hr2 Hnow. subst o. unfold HandleRequest, lookup.
    rewrite Hc, Hr, Hr2, Hnow. unfold Get.
    by destruct (alloc_fields (map_to_list fields) (heap s)). }
  intros Hw. subst o.
  destruct (HandleRequest_miss e w r origin s st fields body V Hc Hr Hd Hw)
    as (res & hp & l & HG & Hl & ->).
  cbn [state cache]. split.
  { eexists. split; [apply lookup_insert_eq | done]. }
  intros calls e' w' Hh'. cbv zeta.
  destruct (later_hit origin calls
              {| cache := <[origin +:+ Path r :=
                              {| Response := Json.encode V;
                                 Headers := resHeader res;
                                 CachedAt := now e |}]> (cache s);
                 heap := <[l := ["MISS"]]> hp |}
              r _ e' w' (lookup_insert_eq _ _ _)) as (Hf & _ & Hs).
  split; [done | by apply Hs].
Qed.

(** ** Header slices shared with the cache entry *)

(** What Go code that holds a header map can do to it. A store to an
    absent field or beyond the slice's length panics ([None]). *)
Inductive mutation :=
| Assign (k : string) (vs : list string)
| Append (k : string) (v : string)
| Delete (k : string)
| Store (k : string) (i : nat) (v : string).

Definition mutate (m : mutation) (h : Header) (hp : Heap)
  : option (Header * Heap) :=
  match m with
  | Assign k vs =>
      (* h[k] = []string{...}, h.Set(k, v) *)
      let '(l, hp') := alloc vs hp in Some (<[k := l]> h, hp')
  | Append k v =>
      (* h.Add(k, v): h[k] = append(h[k], v); the elements below the
         old length stay where they are for every other holder *)
      let old := default [] (h !! k ≫= fun l => hp !! l) in
      let '(l, hp') := alloc (old ++ [v]) hp in Some (<[k := l]> h, hp')
  | Delete k =>
      (* delete(h, k), h.Del(k) *)
      Some (delete k h, hp)
  | Store k i v =>
      (* h[k][i] = v *)
      match h !! k with
      | Some l =>
          match hp !! l with
          | Some vs =>
              if decide (i < length vs)%nat
              then Some (h, <[l := <[i := v]> vs]> hp)
              else None
          | None => None
          end
      | None => None
      end
  end.

(** The header fields a lookup of [key] observes. *)
Definition observed (s : State) (key : string) : gmap string (list string) :=
  contents (heap s) (Headers (lookup (cache s) key).1).

(** Every slice of the header map is allocated. *)
Definition closed (hp : Heap) (h : Header) : Prop :=
  forall k l, h !! k = Some l -> is_Some (hp !! l).

Lemma contents_heap_le hp hp' h :
  closed hp h -> heap_le hp hp' -> contents hp' h = contents hp h.
Proof.
  intros Hcl Hle. apply map_eq. intros k. unfold contents.
  rewrite !lookup_omap. destruct (h !! k) as [l|] eqn:Hk; [| done]. simpl.
  destruct (Hcl k l Hk) as [vs Hvs]. by rewrite Hvs, (Hle l vs Hvs).
Qed.

(** Updates of the map itself (assigning, appending to or deleting a
    field) on any header map leave what a lookup observes as it was. *)
Lemma map_updates_isolated s key m (h h' : Header) hp' :
  closed (heap s) (Headers (lookup (cache s) key).1) ->
  (forall k i v, m <> Store k i v) ->
  mutate m h (heap s) = Some (h', hp') ->
  observed {| cache := cache s; heap := hp' |} key = observed s key.
Proof.
  intros Hcl Hm Hmut. unfold observed. cbn [cache heap].
  apply contents_heap_le; [done |].
  destruct m as [k vs|k v|k|k i v]; simpl in Hmut.
  - injection Hmut as _ <-. intros l ws. apply alloc_preserves.
  - injection Hmut as _ <-. intros l ws. apply alloc_preserves.
  - injection Hmut as _ <-. apply heap_le_refl.
  - by destruct (Hm k i v).
Qed.

End Handler.
End Proxy.

(** ** Concurrent invocations under cacheMutex *)

Module Conc.
Import Http Proxy.
Local Close Scope char_scope.

(** Where one invocation of [HandleRequest] stands. The steps between
    two lock operations touch nothing shared and are taken as one. *)
Inductive pc :=
| AtRLock                                (* line 47, before RLock *)
| AtRead                                 (* line 48, read lock held *)
| AtRUnlock (found : option CacheItem)   (* line 49, read lock held *)
| AtHit (item : CacheItem)               (* lines 51-58 *)
| AtFetch                                (* lines 62-80 *)
| AtLock                                 (* line 83, before Lock *)
| AtMarshal                              (* lines 84-95, write lock held *)
| AtStore (item : CacheItem) (n : nat)   (* lines 97-101, n fields stored *)
| AtUnlock (stored : option CacheItem)   (* lines 87 and 102, write lock held *)
| Done (seen stored : option CacheItem).

Record thread := {
  tkey : string;   (* originURL *)
  tpc : pc
}.

(** The shared memory: the map as the machine holds it ([mem]), where
    the struct assigned at line 97 arrives one field after the other;
    the map with every completed assignment applied as a whole ([log]);
    and [cacheMutex], as the set of invocations holding it for reading
    and the one holding it for writing. *)
Record config := {
  threads : list thread;
  mem : gmap string CacheItem;
  log : gmap string CacheItem;
  readers : gset nat;
  writer : option nat
}.

(** The [n]-th word of the struct copied over the slot. *)
Definition field_write (n : nat) (item old : CacheItem) : CacheItem :=
  match n with
  | 0 => {| Response := Response item; Headers := Headers old;
            CachedAt := CachedAt old |}
  | 1 => {| Response := Response old; Headers := Headers item;
            CachedAt := CachedAt old |}
  | _ => {| Response := Response old; Headers := Headers old;
            CachedAt := CachedAt item |}
  end.

Definition slot (m : gmap string CacheItem) (k : string) : CacheItem :=
  default zero (m !! k).

Definition set_pc (i : nat) (k : string) (p : pc) (c : config) : list thread :=
  <[i := {| tkey := k; tpc := p |}]> (threads c).

(** One step of invocation [i]. [o] is what the step meets outside the
    shared memory: at [AtFetch], whether lines 62-80 get through; at
    [AtMarshal], the entry built at lines 84-100, or none when
    [json.Marshal] fails. A step that must wait is [None]. *)
Definition exec (i : nat) (o : option CacheItem) (c : config) : option config :=
  match threads c !! i with
  | None => None
  | Some t =>
      let k := tkey t in
      match tpc t with
      | AtRLock =>
          match writer c with
          | None =>
              Some {| threads := set_pc i k AtRead c; mem := mem c;
                      log := log c; readers := {[i]} ∪ readers c;
                      writer := writer c |}
          | Some _ => None
          end
      | AtRead =>
          Some {| threads := set_pc i k (AtRUnlock (mem c !! k)) c;
                  mem := mem c; log := log c; readers := readers c;
                  writer := writer c |}
      | AtRUnlock found =>
          Some {| threads :=
                    set_pc i k (match found with
                                | Some item => AtHit item
                                | None => AtFetch
                                end) c;
                  mem := mem c; log := log c; readers := readers c ∖ {[i]};
                  writer := writer c |}
      | AtHit item =>
          Some {| threads := set_pc i k (Done (Some item) None) c;
                  mem := mem c; log := log c; readers := readers c;
                  writer := writer c |}
      | AtFetch =>
          Some {| threads :=
                    set_pc i k (match o with
                                | Some _ => AtLock
                                | None => Done None None
                                end) c;
                  mem := mem c; log := log c; readers := readers c;
                  writer := writer c |}
      | AtLock =>
          match writer c with
          | None =>
              if decide (readers c = ∅) then
                Some {| threads := set_pc i k AtMarshal c; mem := mem c;
                        log := log c; readers := readers c;
                        writer := Some i |}
              else None
          | Some _ => None
          end
      | AtMarshal =>
          Some {| threads :=
                    set_pc i k (match o with
                                | Some item => AtStore item 0
                                | None => AtUnlock None
                                end) c;
                  mem := mem c; log := log c; readers := readers c;
                  writer := writer c |}
      | AtStore item n =>
          let m' := <[k := field_write n item (slot (mem c) k)]> (mem c) in
          if decide (n < 2)%nat then
            Some {| threads := set_pc i k (AtStore item (S n)) c; mem := m';
                    log := log c; readers := readers c; writer := writer c |}
          else
            Some {| threads := set_pc i k (AtUnlock (Some item)) c; mem := m';
                    log := <[k := item]> (log c); readers := readers c;
                    writer := writer c |}
      | AtUnlock stored =>
          Some {| threads := set_pc i k (Done None stored) c; mem := mem c;
                  log := log c; readers := readers c; writer := None |}
      | Done _ _ => None
      end
  end.

(** A schedule: which invocation steps next, and what it meets. *)
Fixpoint steps (sched : list (nat * option CacheItem)) (c : config)
  : option config :=
  match sched with
  | [] => Some c
  | (i, o) :: rest =>
      match exec i o c with
      | Some c' => steps rest c'
      | None => None
      end
  end.

(** The server has accepted one request per key of [keys]; no handler
    has run yet. *)
Definition start (keys : list string) (cache0 : gmap string CacheItem) : config :=
  {| threads := map (fun k => {| tkey := k; tpc := AtRLock |}) keys;
     mem := cache0; log := cache0; readers := ∅; writer := None |}.

(** The steps by which invocation [i] stores [item]: Lock, lines 84-95,
    the three fields, Unlock. *)
Definition store_by (i : nat) (item : CacheItem) : list (nat * option CacheItem) :=
  [(i, None); (i, Some item); (i, None); (i, None); (i, None); (i, None)].

(** The steps of one invocation running alone: RLock, the lookup,
    RUnlock; then the hit, or the fetch and, when it gets through, the
    store. *)
Definition alone (hit : bool) (o : option CacheItem)
  : list (nat * option CacheItem) :=
  [(0, None); (0, None); (0, None)]%nat ++
  (if hit then [(0, None)]%nat
   else match o with
        | None => [(0, None)]%nat
        | Some item => (0, Some item)%nat :: store_by 0 item
        end).

Definition reading (p : pc) : bool :=
  match p with
  | AtRead | AtRUnlock _ => true
  | _ => false
  end.

Definition writing (p : pc) : bool :=
  match p with
  | AtMarshal | AtStore _ _ | AtUnlock _ => true
  | _ => false
  end.

Definition finished (t : thread) : Prop :=
  match tpc t with
  | Done _ _ => True
  | _ => False
  end.

(** The entry an invocation has stored as a whole. *)
Definition stored_by (p : pc) : option CacheItem :=
  match p with
  | AtUnlock stored | Done _ stored => stored
  | _ => None
  end.

(** The slot under [k] after the first [n] fields of [item] went in. *)
Fixpoint partial (n : nat) (item old : CacheItem) : CacheItem :=
  match n with
  | 0 => old
  | S m => field_write m item (partial m item old)
  end.

(** What the memory holds while the writer stands at [p]. *)
Definition view (k : string) (p : pc) (l : gmap string CacheItem)
  : gmap string CacheItem :=
  match p with
  | AtStore item (S m) => <[k := partial (S m) item (slot l k)]> l
  | _ => l
  end.

(** *** The invariant of the lock protocol *)

Record Inv (cache0 : gmap string CacheItem) (c : config) : Prop := {
  (* the read lock is held exactly by the invocations at lines 48-49 *)
  inv_readers : forall i t, threads c !! i = Some t ->
                            (reading (tpc t) = true <-> i ∈ readers c);
  (* the write lock is held exactly by the invocation at lines 84-102 *)
  inv_writer : forall i t, threads c !! i = Some t ->
                           (writing (tpc t) = true <-> writer c = Some i);
  (* a writer excludes every reader *)
  inv_excl : forall i, writer c = Some i -> readers c = ∅;
  (* at most the slot the writer is storing into differs from the log *)
  inv_mem : mem c = match writer c with
                    | None => log c
                    | Some i =>
                        match threads c !! i with
                        | Some t => view (tkey t) (tpc t) (log c)
                        | None => log c
                        end
                    end;
  inv_bound : forall i t item n, threads c !! i = Some t ->
                                 tpc t = AtStore item n -> (n <= 2)%nat;
  (* every entry of the log was there at the start or was stored, as a
     whole, by an invocation for its key *)
  inv_log : forall k item, log c !! k = Some item ->
                           cache0 !! k = Some item \/
                           exists i t, threads c !! i = Some t /\ tkey t = k /\
                                       stored_by (tpc t) = Some item;
  (* the holders of the lock are invocations *)
  inv_holder : forall i, writer c = Some i -> is_Some (threads c !! i);
  inv_reader_id : forall i, i ∈ readers c -> is_Some (threads c !! i)
}.

Lemma start_Inv keys cache0 : Inv cache0 (start keys cache0).
Proof.
  split; simpl.
  - intros i t Ht. apply list_lookup_fmap_Some in Ht as (k & -> & _).
    simpl. set_solver.
  - intros i t Ht. apply list_lookup_fmap_Some in Ht as (k & -> & _).
    simpl. split; discriminate.
  - discriminate.
  - reflexivity.
  - intros i t item n Ht. apply list_lookup_fmap_Some in Ht as (k & -> & _).
    discriminate.
  - auto.
  - discriminate.
  - set_solver.
Qed.

Lemma set_pc_lookup i k p c j t t' :
  threads c !! i = Some t ->
  set_pc i k p c !! j = Some t' ->
  (j = i /\ t' = {| tkey := k; tpc := p |}) \/ (j <> i /\ threads c !! j = Some t').
Proof.
  intros Hi Hj. unfold set_pc in Hj.
  apply list_lookup_insert_Some in Hj as [(-> & <- & _) | [Hne Hj]]; auto.
Qed.

Lemma set_pc_lookup_eq i k p c t :
  threads c !! i = Some t ->
  set_pc i k p c !! i = Some {| tkey := k; tpc := p |}.
Proof.
  intros Hi. unfold set_pc. apply list_lookup_insert_eq.
  by apply lookup_lt_Some in Hi.
Qed.

Lemma set_pc_lookup_ne i k p c j :
  j <> i -> set_pc i k p c !! j = threads c !! j.
Proof. intros Hne. unfold set_pc. by apply list_lookup_insert_ne. Qed.

Lemma set_pc_is_Some i k p c j :
  is_Some (threads c !! j) -> is_Some (set_pc i k p c !! j).
Proof.
  intros [t Ht]. unfold set_pc. apply lookup_lt_is_Some.
  rewrite length_insert. by apply lookup_lt_Some in Ht.
Qed.

Lemma partial_whole item old : partial 3 item old = item.
Proof. by destruct item. Qed.

Lemma slot_insert (m : gmap string CacheItem) k item :
  slot (<[k := item]> m) k = item.
Proof. unfold slot. by rewrite lookup_insert_eq. Qed.

(** An invocation moves on without touching the lock or the memory. *)
Lemma local_step_Inv cache0 c i t p' :
  Inv cache0 c -> threads c !! i = Some t ->
  reading p' = reading (tpc t) ->
  writing p' = writing (tpc t) ->
  (forall l, view (tkey t) p' l = view (tkey t) (tpc t) l) ->
  (forall item n, p' = AtStore item n -> (n <= 2)%nat) ->
  (forall item, stored_by (tpc t) = Some item -> stored_by p' = Some item) ->
  Inv cache0 {| threads := set_pc i (tkey t) p' c; mem := mem c;
                log := log c; readers := readers c; writer := writer c |}.
Proof.
  intros [Hrd Hwr Hex Hmem Hbd Hlog Hho Hri] Hi Hr Hw Hv Hb Hs. split; simpl.
  - intros j tj Hj.
    apply (set_pc_lookup _ _ _ _ _ _ _ Hi) in Hj as [[-> ->] | [Hne Hj]];
      simpl; [rewrite Hr |]; eauto.
  - intros j tj Hj.
    apply (set_pc_lookup _ _ _ _ _ _ _ Hi) in Hj as [[-> ->] | [Hne Hj]];
      simpl; [rewrite Hw |]; eauto.
  - done.
  - rewrite Hmem. destruct (writer c) as [j|]; [| done].
    destruct (decide (j = i)) as [-> | Hne].
    + rewrite (set_pc_lookup_eq _ _ _ _ _ Hi), Hi. simpl. by rewrite Hv.
    + by rewrite set_pc_lookup_ne.
  - intros j tj item n Hj.
    apply (set_pc_lookup _ _ _ _ _ _ _ Hi) in Hj as [[-> ->] | [Hne Hj]];
      simpl; eauto.
  - intros k item Hk. destruct (Hlog k item Hk) as [? | (j & tj & Hj & Hkj & Hst)];
      [by left | right].
    destruct (decide (j = i)) as [-> | Hne].
    + exists i, {| tkey := tkey t; tpc := p' |}.
      rewrite (set_pc_lookup_eq _ _ _ _ _ Hi). rewrite Hi in Hj.
      injection Hj as <-. simpl. eauto.
    + exists j, tj. by rewrite set_pc_lookup_ne.
  - intros j Hj. by apply set_pc_is_Some, Hho.
  - intros j Hj. by apply set_pc_is_Some, Hri.
Qed.

(** Line 47. *)
Lemma rlock_Inv cache0 c i t :
  Inv cache0 c -> threads c !! i = Some t -> tpc t = AtRLock ->
  writer c = None ->
  Inv cache0 {| threads := set_pc i (tkey t) AtRead c; mem := mem c;
                log := log c; readers := {[i]} ∪ readers c;
                writer := writer c |}.
Proof.
  intros [Hrd Hwr Hex Hmem Hbd Hlog Hho Hri] Hi Hp Hnw. split; simpl.
  - intros j tj Hj.
    apply (set_pc_lookup _ _ _ _ _ _ _ Hi) in Hj as [[-> ->] | [Hne Hj]];
      simpl; [set_solver |].
    rewrite (Hrd j tj Hj). set_solver.
  - intros j tj Hj. rewrite Hnw.
    apply (set_pc_lookup _ _ _ _ _ _ _ Hi) in Hj as [[-> ->] | [Hne Hj]];
      simpl; [done |].
    rewrite (Hwr j tj Hj), Hnw. done.
  - rewrite Hnw. discriminate.
  - by rewrite Hmem, Hnw.
  - intros j tj item n Hj.
    apply (set_pc_lookup _ _ _ _ _ _ _ Hi) in Hj as [[-> ->] | [Hne Hj]];
      simpl; [discriminate | eauto].
  - intros k item Hk. destruct (Hlog k item Hk) as [? | (j & tj & Hj & Hkj & Hst)];
      [by left | right].
    destruct (decide (j = i)) as [-> | Hne].
    + rewrite Hi in Hj. injection Hj as <-. rewrite Hp in Hst. discriminate.
    + exists j, tj. by rewrite set_pc_lookup_ne.
  - rewrite Hnw. discriminate.
  - intros j Hj. apply elem_of_union in Hj as [Hj | Hj].
    + apply elem_of_singleton in Hj as ->.
      by rewrite (set_pc_lookup_eq _ _ _ _ _ Hi).
    + by apply set_pc_is_Some, Hri.
Qed.

(** Line 49. *)
Lemma runlock_Inv cache0 c i t found :
  Inv cache0 c -> threads c !! i = Some t -> tpc t = AtRUnlock found ->
  Inv cache0 {| threads :=
                  set_pc i (tkey t) (match found with
                                     | Some item => AtHit item
                                     | None => AtFetch
                                     end) c;
                mem := mem c; log := log c; readers := readers c ∖ {[i]};
                writer := writer c |}.
Proof.
  intros [Hrd Hwr Hex Hmem Hbd Hlog Hho Hri] Hi Hp.
  assert (Hin : i ∈ readers c) by (apply (Hrd i t Hi); by rewrite Hp).
  assert (Hnw : writer c = None).
  { destruct (writer c) as [j|] eqn:E; [| done].
    rewrite (Hex j eq_refl) in Hin. set_solver. }
  split; simpl.
  - intros j tj Hj.
    apply (set_pc_lookup _ _ _ _ _ _ _ Hi) in Hj as [[-> ->] | [Hne Hj]];
      simpl; [destruct found; set_solver |].
    rewrite (Hrd j tj Hj). set_solver.
  - intros j tj Hj. rewrite Hnw.
    apply (set_pc_lookup _ _ _ _ _ _ _ Hi) in Hj as [[-> ->] | [Hne Hj]];
      simpl; [by destruct found |].
    rewrite (Hwr j tj Hj), Hnw. done.
  - rewrite Hnw. discriminate.
  - by rewrite Hmem, Hnw.
  - intros j tj item n Hj.
    apply (set_pc_lookup _ _ _ _ _ _ _ Hi) in Hj as [[-> ->] | [Hne Hj]];
      simpl; [by destruct found | eauto].
  - intros k item Hk. destruct (Hlog k item Hk) as [? | (j & tj & Hj & Hkj & Hst)];
      [by left | right].
    destruct (decide (j = i)) as [-> | Hne].
    + rewrite Hi in Hj. injection Hj as <-. rewrite Hp in Hst. discriminate.
    + exists j, tj. by rewrite set_pc_lookup_ne.
  - rewrite Hnw. discriminate.
  - intros j Hj. apply set_pc_is_Some, Hri. set_solver.
Qed.

(** Line 83. *)
Lemma lock_Inv cache0 c i t :
  Inv cache0 c -> threads c !! i = Some t -> tpc t = AtLock ->
  writer c = None -> readers c = ∅ ->
  Inv cache0 {| threads := set_pc i (tkey t) AtMarshal c; mem := mem c;
                log := log c; readers := readers c; writer := Some i |}.
Proof.
  intros [Hrd Hwr Hex Hmem Hbd Hlog Hho Hri] Hi Hp Hnw Hnr. split; simpl.
  - intros j tj Hj. rewrite Hnr.
    apply (set_pc_lookup _ _ _ _ _ _ _ Hi) in Hj as [[-> ->] | [Hne Hj]];
      simpl; [set_solver |].
    rewrite (Hrd j tj Hj), Hnr. done.
  - intros j tj Hj.
    apply (set_pc_lookup _ _ _ _ _ _ _ Hi) in Hj as [[-> ->] | [Hne Hj]];
      simpl; [done |].
    rewrite (Hwr j tj Hj), Hnw. split; [done | congruence].
  - done.
  - rewrite (set_pc_lookup_eq _ _ _ _ _ Hi). simpl. by rewrite Hmem, Hnw.
  - intros j tj item n Hj.
    apply (set_pc_lookup _ _ _ _ _ _ _ Hi) in Hj as [[-> ->] | [Hne Hj]];
      simpl; [discriminate | eauto].
  - intros k item Hk. destruct (Hlog k item Hk) as [? | (j & tj & Hj & Hkj & Hst)];
      [by left | right].
    destruct (decide (j = i)) as [-> | Hne].
    + rewrite Hi in Hj. injection Hj as <-. rewrite Hp in Hst. discriminate.
    + exists j, tj. by rewrite set_pc_lookup_ne.
  - intros j [= <-]. by rewrite (set_pc_lookup_eq _ _ _ _ _ Hi).
  - intros j Hj. by apply set_pc_is_Some, Hri.
Qed.

(** Lines 87 and 102. *)
Lemma unlock_Inv cache0 c i t stored :
  Inv cache0 c -> threads c !! i = Some t -> tpc t = AtUnlock stored ->
  Inv cache0 {| threads := set_pc i (tkey t) (Done None stored) c;
                mem := mem c; log := log c; readers := readers c;
                writer := None |}.
Proof.
  intros [Hrd Hwr Hex Hmem Hbd Hlog Hho Hri] Hi Hp.
  assert (Hw : writer c = Some i) by (apply (Hwr i t Hi); by rewrite Hp).
  split; simpl.
  - intros j tj Hj.
    apply (set_pc_lookup _ _ _ _ _ _ _ Hi) in Hj as [[-> ->] | [Hne Hj]];
      simpl; [| eauto].
    rewrite (Hex i Hw). set_solver.
  - intros j tj Hj.
    apply (set_pc_lookup _ _ _ _ _ _ _ Hi) in Hj as [[-> ->] | [Hne Hj]];
      simpl; [done |].
    rewrite (Hwr j tj Hj), Hw. split; [congruence | done].
  - discriminate.
  - rewrite Hmem, Hw, Hi, Hp. reflexivity.
  - intros j tj item n Hj.
    apply (set_pc_lookup _ _ _ _ _ _ _ Hi) in Hj as [[-> ->] | [Hne Hj]];
      simpl; [discriminate | eauto].
  - intros k item Hk. destruct (Hlog k item Hk) as [? | (j & tj & Hj & Hkj & Hst)];
      [by left | right].
    destruct (decide (j = i)) as [-> | Hne].
    + exists i, {| tkey := tkey t; tpc := Done None stored |}.
      rewrite (set_pc_lookup_eq _ _ _ _ _ Hi). rewrite Hi in Hj.
      injection Hj as <-. rewrite Hp in Hst. simpl in *. eauto.
    + exists j, tj. by rewrite set_pc_lookup_ne.
  - discriminate.
  - intros j Hj. by apply set_pc_is_Some, Hri.
Qed.

(** Lines 97-101, one field. *)
Lemma store_Inv cache0 c i t item n :
  Inv cache0 c -> threads c !! i = Some t -> tpc t = AtStore item n ->
  Inv cache0
    (if decide (n < 2)%nat then
       {| threads := set_pc i (tkey t) (AtStore item (S n)) c;
          mem := <[tkey t := field_write n item (slot (mem c) (tkey t))]> (mem c);
          log := log c; readers := readers c; writer := writer c |}
     else
       {| threads := set_pc i (tkey t) (AtUnlock (Some item)) c;
          mem := <[tkey t := field_write n item (slot (mem c) (tkey t))]> (mem c);
          log := <[tkey t := item]> (log c); readers := readers c;
          writer := writer c |}).
Proof.
  intros HI Hi Hp. pose proof HI as [Hrd Hwr Hex Hmem Hbd Hlog Hho Hri].
  assert (Hw : writer c = Some i) by (apply (Hwr i t Hi); by rewrite Hp).
  pose proof (Hbd i t item n Hi Hp) as Hn.
  assert (Hm : mem c = view (tkey t) (AtStore item n) (log c))
    by (by rewrite Hmem, Hw, Hi, Hp).
  assert (Hm' : <[tkey t := field_write n item (slot (mem c) (tkey t))]> (mem c)
                = <[tkey t := partial (S n) item (slot (log c) (tkey t))]> (log c)).
  { rewrite Hm. destruct n as [|m]; [done |]. cbn [view].
    by rewrite slot_insert, insert_insert_eq. }
  rewrite Hm'. clear Hm Hm'. destruct (decide (n < 2)%nat) as [Hlt | Hge].
  - split; simpl.
    + intros j tj Hj.
      apply (set_pc_lookup _ _ _ _ _ _ _ Hi) in Hj as [[-> ->] | [Hne Hj]];
        simpl; [| eauto].
      rewrite <- (Hrd i t Hi), Hp. done.
    + intros j tj Hj.
      apply (set_pc_lookup _ _ _ _ _ _ _ Hi) in Hj as [[-> ->] | [Hne Hj]];
        simpl; [| eauto].
      by rewrite Hw.
    + done.
    + by rewrite Hw, (set_pc_lookup_eq _ _ _ _ _ Hi).
    + intros j tj item' n' Hj.
      apply (set_pc_lookup _ _ _ _ _ _ _ Hi) in Hj as [[-> ->] | [Hne Hj]];
        simpl; [| eauto].
      intros [= _ <-]. lia.
    + intros k item' Hk.
      destruct (Hlog k item' Hk) as [? | (j & tj & Hj & Hkj & Hst)];
        [by left | right].
      destruct (decide (j = i)) as [-> | Hne].
      * rewrite Hi in Hj. injection Hj as <-. rewrite Hp in Hst. discriminate.
      * exists j, tj. by rewrite set_pc_lookup_ne.
    + intros j Hj. by apply set_pc_is_Some, Hho.
    + intros j Hj. by apply set_pc_is_Some, Hri.
  - assert (n = 2%nat) as -> by lia. rewrite partial_whole.
    split; simpl.
    + intros j tj Hj.
      apply (set_pc_lookup _ _ _ _ _ _ _ Hi) in Hj as [[-> ->] | [Hne Hj]];
        simpl; [| eauto].
      rewrite <- (Hrd i t Hi), Hp. done.
    + intros j tj Hj.
      apply (set_pc_lookup _ _ _ _ _ _ _ Hi) in Hj as [[-> ->] | [Hne Hj]];
        simpl; [| eauto].
      by rewrite Hw.
    + done.
    + by rewrite Hw, (set_pc_lookup_eq _ _ _ _ _ Hi).
    + intros j tj item' n' Hj.
      apply (set_pc_lookup _ _ _ _ _ _ _ Hi) in Hj as [[-> ->] | [Hne Hj]];
        simpl; [discriminate | eauto].
    + intros k item' Hk. destruct (decide (k = tkey t)) as [-> | Hne].
      * rewrite lookup_insert_eq in Hk. injection Hk as <-. right.
        exists i, {| tkey := tkey t; tpc := AtUnlock (Some item) |}.
        by rewrite (set_pc_lookup_eq _ _ _ _ _ Hi).
      * rewrite lookup_insert_ne in Hk; [| done].
        destruct (Hlog k item' Hk) as [? | (j & tj & Hj & Hkj & Hst)];
          [by left | right].
        destruct (decide (j = i)) as [-> | Hji].
        { rewrite Hi in Hj. injection Hj as <-. done. }
        exists j, tj. by rewrite set_pc_lookup_ne.
    + intros j Hj. by apply set_pc_is_Some, Hho.
    + intros j Hj. by apply set_pc_is_Some, Hri.
Qed.

Lemma exec_Inv cache0 i o c c' :
  Inv cache0 c -> exec i o c = Some c' -> Inv cache0 c'.
Proof.
  intros HI. unfold exec. destruct (threads c !! i) as [t|] eqn:Hi; [| done].
  destruct (tpc t) as [| |found|item| | | |item n|stored|seen stored] eqn:Hp.
  - destruct (writer c) eqn:Hw; [done |]. intros [= <-].
    rewrite <- Hw. by apply rlock_Inv.
  - intros [= <-]. apply local_step_Inv; rewrite ?Hp; try done.
  - intros [= <-]. by apply runlock_Inv.
  - intros [= <-]. apply local_step_Inv; rewrite ?Hp; try done.
  - intros [= <-]. apply local_step_Inv; rewrite ?Hp; try done;
      by destruct o.
  - destruct (writer c) eqn:Hw; [done |].
    destruct (decide (readers c = ∅)); [| done]. intros [= <-].
    by apply lock_Inv.
  - intros [= <-]. apply local_step_Inv; rewrite ?Hp; try done;
      try (by destruct o).
    intros item n. destruct o; [| done]. intros [= _ <-]. lia.
  - pose proof (store_Inv cache0 c i t item n HI Hi Hp) as HS.
    destruct (decide (n < 2)%nat); by intros [= <-].
  - intros [= <-]. by apply unlock_Inv.
  - done.
Qed.

Lemma steps_Inv cache0 sched :
  forall c c', Inv cache0 c -> steps sched c = Some c' -> Inv cache0 c'.
Proof.
  induction sched as [|[i o] rest IH]; intros c c' HI; simpl.
  - by intros [= <-].
  - destruct (exec i o c) as [c1|] eqn:E; [| done].
    apply IH. by apply (exec_Inv _ _ _ _ _ HI E).
Qed.

(** The log changes by whole entries only, one per completed store. *)
Lemma exec_log i o c c' :
  exec i o c = Some c' ->
  log c' = log c \/
  exists t item n, threads c !! i = Some t /\ tpc t = AtStore item n /\
                   log c' = <[tkey t := item]> (log c).
Proof.
  unfold exec. destruct (threads c !! i) as [t|] eqn:Hi; [| done].
  destruct (tpc t) as [| |found|item| | | |item n|stored|seen stored] eqn:Hp;
    repeat case_match; try done; intros [= <-]; simpl; auto.
  right. by exists t, item, n.
Qed.

(** *** Every run can be completed *)

(** A bound on the steps an invocation has left. *)
Definition rank (p : pc) : nat :=
  match p with
  | AtRLock => 11
  | AtRead => 10
  | AtRUnlock _ => 9
  | AtFetch => 8
  | AtLock => 7
  | AtMarshal => 6
  | AtStore _ n => 2 + (3 - n)
  | AtHit _ | AtUnlock _ => 1
  | Done _ _ => 0
  end.

Fixpoint total_rank (ts : list thread) : nat :=
  match ts with
  | [] => 0
  | t :: ts' => rank (tpc t) + total_rank ts'
  end.

Lemma total_rank_insert ts i t t' :
  ts !! i = Some t ->
  (total_rank (<[i := t']> ts) + rank (tpc t) = total_rank ts + rank (tpc t'))%nat.
Proof.
  revert i. induction ts as [|x ts IH]; intros [|i] Hi; simpl in *; try done.
  - injection Hi as ->. lia.
  - specialize (IH i Hi). lia.
Qed.

Lemma exec_rank i o c c' :
  exec i o c = Some c' ->
  (total_rank (threads c') < total_rank (threads c))%nat.
Proof.
  unfold exec. destruct (threads c !! i) as [t|] eqn:Hi; [| done].
  assert (Hlt : forall p', (rank p' < rank (tpc t))%nat ->
                           (total_rank (set_pc i (tkey t) p' c)
                            < total_rank (threads c))%nat).
  { intros p' Hp.
    pose proof (total_rank_insert _ i t {| tkey := tkey t; tpc := p' |} Hi) as H.
    unfold set_pc. simpl in H. lia. }
  destruct (tpc t) as [| |found|item| | | |item n|stored|seen stored] eqn:Hp;
    repeat case_match; try done; intros [= <-]; simpl; apply Hlt; simpl; lia.
Qed.

#[local] Instance finished_dec t : Decision (finished t).
Proof. unfold finished. destruct (tpc t); apply _. Defined.

(** The holder of a lock can always take its next step. *)
Lemma holder_steps c i t :
  threads c !! i = Some t ->
  reading (tpc t) = true \/ writing (tpc t) = true ->
  exists c', exec i None c = Some c'.
Proof.
  intros Hi Hp. unfold exec. rewrite Hi.
  destruct (tpc t); simpl in Hp; try (destruct Hp; discriminate);
    repeat case_match; eauto.
Qed.

(** No deadlock: while an invocation is unfinished, some invocation can
    step. *)
Lemma progress cache0 c i t :
  Inv cache0 c -> threads c !! i = Some t -> ~ finished t ->
  exists j o c', exec j o c = Some c'.
Proof.
  intros [Hrd Hwr Hex Hmem Hbd Hlog Hho Hri] Hi Hnf.
  assert (Hblocked : forall j, writer c = Some j ->
                               exists j o c', exec j o c = Some c').
  { intros j Hj. destruct (Hho j Hj) as [tj Htj].
    destruct (holder_steps c j tj Htj) as [c' Hc'].
    - right. by apply (Hwr j tj Htj).
    - eauto. }
  destruct (tpc t) as [| |found|item| | | |item n|stored|seen stored] eqn:Hp.
  - destruct (writer c) as [j|] eqn:Hw; [by apply (Hblocked j) |].
    exists i, None. unfold exec. rewrite Hi, Hp, Hw. eauto.
  - exists i, None. unfold exec. rewrite Hi, Hp. eauto.
  - exists i, None. unfold exec. rewrite Hi, Hp. eauto.
  - exists i, None. unfold exec. rewrite Hi, Hp. eauto.
  - exists i, None. unfold exec. rewrite Hi, Hp. eauto.
  - destruct (writer c) as [j|] eqn:Hw; [by apply (Hblocked j) |].
    destruct (decide (readers c = ∅)) as [Hnr | Hr].
    + exists i, None. unfold exec. rewrite Hi, Hp, Hw.
      rewrite decide_True by done. eauto.
    + apply set_choose_L in Hr as [j Hj].
      destruct (Hri j Hj) as [tj Htj].
      destruct (holder_steps c j tj Htj) as [c' Hc'].
      * left. by apply (Hrd j tj Htj).
      * eauto.
  - exists i, None. unfold exec. rewrite Hi, Hp. eauto.
  - exists i, None. unfold exec. rewrite Hi, Hp. repeat case_match; eauto.
  - exists i, None. unfold exec. rewrite Hi, Hp. eauto.
  - unfold finished in Hnf. rewrite Hp in Hnf. done.
Qed.

Lemma steps_app sched1 : forall sched2 c c1 c2,
  steps sched1 c = Some c1 -> steps sched2 c1 = Some c2 ->
  steps (sched1 ++ sched2) c = Some c2.
Proof.
  induction sched1 as [|[i o] rest IH]; intros sched2 c c1 c2; simpl.
  - by intros [= <-].
  - destruct (exec i o c) as [c'|]; [| done]. apply IH.
Qed.

(** From a configuration that satisfies the invariant, some schedule
    brings every invocation to its end. *)
Lemma completion cache0 n :
  forall c, Inv cache0 c -> (total_rank (threads c) <= n)%nat ->
            exists sched c', steps sched c = Some c' /\
                             Forall finished (threads c').
Proof.
  induction n as [|n IH]; intros c HI Hn.
  - exists [], c. split; [done |].
    destruct (decide (Forall finished (threads c))) as [? | Hnf]; [done |].
    apply not_Forall_Exists in Hnf; [| apply _].
    apply Exists_exists in Hnf as (t & Ht & Hnf).
    apply list_elem_of_lookup in Ht as [i Hi].
    destruct (progress cache0 c i t HI Hi Hnf) as (j & o & c' & E).
    apply exec_rank in E. lia.
  - destruct (decide (Forall finished (threads c))) as [? | Hnf].
    { by exists [], c. }
    apply not_Forall_Exists in Hnf; [| apply _].
    apply Exists_exists in Hnf as (t & Ht & Hnf).
    apply list_elem_of_lookup in Ht as [i Hi].
    destruct (progress cache0 c i t HI Hi Hnf) as (j & o & c1 & E).
    pose proof (exec_rank _ _ _ _ E) as Hlt.
    destruct (IH c1 (exec_Inv _ _ _ _ _ HI E) ltac:(lia))
      as (sched & c' & Hrun & Hfin).
    exists ((j, o) :: sched), c'. split; [| done]. simpl. by rewrite E.
Qed.

(** C8. In every configuration that any number of concurrent handler
    invocations can reach, under any schedule: while one invocation is
    storing, no other is storing or looking up; a lookup (line 48) finds
    the memory equal to the log, the map to which every completed insert
    was applied as a whole, so it observes no entry, an entry of the
    start, or the whole entry an invocation for that key stored;
    once all invocations have returned, the memory is the log again and
    every entry in it was there at the start or is, whole, the entry one
    invocation for that key stored; and the invocations can always all
    run to their end (no deadlock). *)
Theorem inserts_are_atomic keys cache0 sched c :
  steps sched (start keys cache0) = Some c ->
  (forall i j ti tj,
     threads c !! i = Some ti -> threads c !! j = Some tj ->
     writing (tpc ti) = true ->
     reading (tpc tj) = false /\ (writing (tpc tj) = true -> i = j)) /\
  (forall i o c' t,
     threads c !! i = Some t -> tpc t = AtRead -> exec i o c = Some c' ->
     mem c = log c /\
     threads c' !! i
     = Some {| tkey := tkey t; tpc := AtRUnlock (log c !! tkey t) |} /\
     forall item,
       log c !! tkey t = Some item ->
       cache0 !! tkey t = Some item \/
       exists j tj, threads c !! j = Some tj /\ tkey tj = tkey t /\
                    stored_by (tpc tj) = Some item) /\
  (Forall finished (threads c) ->
   mem c = log c /\
   forall k item,
     mem c !! k = Some item ->
     cache0 !! k = Some item \/
     exists i seen,
       threads c !! i = Some {| tkey := k; tpc := Done seen (Some item) |}) /\
  (exists sched' c',
     steps sched' c = Some c' /\ Forall finished (threads c')).
Proof.
  intros Hrun.
  pose proof (steps_Inv cache0 sched _ _ (start_Inv keys cache0) Hrun) as HI.
  pose proof HI as [Hrd Hwr Hex Hmem Hbd Hlog Hho Hri].
  split; [| split; [| split]];
    [| | | by apply (completion cache0 _ c HI (le_n _))].
  - intros i j ti tj Hi Hj Hw. apply (Hwr i ti Hi) in Hw. split.
    + destruct (reading (tpc tj)) eqn:Hr; [| done].
      apply (Hrd j tj Hj) in Hr. rewrite (Hex i Hw) in Hr. set_solver.
    + intros Hw'. apply (Hwr j tj Hj) in Hw'. congruence.
  - intros i o c' t Hi Hp Hexec.
    assert (Hin : i ∈ readers c) by (apply (Hrd i t Hi); by rewrite Hp).
    assert (Hnw : writer c = None).
    { destruct (writer c) as [j|] eqn:E; [| done].
      rewrite (Hex j eq_refl) in Hin. set_solver. }
    assert (Hm : mem c = log c) by (by rewrite Hmem, Hnw).
    split; [done |]. split; [| by apply Hlog].
    unfold exec in Hexec. rewrite Hi, Hp in Hexec.
    injection Hexec as <-. simpl.
    by rewrite (set_pc_lookup_eq _ _ _ _ _ Hi), Hm.
  - intros Hfin.
    assert (Hnw : writer c = None).
    { destruct (writer c) as [j|] eqn:E; [| done].
      destruct (threads c !! j) as [t|] eqn:Hj.
      - pose proof (proj2 (Hwr j t Hj) eq_refl) as Hw.
        rewrite Forall_lookup in Hfin. specialize (Hfin j t Hj).
        unfold finished in Hfin. by destruct (tpc t).
      - destruct (Hho j eq_refl) as [t Ht]. congruence. }
    assert (Hm : mem c = log c) by (by rewrite Hmem, Hnw).
    split; [done |]. intros k item Hk. rewrite Hm in Hk.
    destruct (Hlog k item Hk) as [? | (i & t & Hi & Hkey & Hst)];
      [by left | right].
    rewrite Forall_lookup in Hfin. specialize (Hfin i t Hi).
    unfold finished in Hfin. destruct t as [k' p]. simpl in *. subst k'.
    destruct p; try done. simpl in Hst. subst stored. eauto.
Qed.

(** *** One invocation alone *)

Lemma exec_alone_hit key (cache0 : gmap string CacheItem) item :
  cache0 !! key = Some item ->
  exists c, steps (alone true None) (start [key] cache0) = Some c /\
            Forall finished (threads c) /\ mem c = cache0.
Proof.
  intros Hk. eexists. cbn. rewrite Hk. cbn.
  split; [reflexivity |]. split; [| reflexivity]. repeat constructor.
Qed.

Lemma exec_alone_fail key (cache0 : gmap string CacheItem) :
  cache0 !! key = None ->
  exists c, steps (alone false None) (start [key] cache0) = Some c /\
            Forall finished (threads c) /\ mem c = cache0.
Proof.
  intros Hk. eexists. cbn. rewrite Hk. cbn.
  split; [reflexivity |]. split; [| reflexivity]. repeat constructor.
Qed.

Lemma exec_alone_store key (cache0 : gmap string CacheItem) item :
  cache0 !! key = None ->
  exists c, steps (alone false (Some item)) (start [key] cache0) = Some c /\
            Forall finished (threads c) /\ mem c = <[key := item]> cache0.
Proof.
  intros Hk. eexists. cbn. rewrite Hk. cbn.
  assert (Hr : ({[0%nat]} ∪ ∅) ∖ {[0%nat]} = (∅ : gset nat)) by set_solver.
  rewrite Hr. destruct (decide ((∅ : gset nat) = ∅)); [| done]. cbn.
  split; [reflexivity |]. split; [repeat constructor |]. cbn.
  rewrite !slot_insert, !insert_insert_eq. by destruct item.
Qed.

Section Alone.
Context {SC : Strconv}.

(** Run alone, the steps above leave the memory as [HandleRequest]
    leaves the cache. *)
Lemma alone_matches_HandleRequest e w r origin s :
  exists c,
    steps (alone (bool_decide (is_Some (cache s !! (origin +:+ Path r))))
             (cache (state (HandleRequest e w r origin s))
                !! (origin +:+ Path r)))
      (start [origin +:+ Path r] (cache s)) = Some c /\
    Forall finished (threads c) /\
    mem c = cache (state (HandleRequest e w r origin s)).
Proof.
  destruct (HandleRequest_cache e w r origin s) as [-> | (Hn & item & ->)].
  - destruct (cache s !! (origin +:+ Path r)) as [item|] eqn:Hk.
    + rewrite bool_decide_eq_true_2 by eauto.
      by apply (exec_alone_hit _ _ item).
    + rewrite bool_decide_eq_false_2 by (by intros [? ?]).
      by apply exec_alone_fail.
  - rewrite Hn, bool_decide_eq_false_2 by (by intros [? ?]).
    rewrite lookup_insert_eq. by apply exec_alone_store.
Qed.

End Alone.

End Conc.

(** ** Concrete runs *)

Module Scenario.
Import Small Http Proxy.
Local Close Scope char_scope.

Definition bytes_of (s : string) : bytes := list_ascii_of_string s.

(** A string literal of JSON. *)
Definition q (s : string) : bytes := dquote :: bytes_of s ++ [dquote].

Definition origin : string := "http://origin".
Definition req_x : Request := {| Path := "/x"; RawQuery := "" |}.
Definition key_x : string := "http://origin/x".

Definition json_fields : gmap string (list string) :=
  {[ "Content-Type" := ["application/json"] ]}.

(** The object with the one member a = 1, as an origin may send it and
    as the encoder writes it. *)
Definition body_spaced : bytes := bytes_of "{ " ++ q "a" ++ bytes_of " : 1 }".
Definition body_compact : bytes := bytes_of "{" ++ q "a" ++ bytes_of ":1}".
Definition value_a : Json.value := Json.VObj [(bytes_of "a", Json.VNum 1%N)].

Definition answers (st : nat) (body : bytes) : Env :=
  {| origin_reply := fun _ => Answer st json_fields body; now := 1700000000 |}.

Definition env_json : Env := answers 200 body_spaced.
Definition env_not_found : Env := answers 404 body_spaced.
Definition env_null : Env := answers 200 (bytes_of "null").
Definition env_text : Env := answers 200 (bytes_of "not json").
Definition env_down : Env :=
  {| origin_reply := fun _ => Unreachable; now := 1700000000 |}.

(** The first request for [/x], and the state it leaves. *)
Definition first_x : Outcome := HandleRequest env_json fresh_writer req_x origin init.
Definition s1 : State := state first_x.
Definition item_x : CacheItem := (lookup (cache s1) key_x).1.

Example first_x_response :
  status (writer first_x) = Some 200 /\
  written (writer first_x) = body_compact ++ [newline] /\
  marker first_x = Some ["MISS"] /\
  fetched first_x = [key_x] /\
  Response item_x = body_compact /\
  observed s1 key_x = json_fields.
Proof. vm_compute. repeat split. Qed.

(** The second request for [/x], with the origin gone. *)
Definition second_x : Outcome := HandleRequest env_down fresh_writer req_x origin s1.

Example second_x_response :
  status (writer second_x) = Some 200 /\
  written (writer second_x) = body_compact /\
  marker second_x = Some ["HIT"] /\
  fetched second_x = [] /\
  cache (state second_x) = cache s1.
Proof. vm_compute. repeat split. Qed.

(** A [null] body: the decoder leaves the map nil and reports no error;
    the handler answers 200 and stores the encoding of the nil map. *)
Definition null_x : Outcome := HandleRequest env_null fresh_writer req_x origin init.

Example null_x_response :
  Json.first_value (bytes_of "null") = Some Json.VNull /\
  status (writer null_x) = Some 200 /\
  written (writer null_x) = bytes_of "null" ++ [newline] /\
  Response (lookup (cache (state null_x)) key_x).1 = bytes_of "null" /\
  (lookup (cache (state null_x)) key_x).2 = true.
Proof. vm_compute. repeat split. Qed.

Lemma hit_serves_entry_witness :
  cache s1 !! (origin +:+ Path req_x) = Some item_x /\
  fetched second_x = [] /\ cache (state second_x) = cache s1.
Proof.
  assert (H : cache s1 !! (origin +:+ Path req_x) = Some item_x)
    by (vm_compute; reflexivity).
  split; [exact H |].
  pose proof (hit_serves_entry env_down fresh_writer req_x origin s1 item_x H)
    as (Hf & Hc & _).
  split; [exact Hf | exact Hc].
Defined.

Lemma unreachable_bad_gateway_witness :
  cache init !! (origin +:+ Path req_x) = None /\
  origin_reply env_down (origin +:+ Path req_x) = Unreachable /\
  wroteHeader fresh_writer = None /\
  status (writer (HandleRequest env_down fresh_writer req_x origin init))
  = Some StatusBadGateway.
Proof.
  split; [reflexivity |]. split; [reflexivity |]. split; [reflexivity |].
  apply (unreachable_bad_gateway env_down fresh_writer req_x origin init);
    reflexivity.
Defined.

Lemma insert_replaces_witness :
  lookup (insert key_x item_x (insert key_x zero ∅)) key_x = (item_x, true).
Proof. apply (insert_replaces ∅ key_x zero item_x). Defined.

(** C2 fails as worded: with the origin unreachable the request is a miss
    that sets no marker and stores nothing. *)
Lemma unreachable_miss_stores_nothing :
  ~ every_miss_caches env_down fresh_writer req_x origin init.
Proof.
  intros H. destruct (H eq_refl) as (_ & Hm & _).
  vm_compute in Hm. discriminate Hm.
Qed.

Lemma miss_fetches_and_caches_witness :
  cache init !! (origin +:+ Path req_x) = None /\
  fetched first_x = [origin +:+ Path req_x].
Proof.
  split; [reflexivity |].
  apply (miss_fetches_and_caches env_json fresh_writer req_x origin init).
  reflexivity.
Defined.

(** C3 fails as worded: the body [null] is well-formed JSON whose first
    value is not an object, and the handler answers 200 and stores it. *)
Lemma null_body_is_accepted :
  ~ rejects_every_non_object env_null fresh_writer req_x origin init.
Proof.
  intros H.
  destruct (H 200 json_fields (bytes_of "null") eq_refl eq_refl) as [Hs _].
  - vm_compute. exact I.
  - vm_compute in Hs. discriminate Hs.
Qed.

Lemma undecodable_internal_error_witness :
  cache init !! (origin +:+ Path req_x) = None /\
  origin_reply env_text (origin +:+ Path req_x)
  = Answer 200 json_fields (bytes_of "not json") /\
  rejected (bytes_of "not json") /\
  wroteHeader fresh_writer = None /\
  status (writer (HandleRequest env_text fresh_writer req_x origin init))
  = Some StatusInternalServerError /\
  Json.first_value (bytes_of "null  ") = Some Json.VNull /\
  status (writer (HandleRequest (answers 200 (bytes_of "null  "))
                    fresh_writer req_x origin init))
  = Some StatusOK.
Proof.
  assert (Hrej : rejected (bytes_of "not json")) by (vm_compute; exact I).
  assert (Hnull : Json.first_value (bytes_of "null  ") = Some Json.VNull)
    by (vm_compute; reflexivity).
  split; [reflexivity |]. split; [reflexivity |]. split; [exact Hrej |].
  split; [reflexivity |]. split.
  - apply (undecodable_internal_error env_text fresh_writer req_x origin init
             200 json_fields (bytes_of "not json"));
      [reflexivity | reflexivity | reflexivity | exact Hrej].
  - split; [exact Hnull |].
    apply (undecodable_internal_error (answers 200 (bytes_of "null  "))
             fresh_writer req_x origin init 200 json_fields
             (bytes_of "null  "));
      [reflexivity | reflexivity | reflexivity | exact Hnull].
Defined.

Lemma served_bodies_decode_to_value_witness :
  Json.Decode body_spaced = Json.DecodeOk value_a /\
  Json.Decode (written (writer first_x)) = Json.DecodeOk value_a.
Proof.
  assert (Hd : Json.Decode body_spaced = Json.DecodeOk value_a)
    by (vm_compute; reflexivity).
  split; [exact Hd |].
  apply (served_bodies_decode_to_value env_json fresh_writer req_x origin init
           200 json_fields body_spaced value_a);
    [reflexivity | reflexivity | exact Hd | reflexivity | reflexivity].
Defined.

Lemma miss_body_has_newline_witness :
  Json.Decode body_spaced = Json.DecodeOk value_a /\
  written (writer first_x) = Json.encode value_a ++ [newline].
Proof.
  assert (Hd : Json.Decode body_spaced = Json.DecodeOk value_a)
    by (vm_compute; reflexivity).
  split; [exact Hd |].
  apply (miss_body_has_newline env_json fresh_writer req_x origin init
           200 json_fields body_spaced value_a);
    [reflexivity | reflexivity | exact Hd | reflexivity | reflexivity].
Defined.

Lemma origin_status_ignored_witness :
  origin_reply env_not_found (origin +:+ Path req_x)
  = Answer 404 json_fields body_spaced /\
  status (writer (HandleRequest env_not_found fresh_writer req_x origin init))
  = Some StatusOK.
Proof.
  assert (Hd : Json.Decode body_spaced = Json.DecodeOk value_a)
    by (vm_compute; reflexivity).
  split; [reflexivity |].
  apply (origin_status_ignored env_not_found fresh_writer req_x origin init
           404 json_fields body_spaced value_a);
    [reflexivity | reflexivity | exact Hd | reflexivity].
Defined.

(** The response [http.Get] built for the first request. *)
Definition res_x : Http.Response :=
  default {| StatusCode := 0; resHeader := ∅; Body := [] |}
    (Get (origin_reply env_json key_x) (heap init)).1.

(** C5. The entry stored for [/x] holds the very slices of the origin
    response's header map: after the handler has returned, a store
    through that map, [res.Header["Content-Type"][0] = "text/plain"],
    changes the header fields a lookup of the key observes. The same
    slices are handed out again on a hit: a store through the header map
    of the response writer changes the entry as well. *)
Theorem store_through_response_header_reaches_entry :
  Headers item_x = resHeader res_x /\
  observed s1 key_x !! "Content-Type" = Some ["application/json"] /\
  (exists h' hp',
     mutate (Store "Content-Type" 0 "text/plain") (resHeader res_x) (heap s1)
     = Some (h', hp') /\
     observed {| cache := cache s1; heap := hp' |} key_x !! "Content-Type"
     = Some ["text/plain"]) /\
  header (writer second_x) !! "Content-Type" = Headers item_x !! "Content-Type" /\
  (exists h' hp',
     mutate (Store "Content-Type" 0 "text/plain") (header (writer second_x))
       (heap (state second_x))
     = Some (h', hp') /\
     observed {| cache := cache (state second_x); heap := hp' |} key_x
       !! "Content-Type"
     = Some ["text/plain"]).
Proof.
  split; [vm_compute; reflexivity |]. split; [vm_compute; reflexivity |].
  split; [eexists _, _; split; vm_compute; reflexivity |].
  split; [vm_compute; reflexivity |].
  eexists _, _. split; vm_compute; reflexivity.
Qed.

(** Two concurrent first requests for [/x], and a third that arrives
    late: both early ones miss, fetch, and store one after the other. *)
Import Conc.

Definition item_b : CacheItem :=
  {| Response := body_compact; Headers := ∅; CachedAt := 1700000001 |}.

Definition both_miss : list (nat * option CacheItem) :=
  [(0, None); (1, None);              (* RLock, RLock *)
   (0, None); (1, None);              (* both read: absent *)
   (0, None); (1, None);              (* RUnlock, RUnlock *)
   (0, Some item_x); (1, Some item_b) (* both get through lines 62-80 *)
  ]%nat.

Definition late_hit : list (nat * option CacheItem) :=
  [(2, None); (2, None); (2, None); (2, None)]%nat.

Definition three_requests : list (nat * option CacheItem) :=
  both_miss ++ store_by 0 item_x ++ store_by 1 item_b ++ late_hit.

Definition begin3 : config := start [key_x; key_x; key_x] ∅.

Definition after_three : config :=
  default begin3 (steps three_requests begin3).

(** While invocation 0 is between two fields of its store, the memory
    holds a slot that is neither absent nor any whole entry, and the
    third invocation cannot take the read lock. *)
Example reader_waits_for_writer :
  exists c, steps (both_miss ++ [(0, None); (0, Some item_x); (0, None)]%nat)
              begin3 = Some c /\
            mem c !! key_x
            = Some {| Response := body_compact; Headers := ∅; CachedAt := 0 |} /\
            log c !! key_x = None /\
            exec 2 None c = None.
Proof. eexists. vm_compute. repeat split. Qed.

Lemma inserts_are_atomic_witness :
  steps three_requests begin3 = Some after_three /\
  Forall finished (threads after_three) /\
  mem after_three = log after_three /\
  mem after_three !! key_x = Some item_b /\
  threads after_three !! 2%nat
  = Some {| tkey := key_x; tpc := Done (Some item_b) None |}.
Proof.
  assert (Hrun : steps three_requests begin3 = Some after_three)
    by (vm_compute; reflexivity).
  assert (Hfin : Forall finished (threads after_three))
    by (vm_compute; repeat constructor).
  split; [exact Hrun |]. split; [exact Hfin |].
  split; [| split; vm_compute; reflexivity].
  exact (proj1 (proj1 (proj2 (proj2 (inserts_are_atomic _ _ _ _ Hrun))) Hfin)).
Defined.

End Scenario.

(** ** The decoder reads a stream

    [json.NewDecoder(res.Body).Decode] takes the first value of the body
    and leaves the rest unread; white space before the value is
    skipped. *)

Module Stream.
Import Json.
Section Stream.
Context {SC : Strconv}.

Lemma skip_ws_app s rest :
  skip_ws s <> [] -> skip_ws (s ++ rest) = skip_ws s ++ rest.
Proof.
  induction s as [|c s IH]; simpl; [done |].
  destruct (isSpace c); [exact IH | done].
Qed.

Lemma skip_ws_lead lead s :
  forallb isSpace lead = true -> skip_ws (lead ++ s) = skip_ws s.
Proof.
  induction lead as [|c lead IH]; simpl; [done |].
  intros H. apply andb_prop in H as [-> H]. by apply IH.
Qed.

Lemma scan_str_ext input :
  forall st lit r rest,
    scan_str st input = Some (lit, r) ->
    scan_str st (input ++ rest) = Some (lit, r ++ rest).
Proof.
  induction input as [|c t IH]; intros st lit r rest; simpl; [done |].
  assert (Hc : forall st', consl c (scan_str st' t) = Some (lit, r) ->
                           consl c (scan_str st' (t ++ rest))
                           = Some (lit, r ++ rest)).
  { intros st'. unfold consl.
    destruct (scan_str st' t) as [[l r']|] eqn:E; [| done].
    intros [= <- <-]. by rewrite (IH _ _ _ rest E). }
  destruct st.
  - destruct (c =? dquote); [by intros [= <- <-] |].
    destruct (c =? backslash); [apply Hc |].
    destruct (c <? " "); [done | apply Hc].
  - destruct (isEscape c); [apply Hc |].
    destruct (c =? "u"); [apply Hc | done].
  - destruct (isHex c); [apply Hc | done].
Qed.

Lemma scan_num_ext input :
  forall st lit r rest,
    scan_num st input = Some (lit, r) -> r <> [] ->
    scan_num st (input ++ rest) = Some (lit, r ++ rest).
Proof.
  induction input as [|c t IH]; intros st lit r rest; simpl.
  - destruct (accepting st); [| done]. by intros [= <- <-].
  - destruct (num_step st c) as [st'| |]; [| by intros [= <- <-] | done].
    unfold consl. destruct (scan_num st' t) as [[l r']|] eqn:E; [| done].
    intros [= <- <-] Hr. by rewrite (IH _ _ _ rest E Hr).
Qed.

Lemma strip_prefix_ext p :
  forall s r rest, strip_prefix p s = Some r ->
                   strip_prefix p (s ++ rest) = Some (r ++ rest).
Proof.
  induction p as [|a p IH]; intros [|b s] r rest; simpl; try done.
  - by intros [= <-].
  - by intros [= <-].
  - destruct (a =? b); [apply IH | done].
Qed.

Lemma parse_string_ext s k r rest :
  parse_string s = Some (k, r) ->
  parse_string (s ++ rest) = Some (k, r ++ rest).
Proof.
  unfold parse_string. destruct s as [|c t]; [done |]. simpl.
  destruct (c =? dquote); [| done].
  destruct (scan_str InString t) as [[lit r']|] eqn:E; [| done].
  rewrite (scan_str_ext _ _ _ _ rest E).
  destruct (unquote lit); [| done]. by intros [= <- <-].
Qed.

Definition is_num (v : value) : Prop :=
  match v with
  | VNum _ => True
  | _ => False
  end.

(** A value that was decoded is decoded again when more input follows,
    unless it is a number that ran up to the end of the input. *)
Definition ext_value (fuel : nat) : Prop :=
  forall d s v r rest,
    parse_value fuel d s = Some (v, r) -> (r <> [] \/ ~ is_num v) ->
    parse_value fuel d (s ++ rest) = Some (v, r ++ rest).

Definition ext_elements (fuel : nat) : Prop :=
  forall d acc s v r rest,
    parse_elements fuel d acc s = Some (v, r) ->
    parse_elements fuel d acc (s ++ rest) = Some (v, r ++ rest).

Definition ext_members (fuel : nat) : Prop :=
  forall d acc s v r rest,
    parse_members fuel d acc s = Some (v, r) ->
    parse_members fuel d acc (s ++ rest) = Some (v, r ++ rest).

Lemma ext_fuel fuel : ext_value fuel /\ ext_elements fuel /\ ext_members fuel.
Proof.
  induction fuel as [|n (IHv & IHe & IHm)].
  { repeat split; red; intros; discriminate. }
  split; [| split].
  - intros d s v r rest. destruct s as [|c t]; [done |].
    cbn [parse_value app].
    destruct (c =? "{").
    { destruct (d <? maxNestingDepth)%N; [| done].
      destruct (skip_ws t) as [|c' r'] eqn:Et; [done |].
      rewrite skip_ws_app, Et by (by rewrite Et). cbn [app].
      destruct (c' =? "}"); [by intros [= <- <-] |].
      intros H _. by apply (IHm _ _ _ _ _ rest) in H. }
    destruct (c =? "[").
    { destruct (d <? maxNestingDepth)%N; [| done].
      destruct (skip_ws t) as [|c' r'] eqn:Et; [done |].
      rewrite skip_ws_app, Et by (by rewrite Et). cbn [app].
      destruct (c' =? "]"); [by intros [= <- <-] |].
      intros H _. by apply (IHe _ _ _ _ _ rest) in H. }
    destruct (c =? dquote).
    { destruct (parse_string (c :: t)) as [[str r']|] eqn:Es; [| done].
      rewrite app_comm_cons, (parse_string_ext _ _ _ rest Es).
      by intros [= <- <-]. }
    destruct (c =? "n").
    { destruct (strip_prefix lit_null (c :: t)) eqn:E; [| done].
      rewrite app_comm_cons, (strip_prefix_ext _ _ _ rest E).
      by intros [= <- <-]. }
    destruct (c =? "t").
    { destruct (strip_prefix lit_true (c :: t)) eqn:E; [| done].
      rewrite app_comm_cons, (strip_prefix_ext _ _ _ rest E).
      by intros [= <- <-]. }
    destruct (c =? "f").
    { destruct (strip_prefix lit_false (c :: t)) eqn:E; [| done].
      rewrite app_comm_cons, (strip_prefix_ext _ _ _ rest E).
      by intros [= <- <-]. }
    destruct (scan_num NBegin (c :: t)) as [[lit r']|] eqn:E; [| done].
    destruct (ParseFloat lit) eqn:Ef; [| done]. intros [= <- <-] Hr.
    assert (Hne : r' <> []) by (destruct Hr as [? | Hn]; [done | by destruct Hn]).
    rewrite app_comm_cons, (scan_num_ext _ _ _ _ rest E) by done.
    by rewrite Ef.
  - intros d acc s v r rest. rewrite !parse_elements_S.
    destruct (parse_value n d s) as [[v0 r0]|] eqn:Ev; [| done].
    destruct (skip_ws r0) as [|c r1] eqn:E0; [done |].
    assert (Hne : r0 <> []) by (intros ->; discriminate).
    rewrite (IHv _ _ _ _ rest Ev) by auto.
    rewrite skip_ws_app, E0 by (by rewrite E0). cbn [app].
    destruct (c =? ",").
    + destruct (skip_ws r1) as [|c2 r2] eqn:E1.
      * intros H. destruct n; [done |]. rewrite parse_elements_S in H.
        destruct n; [done |]. done.
      * rewrite skip_ws_app, E1 by (by rewrite E1). rewrite <- E1. apply IHe.
    + destruct (c =? "]"); [| done]. by intros [= <- <-].
  - intros d acc s v r rest. rewrite !parse_members_S.
    destruct (parse_string s) as [[k r0]|] eqn:Ek; [| done].
    rewrite (parse_string_ext _ _ _ rest Ek).
    destruct (skip_ws r0) as [|c r1] eqn:E0; [done |].
    rewrite skip_ws_app, E0 by (by rewrite E0). cbn [app].
    destruct (c =? ":"); [| done].
    destruct (skip_ws r1) as [|c1 r1'] eqn:E1.
    { destruct n; [done |]. done. }
    rewrite skip_ws_app, E1 by (by rewrite E1). rewrite <- E1.
    destruct (parse_value n d (skip_ws r1)) as [[v0 r2]|] eqn:Ev; [| done].
    destruct (skip_ws r2) as [|c' r3] eqn:E2; [done |].
    assert (Hne : r2 <> []) by (intros ->; discriminate).
    rewrite (IHv _ _ _ _ rest Ev) by auto.
    rewrite skip_ws_app, E2 by (by rewrite E2). cbn [app].
    destruct (c' =? ",").
    + destruct (skip_ws r3) as [|c3 r4] eqn:E3.
      * intros H. destruct n; [done |]. rewrite parse_members_S in H. done.
      * rewrite skip_ws_app, E3 by (by rewrite E3). rewrite <- E3. apply IHm.
    + destruct (c' =? "}"); [| done]. by intros [= <- <-].
Qed.

End Stream.
End Stream.

Module StreamDecode.
Import Json Stream.
Section StreamDecode.
Context {SC : Strconv}.

Lemma first_value_stream lead body rest v :
  forallb isSpace lead = true ->
  first_value body = Some v -> ~ is_num v ->
  first_value (lead ++ body ++ rest) = Some v.
Proof.
  intros Hlead Hv Hn. unfold first_value in *.
  rewrite (skip_ws_lead lead _ Hlead).
  destruct (parse_value (S (length (skip_ws body))) 0 (skip_ws body))
    as [[v0 r]|] eqn:E; [| done].
  injection Hv as ->.
  assert (Hne : skip_ws body <> []).
  { intros Hnil. rewrite Hnil in E. discriminate. }
  rewrite (skip_ws_app _ rest Hne).
  pose proof (proj1 (ext_fuel _) _ _ _ _ rest E (or_intror Hn)) as Hext.
  pose proof (proj1 (consumes_fuel _) _ _ _ _ Hext) as Hlt.
  rewrite (proj1 (enough_fuel _) _ _ _ _ Hext
             (S (length (skip_ws body ++ rest)))); [done | lia].
Qed.

(** What [Decode] accepts from a body it accepts from the same body
    with white space before it and any bytes after it. *)
Lemma Decode_stream lead body rest V :
  forallb isSpace lead = true ->
  Decode body = DecodeOk V ->
  Decode (lead ++ body ++ rest) = DecodeOk V.
Proof.
  intros Hlead Hd. apply Decode_ok_inv in Hd as [Hv Hshape].
  unfold Decode. rewrite (first_value_stream lead body rest V Hlead Hv).
  - by destruct Hshape as [-> | [m ->]].
  - destruct Hshape as [-> | [m ->]]; by intros [].
Qed.

End StreamDecode.
End StreamDecode.

(** ** More of what the handler does, request after request *)

Module Behaviour.
Import Http Proxy.
Local Close Scope char_scope.
Section Behaviour.
Context {SC : Strconv}.

(** *** Header maps and the heap *)

Lemma closed_heap_le hp hp' (h : Header) :
  closed hp h -> heap_le hp hp' -> closed hp' h.
Proof.
  intros Hcl Hle k l Hk. destruct (Hcl k l Hk) as [vs Hvs].
  exists vs. by apply Hle.
Qed.

Lemma contents_insert_fresh (hp : Heap) (h : Header) k l vs :
  hp !! l = None -> closed hp h ->
  contents (<[l := vs]> hp) (<[k := l]> h) = <[k := vs]> (contents hp h).
Proof.
  intros Hl Hcl. apply map_eq. intros k'. unfold contents.
  rewrite lookup_omap. destruct (decide (k = k')) as [<- | Hne].
  - rewrite !lookup_insert_eq. simpl. by rewrite lookup_insert_eq.
  - rewrite !lookup_insert_ne by done. rewrite lookup_omap.
    destruct (h !! k') as [l'|] eqn:Hk; [| done]. simpl.
    destruct (Hcl k' l' Hk) as [ws Hws].
    rewrite lookup_insert_ne; [done | congruence].
Qed.

Lemma closed_insert_fresh (hp : Heap) (h : Header) k l vs :
  hp !! l = None -> closed hp h -> closed (<[l := vs]> hp) (<[k := l]> h).
Proof.
  intros Hl Hcl k' l' Hk. destruct (decide (k = k')) as [<- | Hne].
  - rewrite lookup_insert_eq in Hk. injection Hk as <-.
    rewrite lookup_insert_eq. eauto.
  - rewrite lookup_insert_ne in Hk by done.
    destruct (Hcl k' l' Hk) as [ws Hws]. exists ws.
    rewrite lookup_insert_ne; [done | congruence].
Qed.

Lemma alloc_fields_spec kvs : forall hp,
  closed (alloc_fields kvs hp).2 (alloc_fields kvs hp).1 /\
  contents (alloc_fields kvs hp).2 (alloc_fields kvs hp).1 = list_to_map kvs.
Proof.
  induction kvs as [|[k vs] kvs IH]; intros hp; simpl.
  - split; [by intros k l | apply map_eq; intros k; unfold contents;
                             by rewrite lookup_omap, !lookup_empty].
  - destruct (IH hp) as [Hcl Hco].
    destruct (alloc_fields kvs hp) as [h hp1]. simpl in *.
    pose proof (alloc_fresh vs hp1) as Hf. unfold alloc in *. simpl in *.
    split; [by apply closed_insert_fresh |].
    by rewrite contents_insert_fresh, Hco.
Qed.

(** The header map [http.Get] builds holds the fields the origin sent,
    in slices of its own. *)
Lemma Get_spec st fields body hp res hp' :
  Get (Answer st fields body) hp = (Some res, hp') ->
  closed hp' (resHeader res) /\ contents hp' (resHeader res) = fields /\
  heap_le hp hp' /\ Body res = body.
Proof.
  intros HG. pose proof (Get_heap_le (Answer st fields body) hp) as Hle.
  rewrite HG in Hle. unfold Get in HG.
  destruct (alloc_fields_spec (map_to_list fields) hp) as [Hcl Hco].
  destruct (alloc_fields (map_to_list fields) hp) as [h hp1].
  injection HG as <- <-. simpl in *.
  by rewrite Hco, list_to_map_to_list.
Qed.

(** Every slice an entry of the cache refers to is allocated. *)
Definition sound (s : State) : Prop :=
  forall key item, cache s !! key = Some item -> closed (heap s) (Headers item).

Lemma init_sound : sound init.
Proof. intros key item Hk. simpl in Hk. by rewrite lookup_empty in Hk. Qed.

(** The handler allocates slices and never stores into one. *)
Lemma HandleRequest_heap_le e w r origin s :
  heap_le (heap s) (heap (state (HandleRequest e w r origin s))).
Proof.
  unfold HandleRequest, lookup.
  destruct (cache s !! (origin +:+ Path r)) as [item|].
  { destruct (Header_Set_spec "X-Cache" "HIT"
                (copy_fields (Headers item) (header w)) (heap s))
      as (l & Hl & ->). by apply insert_heap_le. }
  pose proof (Get_heap_le (origin_reply e (origin +:+ Path r)) (heap s)) as HG.
  destruct (Get _ _) as [[res|] hp]; simpl in HG;
    [| eapply heap_le_trans; [exact HG | apply fail_heap_le]].
  destruct (Json.Decode (Body res));
    try (eapply heap_le_trans; [exact HG | apply fail_heap_le]).
  destruct (Header_Set_spec "X-Cache" "MISS" (header w) hp) as (l & Hl & ->).
  assert (Hle : heap_le (heap s) (<[l := ["MISS"]]> hp)).
  { eapply heap_le_trans; [exact HG | by apply insert_heap_le]. }
  destruct (Encode _ _ _) as [w1 []];
    [| eapply heap_le_trans; [exact Hle | apply fail_heap_le]].
  destruct (Json.Marshal v);
    [done | eapply heap_le_trans; [exact Hle | apply fail_heap_le]].
Qed.

Lemma HandleRequest_sound e w r origin s :
  sound s -> sound (state (HandleRequest e w r origin s)).
Proof.
  intros Hs.
  pose proof (HandleRequest_heap_le e w r origin s) as Hle.
  assert (Hold : forall key item, cache s !! key = Some item ->
            closed (heap (state (HandleRequest e w r origin s))) (Headers item)).
  { intros key item Hk. eapply closed_heap_le; [by eapply Hs | done]. }
  revert Hle Hold. unfold HandleRequest, lookup.
  destruct (cache s !! (origin +:+ Path r)) as [item|] eqn:Hc.
  { destruct (Header_Set _ _ _ _). intros _ Hold key it. apply Hold. }
  destruct (Get (origin_reply e (origin +:+ Path r)) (heap s))
    as [[res|] hp] eqn:HG.
  2:{ intros _ Hold key it. rewrite fail_cache. apply Hold. }
  destruct (Json.Decode (Body res));
    try (intros _ Hold key it; rewrite fail_cache; apply Hold).
  destruct (Header_Set_spec "X-Cache" "MISS" (header w) hp) as (l & Hl & ->).
  destruct (Encode _ _ _) as [w1 []];
    [| intros _ Hold key it; rewrite fail_cache; apply Hold].
  destruct (Json.Marshal v);
    [| intros _ Hold key it; rewrite fail_cache; apply Hold].
  intros _ Hold key it. unfold insert. cbn [state cache heap].
  destruct (decide (origin +:+ Path r = key)) as [<- | Hne].
  - rewrite lookup_insert_eq. intros [= <-]. cbn [Headers].
    rewrite copy_fields_empty.
    destruct (origin_reply e (origin +:+ Path r)) as [|st fields body];
      [simpl in HG; congruence |].
    apply Get_spec in HG as (Hcl & _).
    eapply closed_heap_le; [exact Hcl | by apply insert_heap_le].
  - rewrite lookup_insert_ne by done. apply Hold.
Qed.

Lemma run_sound origin calls : forall s, sound s -> sound (run origin calls s).
Proof.
  induction calls as [|c cs IH]; intros s Hs; simpl; [done |].
  by apply IH, HandleRequest_sound.
Qed.

Lemma run_heap_le origin calls :
  forall s, heap_le (heap s) (heap (run origin calls s)).
Proof.
  induction calls as [|c cs IH]; intros s; simpl; [apply heap_le_refl |].
  eapply heap_le_trans; [apply HandleRequest_heap_le | apply IH].
Qed.

(** *** The cache over a sequence of requests *)

Lemma run_new_keys origin calls s k :
  is_Some (cache (run origin calls s) !! k) ->
  is_Some (cache s !! k) \/
  exists c, c ∈ calls /\ k = origin +:+ Path (call_request c).
Proof.
  revert s. induction calls as [|c cs IH]; intros s Hk; simpl in *;
    [by left |].
  destruct (IH _ Hk) as [Hin | (c' & Hc' & ->)].
  - destruct (HandleRequest_cache (call_env c) (call_writer c)
                (call_request c) origin s) as [Heq | (_ & item & Heq)];
      rewrite Heq in Hin; [by left |].
    destruct (decide (origin +:+ Path (call_request c) = k)) as [<- | Hne].
    + right. exists c. split; [apply list_elem_of_here | done].
    + unfold insert in Hin. rewrite lookup_insert_ne in Hin by done. by left.
  - right. exists c'. split; [by apply list_elem_of_further | done].
Qed.

(** X1. Over any sequence of invocations the cache only grows: every
    entry stays exactly as it was stored, and every key that appears is
    the origin followed by the path of one of the requests served. *)
Theorem cache_only_grows origin calls s :
  cache s ⊆ cache (run origin calls s) /\
  (forall k, is_Some (cache (run origin calls s) !! k) ->
             is_Some (cache s !! k) \/
             exists c, c ∈ calls /\ k = origin +:+ Path (call_request c)).
Proof.
  split.
  - apply map_subseteq_spec. intros k item. apply run_entry_stable.
  - intros k. apply run_new_keys.
Qed.

(** X2. A hit reads neither the origin nor the clock, and the time stored
    in the entry is not read either: the outcome is the same in every
    environment, and the response is the same whatever [CachedAt]
    holds. *)
Theorem hit_ignores_origin_and_clock e w r origin s item :
  cache s !! (origin +:+ Path r) = Some item ->
  (forall e', HandleRequest e' w r origin s = HandleRequest e w r origin s) /\
  (forall t,
     writer (HandleRequest e w r origin
               {| cache :=
                    <[origin +:+ Path r :=
                        {| Response := Response item; Headers := Headers item;
                           CachedAt := t |}]> (cache s);
                  heap := heap s |})
     = writer (HandleRequest e w r origin s)).
Proof.
  intros Hc. split.
  - intros e'. unfold HandleRequest, lookup. by rewrite Hc.
  - intros t. unfold HandleRequest, lookup. cbn [cache heap].
    rewrite lookup_insert_eq, Hc. cbn [Headers Response].
    by destruct (Header_Set _ _ _ _).
Qed.

(** *** Header fields on a miss and on the hits that follow *)

(** X3. On a miss that gets through, the handler copies none of the
    fields of the origin response's header ([res.Header]) to the
    response: the header map it leaves on the response writer holds the
    fields the map had before and [X-Cache: MISS], whatever the origin
    sent; the origin's fields go into the stored entry. (What the server adds to a header by itself,
    such as [Date] or a [Content-Type] it guesses from the body, is not
    the handler's doing and is not part of the map.) *)
Theorem miss_sets_only_marker e w r origin s st fields body V :
  cache s !! (origin +:+ Path r) = None ->
  origin_reply e (origin +:+ Path r) = Answer st fields body ->
  Json.Decode body = Json.DecodeOk V ->
  writeErr w = false ->
  closed (heap s) (header w) ->
  let o := HandleRequest e w r origin s in
  contents (heap (state o)) (header (writer o))
  = <["X-Cache" := ["MISS"]]> (contents (heap s) (header w)) /\
  observed (state o) (origin +:+ Path r) = fields.
Proof.
  intros Hc Hr Hd Hw Hcl o. subst o.
  destruct (HandleRequest_miss e w r origin s st fields body V Hc Hr Hd Hw)
    as (res & hp & l & HG & Hl & ->).
  apply Get_spec in HG as (Hres & Hco & Hle & _).
  cbn [writer state heap]. rewrite Write_header. cbn [set_header header].
  split.
  - rewrite contents_insert_fresh;
      [| done | by eapply closed_heap_le].
    by rewrite (contents_heap_le _ _ _ Hcl Hle).
  - unfold observed, lookup. cbn [cache heap]. rewrite lookup_insert_eq.
    cbn [fst Headers].
    by rewrite (contents_heap_le hp _ _ Hres (insert_heap_le _ _ _ Hl)).
Qed.

(** X4. With requests handled one after the other, on every request for
    the path that follows a miss that got through, whatever requests
    come in between, the handler leaves on a response writer whose header
    map was empty exactly the fields of the origin response's header
    ([res.Header]) that came with the cached response, with [X-Cache]
    set to [HIT] (in place of an [X-Cache] of the origin's, if it sent
    one). A [Content-Length] of the origin's is
    among them, although the body handed to the writer is the
    re-encoding. (What the server adds to a header by itself is not part
    of the map.) *)
Theorem hit_replays_origin_fields e w r origin s st fields body V calls e' w' :
  sound s ->
  cache s !! (origin +:+ Path r) = None ->
  origin_reply e (origin +:+ Path r) = Answer st fields body ->
  Json.Decode body = Json.DecodeOk V ->
  writeErr w = false ->
  header w' = ∅ ->
  let o := HandleRequest e w r origin s in
  let o' := HandleRequest e' w' r origin (run origin calls (state o)) in
  contents (heap (state o')) (header (writer o'))
  = <["X-Cache" := ["HIT"]]> fields /\
  (forall cl, fields !! "Content-Length" = Some cl ->
     contents (heap (state o')) (header (writer o')) !! "Content-Length"
     = Some cl /\
     written (writer o')
     = written w' ++ (if writeErr w' then [] else Json.encode V)).
Proof.
  intros Hs Hc Hr Hd Hw He' o o'.
  pose proof (HandleRequest_sound e w r origin s Hs) as Hso.
  fold o in Hso.
  pose proof (run_sound origin calls _ Hso) as Hsr.
  pose proof (run_heap_le origin calls (state o)) as Hler.
  assert (Ho : exists item,
             cache (state o) !! (origin +:+ Path r) = Some item /\
             Response item = Json.encode V /\
             contents (heap (state o)) (Headers item) = fields).
  { subst o.
    destruct (HandleRequest_miss e w r origin s st fields body V Hc Hr Hd Hw)
      as (res & hp & l & HG & Hl & ->).
    apply Get_spec in HG as (Hres & Hco & _).
    eexists. cbn [state cache heap]. split; [apply lookup_insert_eq |].
    cbn [Headers Response]. split; [done |].
    by rewrite (contents_heap_le hp _ _ Hres (insert_heap_le _ _ _ Hl)). }
  destruct Ho as (item & Hitem & Hresp & Hco).
  pose proof (run_entry_stable origin calls _ _ _ Hitem) as Hrun.
  assert (Hmap : contents (heap (state o')) (header (writer o'))
                 = <["X-Cache" := ["HIT"]]> fields).
  { subst o'.
    destruct (HandleRequest_hit e' w' r origin _ item Hrun) as (l & Hl & ->).
    cbn [writer state heap]. rewrite Write_header. cbn [set_header header].
    rewrite He', (right_id_L ∅ (∪)).
    rewrite contents_insert_fresh; [| done | by apply (Hsr _ _ Hrun)].
    by rewrite (contents_heap_le _ _ _ (Hso _ _ Hitem) Hler), Hco. }
  split; [exact Hmap |].
  intros cl Hcl. split.
  - rewrite Hmap. by rewrite lookup_insert_ne.
  - destruct (hit_outcome e' w' r origin _ item Hrun)
      as (_ & _ & _ & _ & _ & Hb & _).
    fold o' in Hb. by rewrite Hb, Hresp.
Qed.

(** X5. The handler never stores into a header slice: over any sequence
    of invocations the header fields a lookup observes for a stored entry
    stay what they were. *)
Theorem handler_keeps_stored_fields origin calls s key item :
  sound s ->
  cache s !! key = Some item ->
  observed (run origin calls s) key = observed s key.
Proof.
  intros Hs Hk. unfold observed, lookup.
  rewrite (run_entry_stable origin calls s key item Hk), Hk. cbn [fst].
  apply contents_heap_le; [by apply (Hs key) | apply run_heap_le].
Qed.

(** X6. Requests never touch the entry of another path: over any
    sequence of invocations none of which asks for the path, the lookup
    under the key of that path gives what it gave before. *)
Theorem other_paths_untouched origin calls s r :
  (forall c, c ∈ calls -> Path (call_request c) <> Path r) ->
  cache (run origin calls s) !! (origin +:+ Path r)
  = cache s !! (origin +:+ Path r).
Proof.
  intros Hp.
  destruct (cache s !! (origin +:+ Path r)) as [item|] eqn:Hs.
  - by apply run_entry_stable.
  - apply eq_None_not_Some. intros Hk.
    destruct (run_new_keys _ _ _ _ Hk) as [Hin | (c & Hc & Heq)].
    + rewrite Hs in Hin. by destruct Hin.
    + apply (Hp c Hc). symmetry. by apply (inj (String.app origin)).
Qed.

(** *** A client that takes no bytes *)

Lemma Write_writeErr b w hp : writeErr (Write b w hp).1 = writeErr w.
Proof.
  unfold Write, WriteHeader.
  destruct (wroteHeader w); simpl; by destruct (writeErr w) eqn:E.
Qed.

Lemma Error_written msg code w hp :
  written (Error msg code w hp).1
  = written w ++
    (if writeErr w then [] else list_ascii_of_string msg ++ [newline]).
Proof.
  unfold Error.
  destruct (Header_Set_spec "Content-Type" "text/plain; charset=utf-8"
              (header w) hp) as (l1 & _ & ->).
  destruct (Header_Set_spec "X-Content-Type-Options" "nosniff"
              (<["Content-Type" := l1]> (header w))
              (<[l1 := ["text/plain; charset=utf-8"]]> hp)) as (l2 & _ & ->).
  cbn [fst]. rewrite Write_written. unfold WriteHeader, set_header.
  by destruct (wroteHeader w).
Qed.

Lemma fail_written msg code w c hp urls :
  written (writer (fail msg code w c hp urls))
  = written w ++
    (if writeErr w then [] else list_ascii_of_string msg ++ [newline]).
Proof.
  pose proof (Error_written msg code w hp) as H.
  unfold fail. by destruct (Error msg code w hp).
Qed.

(** X7. When the client's connection refuses the body of a miss, the
    handler stores nothing, although the origin's body decoded: the
    status 200 sent with the header stays (the 500 that follows comes
    after it), no byte is written, and the next request for the path
    fetches from the origin again. *)
Theorem refused_write_stores_nothing e w r origin s st fields body V e' w' :
  cache s !! (origin +:+ Path r) = None ->
  origin_reply e (origin +:+ Path r) = Answer st fields body ->
  Json.Decode body = Json.DecodeOk V ->
  writeErr w = true ->
  wroteHeader w = None ->
  let o := HandleRequest e w r origin s in
  cache (state o) = cache s /\
  status (writer o) = Some StatusOK /\
  written (writer o) = written w /\
  fetched (HandleRequest e' w' r origin (state o)) = [origin +:+ Path r].
Proof.
  intros Hc Hr Hd Hw Hh o.
  destruct (HandleRequest_write_fails e w r origin s st fields body V
              Hc Hr Hd Hw) as [Hcache _].
  fold o in Hcache. split; [done |].
  split; [by apply (decoded_status e w r origin s st fields body V) |].
  split.
  - subst o. unfold HandleRequest, lookup. rewrite Hc, Hr.
    destruct (Get (Answer st fields body) (heap s)) as [ores hp] eqn:EG.
    assert (exists res, ores = Some res /\ Body res = body)
      as (res & -> & Hb).
    { unfold Get in EG. destruct (alloc_fields _ _). injection EG as <- _.
      eauto. }
    rewrite Hb, Hd.
    destruct (Header_Set_spec "X-Cache" "MISS" (header w) hp)
      as (l & Hl & ->).
    unfold Encode, Json.Marshal.
    pose proof (Write_ok (Json.encode V ++ [newline])
                  (set_header (<["X-Cache" := l]> (header w)) w)
                  (<[l := ["MISS"]]> hp)) as Hok.
    pose proof (Write_written (Json.encode V ++ [newline])
                  (set_header (<["X-Cache" := l]> (header w)) w)
                  (<[l := ["MISS"]]> hp)) as Hwr.
    pose proof (Write_writeErr (Json.encode V ++ [newline])
                  (set_header (<["X-Cache" := l]> (header w)) w)
                  (<[l := ["MISS"]]> hp)) as Herr.
    cbn [set_header writeErr written] in Hok, Hwr, Herr.
    rewrite Hw in Hok, Hwr, Herr.
    destruct (Write _ _ _) as [w1 ok]. cbn [fst snd] in *. subst ok.
    cbn [negb]. rewrite fail_written, Herr, Hwr. by rewrite !app_nil_r.
  - apply miss_fetches_once. by rewrite Hcache.
Qed.

(** *** The two error responses *)

Lemma fail_response msg code w c hp urls :
  wroteHeader w = None ->
  header w !! "X-Cache" = None ->
  let o := fail msg code w c hp urls in
  marker o = None /\
  exists f,
    sent_fields (writer o) = Some f /\
    f !! "Content-Type" = Some ["text/plain; charset=utf-8"] /\
    f !! "X-Content-Type-Options" = Some ["nosniff"] /\
    f !! "X-Cache" = None.
Proof.
  intros Hh Hx. unfold fail, Error.
  destruct (Header_Set_spec "Content-Type" "text/plain; charset=utf-8"
              (header w) hp) as (l1 & Hl1 & ->).
  destruct (Header_Set_spec "X-Content-Type-Options" "nosniff"
              (<["Content-Type" := l1]> (header w))
              (<[l1 := ["text/plain; charset=utf-8"]]> hp))
    as (l2 & Hl2 & ->).
  cbv zeta. unfold marker. cbn [writer state heap fst].
  rewrite Write_header. unfold WriteHeader at 1.
  cbn [set_header wroteHeader header]. rewrite Hh. cbn [header].
  split.
  { rewrite !lookup_insert_ne by done. by rewrite Hx. }
  assert (l1 <> l2) as Hne.
  { intros <-. by rewrite lookup_insert_eq in Hl2. }
  eexists. split.
  { unfold sent_fields, Write, WriteHeader.
    cbn [set_header wroteHeader header writeErr written]. rewrite Hh.
    cbn [wroteHeader writeErr]. by destruct (writeErr w). }
  cbn [snd]. unfold contents. rewrite !lookup_omap.
  split; [| split].
  - rewrite lookup_insert_ne, lookup_insert_eq by done. simpl.
    rewrite lookup_insert_ne by done. apply lookup_insert_eq.
  - rewrite lookup_insert_eq. simpl. apply lookup_insert_eq.
  - rewrite !lookup_insert_ne by done. by rewrite Hx.
Qed.

(** X8. The two error responses in full: when the origin cannot be
    reached the client gets status 502 and the line
    [Error fetching from origin], when the origin's body is rejected it
    gets status 500 and the line [Error decoding response from origin];
    either way the response is marked as plain text with [nosniff], and
    it carries no [X-Cache] field, because the handler sets that field
    only after decoding. *)
Theorem error_responses e w r origin s msg code :
  cache s !! (origin +:+ Path r) = None ->
  wroteHeader w = None ->
  writeErr w = false ->
  header w !! "X-Cache" = None ->
  origin_reply e (origin +:+ Path r) = Unreachable /\
    msg = "Error fetching from origin" /\ code = StatusBadGateway \/
  (exists st fields body,
     origin_reply e (origin +:+ Path r) = Answer st fields body /\
     rejected body) /\
    msg = "Error decoding response from origin" /\
    code = StatusInternalServerError ->
  let o := HandleRequest e w r origin s in
  status (writer o) = Some code /\
  written (writer o) = written w ++ list_ascii_of_string msg ++ [newline] /\
  marker o = None /\
  exists f,
    sent_fields (writer o) = Some f /\
    f !! "Content-Type" = Some ["text/plain; charset=utf-8"] /\
    f !! "X-Content-Type-Options" = Some ["nosniff"] /\
    f !! "X-Cache" = None.
Proof.
  intros Hc Hh Hw Hx Hcase o.
  assert (exists hp, o = fail msg code w (cache s) hp [origin +:+ Path r])
    as (hp & ->).
  { subst o. destruct Hcase as [(Hr & -> & ->) | ((st & fields & body & Hr & Hrej) & -> & ->)].
    - exists (heap s). by apply HandleRequest_unreachable.
    - destruct (HandleRequest_undecodable e w r origin s st fields body Hc Hr)
        as (hp & _ & Heq); [intros v; by apply rejected_Decode |].
      by exists hp. }
  split; [by apply fail_status |].
  split; [by rewrite fail_written, Hw |].
  by apply fail_response.
Qed.

(** *** What the decoder reads of the origin's body *)

(** X9. The decoder reads one JSON value and stops: white space in front
    of an accepted body and any bytes after it change nothing, the
    outcome of the request is the same as for the body alone. *)
Theorem surrounding_bytes_ignored e e' w r origin s st fields lead body rest V :
  forallb Json.isSpace lead = true ->
  Json.Decode body = Json.DecodeOk V ->
  origin_reply e (origin +:+ Path r) = Answer st fields body ->
  origin_reply e' (origin +:+ Path r)
  = Answer st fields (lead ++ body ++ rest) ->
  now e' = now e ->
  HandleRequest e' w r origin s = HandleRequest e w r origin s.
Proof.
  intros Hlead Hd Hr Hr' Hnow.
  pose proof (StreamDecode.Decode_stream lead body rest V Hlead Hd) as Hd'.
  unfold HandleRequest. destruct (lookup _ _) as [item [|]]; [done |].
  rewrite Hr, Hr'. unfold Get.
  destruct (alloc_fields _ _) as [h hp]. cbn [Body resHeader].
  by rewrite Hd, Hd', Hnow.
Qed.

(** X10. A proxy in front of a proxy stores the same bytes: when the
    origin of a second proxy answers with what the first sent to its
    client on a miss or on a hit, the second proxy accepts it, and what it
    stores and what it writes are what the first stored and wrote on its
    miss. *)
Theorem chained_proxies_agree e1 w1 r1 origin1 s1 st1 fields1 body V
    e2 w2 r2 origin2 s2 st2 fields2 item1 :
  cache s1 !! (origin1 +:+ Path r1) = None ->
  origin_reply e1 (origin1 +:+ Path r1) = Answer st1 fields1 body ->
  Json.Decode body = Json.DecodeOk V ->
  writeErr w1 = false -> written w1 = [] ->
  writeErr w2 = false -> written w2 = [] ->
  cache s2 !! (origin2 +:+ Path r2) = None ->
  let o1 := HandleRequest e1 w1 r1 origin1 s1 in
  cache (state o1) !! (origin1 +:+ Path r1) = Some item1 ->
  origin_reply e2 (origin2 +:+ Path r2)
    = Answer st2 fields2 (written (writer o1)) \/
  origin_reply e2 (origin2 +:+ Path r2)
    = Answer st2 fields2 (Response item1) ->
  let o2 := HandleRequest e2 w2 r2 origin2 s2 in
  written (writer o2) = written (writer o1) /\
  exists item2,
    cache (state o2) !! (origin2 +:+ Path r2) = Some item2 /\
    Response item2 = Response item1.
Proof.
  intros Hc1 Hr1 Hd Hw1 Hn1 Hw2 Hn2 Hc2 o1 Hitem Hr2 o2.
  assert (written (writer o1) = Json.encode V ++ [newline] /\
          Response item1 = Json.encode V) as [Hwr1 Hres1].
  { subst o1.
    destruct (HandleRequest_miss e1 w1 r1 origin1 s1 st1 fields1 body V
                Hc1 Hr1 Hd Hw1) as (res & hp & l & _ & _ & Heq).
    rewrite Heq in Hitem |- *. cbn [writer state cache] in *.
    unfold insert in Hitem. rewrite lookup_insert_eq in Hitem.
    injection Hitem as <-.
    rewrite Write_written. cbn [set_header writeErr written].
    by rewrite Hw1, Hn1. }
  assert (exists body2,
             origin_reply e2 (origin2 +:+ Path r2) = Answer st2 fields2 body2 /\
             Json.Decode body2 = Json.DecodeOk V) as (body2 & Hr2' & Hd2).
  { destruct Hr2 as [Hr2 | Hr2]; eexists; (split; [exact Hr2 |]).
    - rewrite Hwr1. apply (decoded_roundtrip body); [done | reflexivity].
    - rewrite Hres1. by apply (decoded_roundtrip_bare body). }
  subst o2.
  destruct (HandleRequest_miss e2 w2 r2 origin2 s2 st2 fields2 body2 V
              Hc2 Hr2' Hd2 Hw2) as (res & hp & l & _ & _ & ->).
  cbn [writer state cache]. split.
  - rewrite Write_written. cbn [set_header writeErr written].
    by rewrite Hw2, Hn2, Hwr1.
  - eexists. unfold insert. rewrite lookup_insert_eq. split; [done |].
    by rewrite Hres1.
Qed.

End Behaviour.
End Behaviour.

(** ** The lock protocol, further

    What the interleaving model of [HandleRequest] shows beyond the
    atomicity of a store: the locks are given back on every path, two
    invocations for one uncached path both go to the origin, and a
    stored key is found by every later lookup. *)

Module Locking.
Import Http Proxy Conc.
Local Close Scope char_scope.

(** An invocation that has stored an entry has its key in the log. *)
Definition Stored (c : config) : Prop :=
  forall j tj, threads c !! j = Some tj ->
               is_Some (stored_by (tpc tj)) -> is_Some (log c !! tkey tj).

Lemma start_Stored keys cache0 : Stored (start keys cache0).
Proof.
  intros j tj Hj. simpl in Hj.
  apply list_lookup_fmap_Some in Hj as (k & -> & _). simpl.
  by intros [? ?].
Qed.

Lemma exec_log_keys i o c c' k :
  exec i o c = Some c' -> is_Some (log c !! k) -> is_Some (log c' !! k).
Proof.
  intros E Hk.
  destruct (exec_log _ _ _ _ E) as [-> | (t & item & n & _ & _ & ->)];
    [done |].
  rewrite lookup_insert_is_Some.
  destruct (decide (tkey t = k)); auto.
Qed.

Lemma steps_log_keys sched k :
  forall c c', steps sched c = Some c' ->
               is_Some (log c !! k) -> is_Some (log c' !! k).
Proof.
  induction sched as [|[i o] rest IH]; intros c c'; simpl.
  - by intros [= <-].
  - destruct (exec i o c) as [c1|] eqn:E; [| done].
    intros Hrun Hk. apply (IH _ _ Hrun). by apply (exec_log_keys _ _ _ _ _ E).
Qed.

Lemma exec_Stored i o c c' : Stored c -> exec i o c = Some c' -> Stored c'.
Proof.
  intros HS E j tj Hj Hst.
  pose proof (fun k => exec_log_keys _ _ _ _ k E) as Hmono.
  pose proof (exec_log _ _ _ _ E) as Hlog.
  unfold exec in E. destruct (threads c !! i) as [t|] eqn:Hi; [| done].
  assert (Hother : j <> i -> threads c !! j = Some tj ->
                   is_Some (log c' !! tkey tj)).
  { intros _ Hj'. apply Hmono. by apply (HS j tj). }
  destruct (tpc t) as [| |found|item| | | |item n|stored|seen stored] eqn:Hp;
    repeat case_match; try done; injection E as <-; simpl in *;
    apply (set_pc_lookup _ _ _ _ _ _ _ Hi) in Hj as [[-> ->] | [Hne Hj]];
    simpl in *; try (by apply Hother); try (by destruct Hst).
  - destruct Hlog as [Heq | (t' & item' & n' & Ht' & Hp' & Heq)];
      simpl in Heq.
    + rewrite lookup_insert_eq. eauto.
    + rewrite lookup_insert_eq. eauto.
  - apply (HS i t Hi). by rewrite Hp.
Qed.

Lemma steps_Stored sched :
  forall c c', Stored c -> steps sched c = Some c' -> Stored c'.
Proof.
  induction sched as [|[i o] rest IH]; intros c c' HS; simpl.
  - by intros [= <-].
  - destruct (exec i o c) as [c1|] eqn:E; [| done].
    apply IH. by apply (exec_Stored _ _ _ _ HS E).
Qed.

(** X11. The locks are given back on every path, the failing
    [json.Marshal] included: in every configuration any schedule can
    reach, an invocation outside lines 48-49 holds no read lock and one
    outside lines 84-102 does not hold the write lock (so the fetch from
    the origin runs without a lock), and once all invocations have
    returned the lock is free. *)
Theorem locks_are_released keys cache0 sched c :
  steps sched (start keys cache0) = Some c ->
  (forall i t, threads c !! i = Some t ->
     (reading (tpc t) = false -> i ∉ readers c) /\
     (writing (tpc t) = false -> writer c <> Some i)) /\
  (Forall finished (threads c) -> readers c = ∅ /\ writer c = None).
Proof.
  intros Hrun.
  pose proof (steps_Inv cache0 sched _ _ (start_Inv keys cache0) Hrun)
    as [Hrd Hwr Hex Hmem Hbd Hlog Hho Hri].
  split.
  - intros i t Hi. split.
    + intros Hr Hin. apply (Hrd i t Hi) in Hin. congruence.
    + intros Hw Hin. apply (Hwr i t Hi) in Hin. congruence.
  - intros Hfin. rewrite Forall_lookup in Hfin. split.
    + apply set_eq. intros i. split; [| set_solver]. intros Hin.
      destruct (Hri i Hin) as [t Hi].
      apply (Hrd i t Hi) in Hin. specialize (Hfin i t Hi).
      unfold finished in Hfin. by destruct (tpc t).
    + destruct (writer c) as [i|] eqn:Hw; [| done].
      destruct (Hho i eq_refl) as [t Hi].
      pose proof (proj2 (Hwr i t Hi) eq_refl) as Hwi.
      specialize (Hfin i t Hi).
      unfold finished in Hfin. by destruct (tpc t).
Qed.

(** The six steps of a store, from the point where the lock is free. *)
Lemma store_by_run i item c t :
  threads c !! i = Some t -> tpc t = AtLock ->
  writer c = None -> readers c = ∅ ->
  steps (store_by i item) c
  = Some {| threads := set_pc i (tkey t) (Done None (Some item)) c;
            mem := <[tkey t := item]> (mem c);
            log := <[tkey t := item]> (log c);
            readers := readers c; writer := None |}.
Proof.
  intros Hi Hp Hw Hr. pose proof (lookup_lt_Some _ _ _ Hi) as Hlt.
  unfold store_by. cbn [steps]. unfold exec at 1.
  rewrite Hi, Hp, Hw. destruct (decide (readers c = ∅)); [| done].
  do 5 (unfold exec at 1; unfold set_pc; cbn [threads mem log readers writer];
        rewrite ?list_insert_insert_eq;
        rewrite list_lookup_insert_eq by exact Hlt; cbn [tkey tpc];
        try match goal with
            | |- context [decide (?n < 2)%nat] =>
                destruct (decide (n < 2)%nat); [try (exfalso; lia)
                                               | try (exfalso; lia)]
            end;
        rewrite ?slot_insert, ?insert_insert_eq).
  unfold set_pc. rewrite ?list_insert_insert_eq. do 2 f_equal.
  cbn [field_write Response Headers CachedAt]. by destruct item.
Qed.

(** Two invocations look the key up before either stores; then each
    fetches and stores its entry, the first before the second. *)
Definition race (a b : CacheItem) : list (nat * option CacheItem) :=
  [(0, None); (1, None);     (* RLock, RLock *)
   (0, None); (1, None);     (* both read *)
   (0, None); (1, None);     (* RUnlock, RUnlock *)
   (0, Some a); (1, Some b)  (* both get through lines 62-80 *)
  ]%nat ++ store_by 0 a ++ store_by 1 b.

(** X12. Misses are not coalesced: two requests for one uncached path
    that arrive together can both find the key absent, both fetch from
    the origin and both store; the entry stored last stays. *)
Theorem concurrent_misses_both_store k (cache0 : gmap string CacheItem) a b :
  cache0 !! k = None ->
  exists c,
    steps (race a b) (start [k; k] cache0) = Some c /\
    threads c = [ {| tkey := k; tpc := Done None (Some a) |};
                  {| tkey := k; tpc := Done None (Some b) |} ] /\
    mem c = <[k := b]> cache0.
Proof.
  intros Hk.
  assert (Hr : (({[1%nat]} ∪ ({[0%nat]} ∪ ∅)) ∖ {[0%nat]}) ∖ {[1%nat]}
               = (∅ : gset nat)) by set_solver.
  set (waiting := {| tkey := k; tpc := AtLock |}).
  set (c1 := {| threads := [waiting; waiting]; mem := cache0; log := cache0;
                readers := ∅; writer := None |}).
  assert (H1 : steps [(0, None); (1, None); (0, None); (1, None);
                      (0, None); (1, None); (0, Some a); (1, Some b)]%nat
                 (start [k; k] cache0) = Some c1).
  { cbn. rewrite Hk. cbn. by rewrite Hr. }
  pose proof (store_by_run 0 a c1 waiting eq_refl eq_refl eq_refl eq_refl)
    as H2.
  eexists. split; [| split].
  - unfold race. apply (steps_app _ _ _ _ _ H1).
    apply (steps_app _ _ _ _ _ H2).
    apply (store_by_run 1 b _ waiting); reflexivity.
  - reflexivity.
  - cbn. apply insert_insert_eq.
Qed.

(** X13. A key never disappears: when the key was in the cache at the
    start, or an invocation has completed its store for it, every lookup
    for that key from then on, under any schedule, finds an entry. *)
Theorem stored_key_stays_found keys cache0 sched c sched' c' i t o c'' :
  steps sched (start keys cache0) = Some c ->
  is_Some (cache0 !! tkey t) \/
  (exists j tj, threads c !! j = Some tj /\ tkey tj = tkey t /\
                is_Some (stored_by (tpc tj))) ->
  steps sched' c = Some c' ->
  threads c' !! i = Some t ->
  tpc t = AtRead ->
  exec i o c' = Some c'' ->
  exists item,
    threads c'' !! i
    = Some {| tkey := tkey t; tpc := AtRUnlock (Some item) |}.
Proof.
  intros Hrun Hsrc Hrun' Hi Hp Hexec.
  pose proof (steps_Inv cache0 sched _ _ (start_Inv keys cache0) Hrun) as HI.
  pose proof (steps_Inv cache0 sched' _ _ HI Hrun')
    as [Hrd Hwr Hex Hmem Hbd Hlog Hho Hri].
  assert (Hkey : is_Some (log c' !! tkey t)).
  { apply (steps_log_keys sched' _ _ _ Hrun').
    destruct Hsrc as [H0 | (j & tj & Hj & Hkj & Hst)].
    - by apply (steps_log_keys sched _ _ _ Hrun).
    - rewrite <- Hkj.
      by apply (steps_Stored sched _ _ (start_Stored keys cache0) Hrun j tj). }
  assert (Hin : i ∈ readers c') by (apply (Hrd i t Hi); by rewrite Hp).
  assert (Hnw : writer c' = None).
  { destruct (writer c') as [j|] eqn:E; [| done].
    rewrite (Hex j eq_refl) in Hin. set_solver. }
  assert (Hm : mem c' = log c') by (by rewrite Hmem, Hnw).
  destruct Hkey as [item Hitem]. exists item.
  unfold exec in Hexec. rewrite Hi, Hp in Hexec.
  injection Hexec as <-. simpl.
  by rewrite (set_pc_lookup_eq _ _ _ _ _ Hi), Hm, Hitem.
Qed.

(** A key whose log entry differs from the start has been stored by an
    invocation for it. *)
Definition Traced (cache0 : gmap string CacheItem) (c : config) : Prop :=
  forall k, log c !! k = cache0 !! k \/
            exists i t, threads c !! i = Some t /\ tkey t = k /\
                        is_Some (stored_by (tpc t)).

Lemma start_Traced keys cache0 : Traced cache0 (start keys cache0).
Proof. intros k. by left. Qed.

Lemma exec_stored_kept i o c c' j tj :
  exec i o c = Some c' ->
  threads c !! j = Some tj -> is_Some (stored_by (tpc tj)) ->
  exists tj', threads c' !! j = Some tj' /\ tkey tj' = tkey tj /\
              is_Some (stored_by (tpc tj')).
Proof.
  intros E Hj Hst. unfold exec in E.
  destruct (threads c !! i) as [t|] eqn:Hi; [| done].
  destruct (decide (j = i)) as [-> | Hne].
  - rewrite Hi in Hj. injection Hj as <-.
    destruct (tpc t) as [| |found|item| | | |item n|stored|seen stored] eqn:Hp;
      simpl in Hst; try (by destruct Hst).
    injection E as <-. simpl.
    rewrite (set_pc_lookup_eq _ _ _ _ _ Hi). eauto.
  - exists tj. split; [| done].
    destruct (tpc t) as [| |found|item| | | |item n|stored|seen stored];
      repeat case_match; try done; injection E as <-; simpl;
      by rewrite set_pc_lookup_ne.
Qed.

Lemma exec_Traced cache0 i o c c' :
  Traced cache0 c -> exec i o c = Some c' -> Traced cache0 c'.
Proof.
  intros HT E k. destruct (HT k) as [Hk | (j & tj & Hj & Hkj & Hst)].
  - unfold exec in E. destruct (threads c !! i) as [t|] eqn:Hi; [| done].
    destruct (tpc t) as [| |found|item| | | |item n|stored|seen stored] eqn:Hp;
      repeat case_match; try done; injection E as <-; simpl;
      try (by left).
    destruct (decide (tkey t = k)) as [Heq | Hne].
    + right. exists i. rewrite (set_pc_lookup_eq _ _ _ _ _ Hi). eauto.
    + left. by rewrite lookup_insert_ne.
  - right. exists j.
    destruct (exec_stored_kept _ _ _ _ _ _ E Hj Hst) as (tj' & Hj' & Hk' & Hst').
    exists tj'. split; [done |]. split; [congruence | done].
Qed.

Lemma steps_Traced cache0 sched :
  forall c c', Traced cache0 c -> steps sched c = Some c' -> Traced cache0 c'.
Proof.
  induction sched as [|[i o] rest IH]; intros c c' HT; simpl.
  - by intros [= <-].
  - destruct (exec i o c) as [c1|] eqn:E; [| done].
    apply IH. by apply (exec_Traced _ _ _ _ _ HT E).
Qed.

(** X14. Invocations that store nothing leave no trace: once all
    invocations have returned, under any schedule, a key for which none
    of them stored an entry (they were hits, or failed before line 97)
    holds what it held at the start. *)
Theorem unstored_keys_unchanged keys cache0 sched c k :
  steps sched (start keys cache0) = Some c ->
  Forall finished (threads c) ->
  (forall i t, threads c !! i = Some t -> tkey t = k ->
               stored_by (tpc t) = None) ->
  mem c !! k = cache0 !! k.
Proof.
  intros Hrun Hfin Hnone.
  pose proof (steps_Inv cache0 sched _ _ (start_Inv keys cache0) Hrun)
    as [Hrd Hwr Hex Hmem Hbd Hlog Hho Hri].
  pose proof (steps_Traced cache0 sched _ _ (start_Traced keys cache0) Hrun k)
    as HT.
  assert (Hnw : writer c = None).
  { destruct (writer c) as [j|] eqn:E; [| done].
    destruct (Hho j eq_refl) as [t Hj].
    pose proof (proj2 (Hwr j t Hj) eq_refl) as Hw.
    rewrite Forall_lookup in Hfin. specialize (Hfin j t Hj).
    unfold finished in Hfin. by destruct (tpc t). }
  rewrite Hmem, Hnw.
  destruct HT as [Hk | (i & t & Hi & Hki & Hst)]; [done |].
  rewrite (Hnone i t Hi Hki) in Hst. by destruct Hst.
Qed.

End Locking.

(** ** Later hits when requests overlap

    C6 and C10 speak of the body served on every later hit. Read for
    requests that overlap, they say: once an invocation has stored the
    encoding of the value its origin response decoded to, every later
    lookup of the key finds that body. *)

Module Overlap.
Import Http Proxy Conc.
Local Close Scope char_scope.
Section Overlap.
Context {SC : Strconv}.

(** C6 as the claim words it: the body a later lookup finds decodes to
    the value [V] of the invocation that stored. *)
Definition later_hits_decode_to_value (keys : list string)
  (cache0 : gmap string CacheItem) (sched : list (nat * option CacheItem))
  : Prop :=
  forall c i t body V h tm j tj o c',
    steps sched (start keys cache0) = Some c ->
    Json.Decode body = Json.DecodeOk V ->
    threads c !! i = Some t ->
    stored_by (tpc t)
    = Some {| Response := Json.encode V; Headers := h; CachedAt := tm |} ->
    threads c !! j = Some tj -> tkey tj = tkey t -> tpc tj = AtRead ->
    exec j o c = Some c' ->
    exists item,
      threads c' !! j
      = Some {| tkey := tkey tj; tpc := AtRUnlock (Some item) |} /\
      Json.Decode (Response item) = Json.DecodeOk V.

(** C10 as the claim words it: the body a later lookup finds is the
    encoding of the value [V] of the invocation that stored. *)
Definition later_hits_serve_encoding (keys : list string)
  (cache0 : gmap string CacheItem) (sched : list (nat * option CacheItem))
  : Prop :=
  forall c i t body V h tm j tj o c',
    steps sched (start keys cache0) = Some c ->
    Json.Decode body = Json.DecodeOk V ->
    threads c !! i = Some t ->
    stored_by (tpc t)
    = Some {| Response := Json.encode V; Headers := h; CachedAt := tm |} ->
    threads c !! j = Some tj -> tkey tj = tkey t -> tpc tj = AtRead ->
    exec j o c = Some c' ->
    exists item,
      threads c' !! j
      = Some {| tkey := tkey tj; tpc := AtRUnlock (Some item) |} /\
      Response item = Json.encode V.

End Overlap.
End Overlap.

(** ** Further concrete runs *)

Module Cases.
Import Small Http Conc Proxy Scenario Behaviour Locking.
Local Close Scope char_scope.

Definition req_y : Request := {| Path := "/y"; RawQuery := "" |}.

(** A request for [/y] that finds the origin gone. *)
Definition call_y : call :=
  {| call_env := env_down; call_writer := fresh_writer; call_request := req_y |}.

(** A request for [/x] answered by the origin. *)
Definition call_x : call :=
  {| call_env := env_json; call_writer := fresh_writer; call_request := req_x |}.

(** A client that has gone away: every write fails. *)
Definition gone_writer : ResponseWriter :=
  {| header := ∅; wroteHeader := None; written := []; writeErr := true |}.

Definition body_padded : bytes :=
  bytes_of "  " ++ body_spaced ++ bytes_of "] trailing".

(** A second proxy, whose origin is the first. *)
Definition proxy2 : string := "http://proxy".
Definition env_proxy : Env := answers 200 (written (writer first_x)).

Lemma decode_spaced : Json.Decode body_spaced = Json.DecodeOk value_a.
Proof. vm_compute. reflexivity. Qed.

Lemma fresh_closed hp : closed hp (header fresh_writer).
Proof. intros k l H. simpl in H. by rewrite lookup_empty in H. Qed.

Lemma s1_sound : sound s1.
Proof. apply HandleRequest_sound, init_sound. Qed.

Lemma hit_ignores_origin_and_clock_witness :
  cache s1 !! (origin +:+ Path req_x) = Some item_x /\
  HandleRequest env_json fresh_writer req_x origin s1 = second_x.
Proof.
  assert (H : cache s1 !! (origin +:+ Path req_x) = Some item_x)
    by (vm_compute; reflexivity).
  split; [exact H |].
  exact (proj1 (hit_ignores_origin_and_clock env_down fresh_writer req_x
                  origin s1 item_x H) env_json).
Defined.

Lemma miss_sets_only_marker_witness :
  cache init !! (origin +:+ Path req_x) = None /\
  Json.Decode body_spaced = Json.DecodeOk value_a /\
  contents (heap s1) (header (Proxy.writer first_x))
  = <["X-Cache" := ["MISS"]]>
      (contents (heap init) (header fresh_writer)) /\
  observed s1 (origin +:+ Path req_x) = json_fields.
Proof.
  split; [reflexivity |]. split; [exact decode_spaced |].
  apply (miss_sets_only_marker env_json fresh_writer req_x origin init
           200 json_fields body_spaced value_a);
    [reflexivity | reflexivity | exact decode_spaced | reflexivity
    | apply fresh_closed].
Defined.

Lemma hit_replays_origin_fields_witness :
  sound init /\
  Json.Decode body_spaced = Json.DecodeOk value_a /\
  let o' := HandleRequest env_down fresh_writer req_x origin
              (run origin [call_y] s1) in
  contents (heap (state o')) (header (Proxy.writer o'))
  = <["X-Cache" := ["HIT"]]> json_fields.
Proof.
  split; [exact init_sound |]. split; [exact decode_spaced |].
  apply (hit_replays_origin_fields env_json fresh_writer req_x origin init
           200 json_fields body_spaced value_a [call_y] env_down
           fresh_writer);
    [exact init_sound | reflexivity | reflexivity | exact decode_spaced
    | reflexivity | reflexivity].
Defined.

Lemma handler_keeps_stored_fields_witness :
  sound s1 /\
  cache s1 !! key_x = Some item_x /\
  observed (run origin [call_y; call_x] s1) key_x = observed s1 key_x.
Proof.
  assert (H : cache s1 !! key_x = Some item_x) by (vm_compute; reflexivity).
  split; [exact s1_sound |]. split; [exact H |].
  apply (handler_keeps_stored_fields origin [call_y; call_x] s1 key_x item_x);
    [exact s1_sound | exact H].
Defined.

Lemma other_paths_untouched_witness :
  (forall c, c ∈ [call_x] -> Path (call_request c) <> Path req_y) /\
  cache (run origin [call_x] init) !! (origin +:+ Path req_y)
  = cache init !! (origin +:+ Path req_y).
Proof.
  assert (H : forall c, c ∈ [call_x] -> Path (call_request c) <> Path req_y).
  { intros c Hc. apply list_elem_of_singleton in Hc. subst c. simpl.
    discriminate. }
  split; [exact H |].
  apply (other_paths_untouched origin [call_x] init req_y H).
Defined.

Lemma refused_write_stores_nothing_witness :
  cache init !! (origin +:+ Path req_x) = None /\
  Json.Decode body_spaced = Json.DecodeOk value_a /\
  writeErr gone_writer = true /\
  let o := HandleRequest env_json gone_writer req_x origin init in
  cache (state o) = cache init /\
  status (writer o) = Some StatusOK /\
  written (writer o) = written gone_writer /\
  fetched (HandleRequest env_json fresh_writer req_x origin (state o))
  = [origin +:+ Path req_x].
Proof.
  split; [reflexivity |]. split; [exact decode_spaced |].
  split; [reflexivity |].
  apply (refused_write_stores_nothing env_json gone_writer req_x origin init
           200 json_fields body_spaced value_a env_json fresh_writer);
    [reflexivity | reflexivity | exact decode_spaced | reflexivity
    | reflexivity].
Defined.

Lemma error_responses_witness :
  cache init !! (origin +:+ Path req_x) = None /\
  origin_reply env_down (origin +:+ Path req_x) = Unreachable /\
  let o := HandleRequest env_down fresh_writer req_x origin init in
  status (writer o) = Some StatusBadGateway /\
  written (writer o)
  = written fresh_writer ++
    list_ascii_of_string "Error fetching from origin" ++ [newline] /\
  marker o = None /\
  exists f,
    sent_fields (writer o) = Some f /\
    f !! "Content-Type" = Some ["text/plain; charset=utf-8"] /\
    f !! "X-Content-Type-Options" = Some ["nosniff"] /\
    f !! "X-Cache" = None.
Proof.
  split; [reflexivity |]. split; [reflexivity |].
  apply (error_responses env_down fresh_writer req_x origin init
           "Error fetching from origin" StatusBadGateway);
    [reflexivity | reflexivity | reflexivity | reflexivity |].
  left. split; [reflexivity |]. split; reflexivity.
Defined.

Lemma surrounding_bytes_ignored_witness :
  forallb Json.isSpace (bytes_of "  ") = true /\
  Json.Decode body_spaced = Json.DecodeOk value_a /\
  HandleRequest (answers 200 body_padded) fresh_writer req_x origin init
  = first_x.
Proof.
  split; [reflexivity |]. split; [exact decode_spaced |].
  apply (surrounding_bytes_ignored env_json (answers 200 body_padded)
           fresh_writer req_x origin init 200 json_fields
           (bytes_of "  ") body_spaced (bytes_of "] trailing") value_a);
    [reflexivity | exact decode_spaced | reflexivity | reflexivity
    | reflexivity].
Defined.

Lemma chained_proxies_agree_witness :
  cache init !! (origin +:+ Path req_x) = None /\
  Json.Decode body_spaced = Json.DecodeOk value_a /\
  cache (state first_x) !! (origin +:+ Path req_x) = Some item_x /\
  let o2 := HandleRequest env_proxy fresh_writer req_x proxy2 init in
  written (writer o2) = written (writer first_x) /\
  exists item2,
    cache (state o2) !! (proxy2 +:+ Path req_x) = Some item2 /\
    Response item2 = Response item_x.
Proof.
  assert (H : cache (state first_x) !! (origin +:+ Path req_x) = Some item_x)
    by (vm_compute; reflexivity).
  split; [reflexivity |]. split; [exact decode_spaced |].
  split; [exact H |].
  apply (chained_proxies_agree env_json fresh_writer req_x origin init
           200 json_fields body_spaced value_a
           env_proxy fresh_writer req_x proxy2 init 200 json_fields item_x);
    [reflexivity | reflexivity | exact decode_spaced | reflexivity
    | reflexivity | reflexivity | reflexivity | reflexivity | exact H |].
  left. reflexivity.
Defined.

Lemma locks_are_released_witness :
  steps three_requests begin3 = Some after_three /\
  Forall finished (threads after_three) /\
  readers after_three = ∅ /\ Conc.writer after_three = None.
Proof.
  assert (Hrun : steps three_requests begin3 = Some after_three)
    by (vm_compute; reflexivity).
  assert (Hfin : Forall finished (threads after_three))
    by (vm_compute; repeat constructor).
  split; [exact Hrun |]. split; [exact Hfin |].
  exact (proj2 (locks_are_released [key_x; key_x; key_x] ∅ three_requests
                  after_three Hrun) Hfin).
Defined.

Lemma concurrent_misses_both_store_witness :
  (∅ : gmap string CacheItem) !! key_x = None /\
  exists c,
    steps (race item_x item_b) (start [key_x; key_x] ∅) = Some c /\
    threads c = [ {| tkey := key_x; tpc := Done None (Some item_x) |};
                  {| tkey := key_x; tpc := Done None (Some item_b) |} ] /\
    mem c = <[key_x := item_b]> ∅.
Proof.
  split; [reflexivity |].
  apply (concurrent_misses_both_store key_x ∅ item_x item_b). reflexivity.
Defined.

(** The first invocation has stored; the second stores and the third
    takes the read lock. *)
Definition first_stored : config :=
  default begin3 (steps (both_miss ++ store_by 0 item_x) begin3).

Definition third_reads : config :=
  default begin3
    (steps (store_by 1 item_b ++ [(2, None)]%nat) first_stored).

Definition third_found : config :=
  default begin3 (exec 2 None third_reads).

Lemma stored_key_stays_found_witness :
  steps (both_miss ++ store_by 0 item_x) (start [key_x; key_x; key_x] ∅)
  = Some first_stored /\
  threads first_stored !! 0%nat
  = Some {| tkey := key_x; tpc := Done None (Some item_x) |} /\
  steps (store_by 1 item_b ++ [(2, None)]%nat) first_stored
  = Some third_reads /\
  threads third_reads !! 2%nat = Some {| tkey := key_x; tpc := AtRead |} /\
  exec 2 None third_reads = Some third_found /\
  exists item,
    threads third_found !! 2%nat
    = Some {| tkey := key_x; tpc := AtRUnlock (Some item) |}.
Proof.
  assert (H1 : steps (both_miss ++ store_by 0 item_x)
                 (start [key_x; key_x; key_x] ∅) = Some first_stored)
    by (vm_compute; reflexivity).
  assert (H2 : threads first_stored !! 0%nat
               = Some {| tkey := key_x; tpc := Done None (Some item_x) |})
    by (vm_compute; reflexivity).
  assert (H3 : steps (store_by 1 item_b ++ [(2, None)]%nat) first_stored
               = Some third_reads)
    by (vm_compute; reflexivity).
  assert (H4 : threads third_reads !! 2%nat
               = Some {| tkey := key_x; tpc := AtRead |})
    by (vm_compute; reflexivity).
  assert (H5 : exec 2 None third_reads = Some third_found)
    by (vm_compute; reflexivity).
  split; [exact H1 |]. split; [exact H2 |]. split; [exact H3 |].
  split; [exact H4 |]. split; [exact H5 |].
  apply (stored_key_stays_found [key_x; key_x; key_x] ∅
           (both_miss ++ store_by 0 item_x) first_stored
           (store_by 1 item_b ++ [(2, None)]%nat) third_reads
           2%nat {| tkey := key_x; tpc := AtRead |} None third_found);
    [exact H1 | | exact H3 | exact H4 | reflexivity | exact H5].
  right. exists 0%nat, {| tkey := key_x; tpc := Done None (Some item_x) |}.
  split; [exact H2 |]. split; [reflexivity |]. simpl. eauto.
Defined.

(** One invocation stores for [/x]; one for [/y] looks up, fetches and
    finds the origin gone. *)
Definition key_y : string := "http://origin/y".

Definition one_fails : list (nat * option CacheItem) :=
  [(0, None); (0, None); (0, None); (0, Some item_x)]%nat ++
  store_by 0 item_x ++
  [(1, None); (1, None); (1, None); (1, None)]%nat.

Definition begin2 : config := start [key_x; key_y] ∅.

Definition after_failure : config :=
  default begin2 (steps one_fails begin2).

Lemma unstored_keys_unchanged_witness :
  steps one_fails (start [key_x; key_y] ∅) = Some after_failure /\
  Forall finished (threads after_failure) /\
  mem after_failure !! key_x = Some item_x /\
  mem after_failure !! key_y = (∅ : gmap string CacheItem) !! key_y.
Proof.
  assert (Hrun : steps one_fails (start [key_x; key_y] ∅) = Some after_failure)
    by (vm_compute; reflexivity).
  assert (Hfin : Forall finished (threads after_failure))
    by (vm_compute; repeat constructor).
  split; [exact Hrun |]. split; [exact Hfin |].
  split; [vm_compute; reflexivity |].
  apply (unstored_keys_unchanged [key_x; key_y] ∅ one_fails after_failure
           key_y Hrun Hfin).
  intros i t Hi Hk. destruct i as [|[|i]]; vm_compute in Hi.
  - injection Hi as <-. vm_compute in Hk. discriminate Hk.
  - injection Hi as <-. reflexivity.
  - discriminate Hi.
Defined.

(** Two requests for [/x] overlap; by the time the second fetches, the
    origin answers with another object. Both store, the second last; a
    third request then takes the read lock. *)
Definition body_two : bytes := bytes_of "{" ++ q "a" ++ bytes_of ":2}".
Definition value_two : Json.value := Json.VObj [(bytes_of "a", Json.VNum 2%N)].
Definition env_two : Env := answers 200 body_two.

Definition item_two : CacheItem :=
  (lookup (cache (state (HandleRequest env_two fresh_writer req_x origin init)))
     key_x).1.

Definition overlapping : list (nat * option CacheItem) :=
  race item_x item_two ++ [(2, None)]%nat.

Definition third_at_read : config :=
  default begin3 (steps overlapping begin3).

Definition third_sees : config :=
  default begin3 (exec 2 None third_at_read).

Example overlapping_run :
  steps overlapping begin3 = Some third_at_read /\
  threads third_at_read !! 0%nat
  = Some {| tkey := key_x; tpc := Done None (Some item_x) |} /\
  threads third_at_read !! 2%nat = Some {| tkey := key_x; tpc := AtRead |} /\
  exec 2 None third_at_read = Some third_sees /\
  threads third_sees !! 2%nat
  = Some {| tkey := key_x; tpc := AtRUnlock (Some item_two) |} /\
  item_x = {| Response := Json.encode value_a; Headers := Headers item_x;
              CachedAt := CachedAt item_x |} /\
  Response item_two = Json.encode value_two /\
  Json.Decode (Response item_two) = Json.DecodeOk value_two.
Proof. repeat (split; [vm_compute; reflexivity |]). vm_compute. reflexivity. Qed.

(** C6 fails as worded when requests overlap: the first invocation's
    origin response decoded to the object with a = 1 and it stored the
    encoding; the lookup that follows finds the body the second
    invocation stored, which decodes to the object with a = 2. *)
Lemma replaced_entry_decodes_to_other_value :
  ~ Overlap.later_hits_decode_to_value [key_x; key_x; key_x] ∅ overlapping.
Proof.
  intros H.
  destruct overlapping_run as (Hrun & H0 & H2 & Hex & Hsee & Hx & _ & Hd2).
  pose proof (H third_at_read 0%nat
                {| tkey := key_x; tpc := Done None (Some item_x) |}
                body_spaced value_a (Headers item_x) (CachedAt item_x)
                2%nat {| tkey := key_x; tpc := AtRead |} None third_sees
                Hrun decode_spaced H0 (f_equal Some Hx) H2 eq_refl eq_refl Hex)
    as (item & Hitem & Hd).
  cbn [tkey] in Hitem. rewrite Hsee in Hitem.
  assert (Hi : item = item_two) by congruence. subst item.
  rewrite Hd2 in Hd. unfold value_two, value_a in Hd. discriminate Hd.
Qed.

(** C10 fails as worded when requests overlap: the body the later
    lookup finds is the encoding the second invocation stored, not the
    encoding of the value the first one decoded. *)
Lemma replaced_entry_is_other_encoding :
  ~ Overlap.later_hits_serve_encoding [key_x; key_x; key_x] ∅ overlapping.
Proof.
  intros H.
  destruct overlapping_run as (Hrun & H0 & H2 & Hex & Hsee & Hx & Hb2 & _).
  pose proof (H third_at_read 0%nat
                {| tkey := key_x; tpc := Done None (Some item_x) |}
                body_spaced value_a (Headers item_x) (CachedAt item_x)
                2%nat {| tkey := key_x; tpc := AtRead |} None third_sees
                Hrun decode_spaced H0 (f_equal Some Hx) H2 eq_refl eq_refl Hex)
    as (item & Hitem & Hb).
  cbn [tkey] in Hitem. rewrite Hsee in Hitem.
  assert (Hi : item = item_two) by congruence. subst item.
  rewrite Hb2 in Hb. vm_compute in Hb. discriminate Hb.
Qed.

End Cases.
